(** * REST API demo: entity store, access guard and request metrics

    A shallow embedding of the two server files of the repository:
    - [server.js], which keeps users, todos and the recent requests in
      plain arrays ([ArrayServer], [ArrayMetrics]);
    - the second server file ([src/unnamed/part_000]), which keeps users
      and todos in [Map]s keyed by id and the recent requests in a
      circular buffer ([MapServer], [RingMetrics]).

    The handlers are modelled as functions from the store to a new store
    and a response.  JavaScript objects held in the store are mutated in
    place by the handlers; the model writes the mutated object back at
    the position it was found, at every exit of the handler. *)

From stdpp Require Import base list strings pretty gmap sorting.
From Stdlib Require Import Ascii QArith Qround Qabs Lqa SpecFloat.

Local Close Scope Q_scope.
Local Open Scope string_scope.
Local Open Scope nat_scope.
Local Open Scope list_scope.

(** ** JavaScript values

    Request bodies are parsed JSON, query parameters are strings (or
    arrays and objects of strings); a field that is absent reads as
    [undefined].  Numbers are the rationals denoted by the parsed
    doubles: only their truthiness and equality are used. *)
Module JS.

#[warnings="-register-all"]
Inductive value : Type :=
| VUndefined
| VNull
| VBool (b : bool)
| VNum (q : Q)
| VStr (s : string)
| VArr (items : list value)
| VObj (fields : list (string * value)).

(** [!!v] *)
Definition truthy (v : value) : bool :=
  match v with
  | VUndefined | VNull => false
  | VBool b => b
  | VNum q => negb (Qeq_bool q 0%Q)
  | VStr s => negb (bool_decide (s = ""))
  | VArr _ | VObj _ => true
  end.

(** [v !== undefined] *)
Definition defined (v : value) : bool :=
  match v with
  | VUndefined => false
  | _ => true
  end.

(** [a === b].  Arrays and objects are compared by reference; the two
    sides of every comparison in the servers come from different requests
    (or one side is a string), so two objects are never the same
    reference. *)
Definition strict_eq (a b : value) : bool :=
  match a, b with
  | VUndefined, VUndefined => true
  | VNull, VNull => true
  | VBool x, VBool y => bool_decide (x = y)
  | VNum x, VNum y => Qeq_bool x y
  | VStr x, VStr y => bool_decide (x = y)
  | _, _ => false
  end.

End JS.
Export JS.

(** ** Entities *)
Module User.
Record t := mk { id : string; name : value; email : value }.
Definition set_name (v : value) (u : t) : t := mk (id u) v (email u).
Definition set_email (v : value) (u : t) : t := mk (id u) (name u) v.
End User.

Module Todo.
Record t := mk { id : string; userId : value; title : value; completed : value }.
Definition set_title (v : value) (x : t) : t := mk (id x) (userId x) v (completed x).
Definition set_completed (v : value) (x : t) : t := mk (id x) (userId x) (title x) v.
Definition set_userId (v : value) (x : t) : t := mk (id x) v (title x) (completed x).
End Todo.

(** ** Responses: [res.status(code).json(body)], 200 when no status is set *)
Inductive body :=
| BError (error : string)
| BUser (u : User.t)
| BTodo (x : Todo.t)
| BUsers (l : list User.t)
| BTodos (l : list Todo.t)
| BOk.

Record response := Response { status : nat; json : body }.

Definition fail (code : nat) (msg : string) : response := Response code (BError msg).

(** [let nextId = 1; const makeId = () => String(nextId++)]: the counter is
    threaded through the store, as a natural number (no store lives long
    enough for the counter to leave the integers a double holds). *)
Definition makeId (nextId : nat) : string * nat := (pretty nextId, S nextId).

(** The bodies of the mutating requests: [const { .. } = req.body || {}]. *)
Record user_body := UserBody { b_name : value; b_email : value }.
Record todo_body := TodoBody { b_userId : value; b_title : value; b_completed : value }.

(** The store operations of both servers. *)
Inductive op :=
| CreateUser (b : user_body)
| UpdateUser (id : string) (b : user_body)
| DeleteUser (id : string)
| CreateTodo (b : todo_body)
| UpdateTodo (id : string) (b : todo_body)
| DeleteTodo (id : string).

(** ** [Array.prototype] methods used by [server.js] *)
Module JSArray.
Section Methods.
Context {A : Type}.

(** [l.find(p)] *)
Fixpoint find (p : A → bool) (l : list A) : option A :=
  match l with
  | [] => None
  | x :: r => if p x then Some x else find p r
  end.

(** [l.findIndex(p)], [None] for -1 *)
Fixpoint findIndex (p : A → bool) (l : list A) : option nat :=
  match l with
  | [] => None
  | x :: r => if p x then Some 0 else S <$> findIndex p r
  end.

(** [l.push(x)] *)
Definition push (x : A) (l : list A) : list A := l ++ [x].

(** [l.splice(i, 1)]: the array without its element at index [i] *)
Definition splice1 (i : nat) (l : list A) : list A := delete i l.

(** [l.shift()]: the array without its first element *)
Definition shift (l : list A) : list A := tail l.

(** [l.slice(-n)]: the last [n] elements, all of them when there are fewer *)
Definition slice_last (n : nat) (l : list A) : list A := drop (length l - n) l.

(** [const x = l.find(p); x.f = ..]: the object found is mutated where it
    stands in the array. *)
Fixpoint mutate_found (p : A → bool) (f : A → A) (l : list A) : list A :=
  match l with
  | [] => []
  | x :: r => if p x then f x :: r else x :: mutate_found p f r
  end.

End Methods.
End JSArray.

(** ** [server.js]: users and todos in arrays *)
Module ArrayServer.
Import JSArray.

Record store := Store { nextId : nat; users : list User.t; todos : list Todo.t }.

Definition seed : store :=
  let '(i1, n) := makeId 1 in
  let '(i2, n) := makeId n in
  let users :=
    [ User.mk i1 (VStr "Alice") (VStr "alice@example.com");
      User.mk i2 (VStr "Bob") (VStr "bob@example.com") ] in
  let '(i3, n) := makeId n in
  let '(i4, n) := makeId n in
  let '(i5, n) := makeId n in
  let todos :=
    [ Todo.mk i3 (VStr i1) (VStr "Buy coffee") (VBool false);
      Todo.mk i4 (VStr i1) (VStr "Edit wedding photos") (VBool true);
      Todo.mk i5 (VStr i2) (VStr "Prepare client proposal") (VBool false) ] in
  Store n users todos.

Definition user_is (id : string) (u : User.t) : bool := bool_decide (User.id u = id).
Definition todo_is (id : string) (x : Todo.t) : bool := bool_decide (Todo.id x = id).

(** [u => u.id === userId], with [userId] taken from a body *)
Definition user_has (userId : value) (u : User.t) : bool := strict_eq (VStr (User.id u)) userId.

(** POST /api/users *)
Definition createUser (b : user_body) (st : store) : store * response :=
  if negb (truthy (b_name b)) || negb (truthy (b_email b))
  then (st, fail 400 "name and email are required")
  else
    let '(id, n) := makeId (nextId st) in
    let user := User.mk id (b_name b) (b_email b) in
    (Store n (push user (users st)) (todos st), Response 201 (BUser user)).

(** GET /api/users/:id *)
Definition getUser (id : string) (st : store) : response :=
  match find (user_is id) (users st) with
  | None => fail 404 "user not found"
  | Some user => Response 200 (BUser user)
  end.

(** PATCH /api/users/:id *)
Definition updateUser (id : string) (b : user_body) (st : store) : store * response :=
  match find (user_is id) (users st) with
  | None => (st, fail 404 "user not found")
  | Some user =>
    let user := if defined (b_name b) then User.set_name (b_name b) user else user in
    let user := if defined (b_email b) then User.set_email (b_email b) user else user in
    (Store (nextId st) (mutate_found (user_is id) (λ _, user) (users st)) (todos st),
     Response 200 (BUser user))
  end.

(** [for (let i = todos.length - 1; i >= 0; i--)
       if (todos[i].userId === removed.id) todos.splice(i, 1);]
    [cascade removed n todos] runs the loop for the indices below [n]. *)
Fixpoint cascade (removed : string) (n : nat) (todos : list Todo.t) : list Todo.t :=
  match n with
  | 0 => todos
  | S i =>
    cascade removed i
      match todos !! i with
      | Some x => if strict_eq (Todo.userId x) (VStr removed) then splice1 i todos else todos
      | None => todos
      end
  end.

(** DELETE /api/users/:id.  [removed] is [users[idx]], which is there when
    [findIndex] returned [idx]. *)
Definition deleteUser (id : string) (st : store) : store * response :=
  match findIndex (user_is id) (users st) with
  | None => (st, fail 404 "user not found")
  | Some idx =>
    match users st !! idx with
    | None => (st, fail 404 "user not found")
    | Some removed =>
      (Store (nextId st) (splice1 idx (users st))
             (cascade (User.id removed) (length (todos st)) (todos st)),
       Response 200 BOk)
    end
  end.

(** GET /api/todos, with [req.query.userId] and [req.query.completed] *)
Definition listTodos (userId completed : value) (st : store) : response :=
  let list := todos st in
  let list :=
    if truthy userId
    then List.filter (λ x, strict_eq (Todo.userId x) userId) list
    else list in
  let list :=
    if defined completed then
      if strict_eq completed (VStr "true")
      then List.filter (λ x, strict_eq (Todo.completed x) (VBool true)) list
      else if strict_eq completed (VStr "false")
      then List.filter (λ x, strict_eq (Todo.completed x) (VBool false)) list
      else list
    else list in
  Response 200 (BTodos list).

(** POST /api/todos; [completed = false] is the destructuring default *)
Definition createTodo (b : todo_body) (st : store) : store * response :=
  let completed := if defined (b_completed b) then b_completed b else VBool false in
  if negb (truthy (b_userId b)) || negb (truthy (b_title b))
  then (st, fail 400 "userId and title are required")
  else
    match find (user_has (b_userId b)) (users st) with
    | None => (st, fail 400 "invalid userId")
    | Some _ =>
      let '(id, n) := makeId (nextId st) in
      let todo := Todo.mk id (b_userId b) (b_title b) (VBool (truthy completed)) in
      (Store n (users st) (push todo (todos st)), Response 201 (BTodo todo))
    end.

(** GET /api/todos/:id *)
Definition getTodo (id : string) (st : store) : response :=
  match find (todo_is id) (todos st) with
  | None => fail 404 "todo not found"
  | Some todo => Response 200 (BTodo todo)
  end.

(** PATCH /api/todos/:id.  [todo] is the stored object: the assignments
    made before the handler returns are in the store whichever way it
    returns. *)
Definition updateTodo (id : string) (b : todo_body) (st : store) : store * response :=
  match find (todo_is id) (todos st) with
  | None => (st, fail 404 "todo not found")
  | Some todo =>
    let stored x := Store (nextId st) (users st) (mutate_found (todo_is id) (λ _, x) (todos st)) in
    let todo := if defined (b_title b) then Todo.set_title (b_title b) todo else todo in
    let todo :=
      if defined (b_completed b)
      then Todo.set_completed (VBool (truthy (b_completed b))) todo else todo in
    if defined (b_userId b) then
      match find (user_has (b_userId b)) (users st) with
      | None => (stored todo, fail 400 "invalid userId")
      | Some _ =>
        let todo := Todo.set_userId (b_userId b) todo in
        (stored todo, Response 200 (BTodo todo))
      end
    else (stored todo, Response 200 (BTodo todo))
  end.

(** DELETE /api/todos/:id *)
Definition deleteTodo (id : string) (st : store) : store * response :=
  match findIndex (todo_is id) (todos st) with
  | None => (st, fail 404 "todo not found")
  | Some idx => (Store (nextId st) (users st) (splice1 idx (todos st)), Response 200 BOk)
  end.

Definition step (st : store) (o : op) : store * response :=
  match o with
  | CreateUser b => createUser b st
  | UpdateUser id b => updateUser id b st
  | DeleteUser id => deleteUser id st
  | CreateTodo b => createTodo b st
  | UpdateTodo id b => updateTodo id b st
  | DeleteTodo id => deleteTodo id st
  end.

(** The store after a sequence of operations on the seed data. *)
Definition run (ops : list op) : store := foldl (λ st o, (step st o).1) seed ops.

End ArrayServer.

(** ** [Map] methods used by the second server

    A [Map] with string keys is the list of its entries in insertion
    order, with one entry per key. *)
Module JSMap.
Section Methods.
Context {A : Type}.

(** [m.get(k)] for a string [k] *)
Fixpoint get (k : string) (m : list (string * A)) : option A :=
  match m with
  | [] => None
  | (k', v) :: r => if bool_decide (k' = k) then Some v else get k r
  end.

(** [m.get(v)] for a value of a body: the keys are strings, and no string
    is the same value as a non-string. *)
Definition get_value (k : value) (m : list (string * A)) : option A :=
  match k with
  | VStr s => get s m
  | _ => None
  end.

(** [m.set(k, v)]: an existing key keeps its place, a new one goes last *)
Fixpoint set (k : string) (v : A) (m : list (string * A)) : list (string * A) :=
  match m with
  | [] => [(k, v)]
  | (k', v') :: r => if bool_decide (k' = k) then (k, v) :: r else (k', v') :: set k v r
  end.

(** [m.delete(k)] *)
Definition delete (k : string) (m : list (string * A)) : list (string * A) :=
  List.filter (λ e, negb (bool_decide (e.1 = k))) m.

(** [Array.from(m.values())] *)
Definition values (m : list (string * A)) : list A := m.*2.

(** [const x = m.get(k); x.f = ..]: the object found is mutated where it
    stands in the map. *)
Fixpoint mutate_found (k : string) (f : A → A) (m : list (string * A)) : list (string * A) :=
  match m with
  | [] => []
  | (k', v) :: r => if bool_decide (k' = k) then (k', f v) :: r else (k', v) :: mutate_found k f r
  end.

End Methods.
End JSMap.

(** ** The second server: users and todos in [Map]s keyed by id *)
Module MapServer.

Record store := Store {
  nextId : nat;
  users : list (string * User.t);
  todos : list (string * Todo.t)
}.

Definition seed : store :=
  let '(i1, n) := makeId 1 in
  let alice := User.mk i1 (VStr "Alice") (VStr "alice@example.com") in
  let '(i2, n) := makeId n in
  let bob := User.mk i2 (VStr "Bob") (VStr "bob@example.com") in
  let users := JSMap.set (User.id bob) bob (JSMap.set (User.id alice) alice []) in
  let '(i3, n) := makeId n in
  let '(i4, n) := makeId n in
  let '(i5, n) := makeId n in
  let todos :=
    foldl (λ m x, JSMap.set (Todo.id x) x m) []
      [ Todo.mk i3 (VStr (User.id alice)) (VStr "Buy coffee") (VBool false);
        Todo.mk i4 (VStr (User.id alice)) (VStr "Edit wedding photos") (VBool true);
        Todo.mk i5 (VStr (User.id bob)) (VStr "Prepare client proposal") (VBool false) ] in
  Store n users todos.

(** POST /api/users *)
Definition createUser (b : user_body) (st : store) : store * response :=
  if negb (truthy (b_name b)) || negb (truthy (b_email b))
  then (st, fail 400 "name and email are required")
  else
    let '(id, n) := makeId (nextId st) in
    let user := User.mk id (b_name b) (b_email b) in
    (Store n (JSMap.set (User.id user) user (users st)) (todos st), Response 201 (BUser user)).

(** GET /api/users/:id *)
Definition getUser (id : string) (st : store) : response :=
  match JSMap.get id (users st) with
  | None => fail 404 "user not found"
  | Some user => Response 200 (BUser user)
  end.

(** PATCH /api/users/:id *)
Definition updateUser (id : string) (b : user_body) (st : store) : store * response :=
  match JSMap.get id (users st) with
  | None => (st, fail 404 "user not found")
  | Some user =>
    let user := if defined (b_name b) then User.set_name (b_name b) user else user in
    let user := if defined (b_email b) then User.set_email (b_email b) user else user in
    (Store (nextId st) (JSMap.mutate_found id (λ _, user) (users st)) (todos st),
     Response 200 (BUser user))
  end.

(** [for (const [id, todo] of todos)
       if (todo.userId === req.params.id) todos.delete(id);]
    Deleting the entry being visited leaves the entries still to be
    visited in place, so the loop visits every entry the map had. *)
Definition cascade (removed : string) (todos : list (string * Todo.t)) : list (string * Todo.t) :=
  foldl (λ m e, if strict_eq (Todo.userId e.2) (VStr removed) then JSMap.delete e.1 m else m)
        todos todos.

(** DELETE /api/users/:id *)
Definition deleteUser (id : string) (st : store) : store * response :=
  match JSMap.get id (users st) with
  | None => (st, fail 404 "user not found")
  | Some _ =>
    (Store (nextId st) (JSMap.delete id (users st)) (cascade id (todos st)), Response 200 BOk)
  end.

(** GET /api/todos, with [req.query.userId] and [req.query.completed] *)
Definition listTodos (userId completed : value) (st : store) : response :=
  let list := JSMap.values (todos st) in
  let list :=
    if truthy userId
    then List.filter (λ x, strict_eq (Todo.userId x) userId) list
    else list in
  let list :=
    if defined completed then
      if strict_eq completed (VStr "true")
      then List.filter (λ x, strict_eq (Todo.completed x) (VBool true)) list
      else if strict_eq completed (VStr "false")
      then List.filter (λ x, strict_eq (Todo.completed x) (VBool false)) list
      else list
    else list in
  Response 200 (BTodos list).

(** POST /api/todos; [completed = false] is the destructuring default *)
Definition createTodo (b : todo_body) (st : store) : store * response :=
  let completed := if defined (b_completed b) then b_completed b else VBool false in
  if negb (truthy (b_userId b)) || negb (truthy (b_title b))
  then (st, fail 400 "userId and title are required")
  else
    match JSMap.get_value (b_userId b) (users st) with
    | None => (st, fail 400 "invalid userId")
    | Some _ =>
      let '(id, n) := makeId (nextId st) in
      let todo := Todo.mk id (b_userId b) (b_title b) (VBool (truthy completed)) in
      (Store n (users st) (JSMap.set (Todo.id todo) todo (todos st)), Response 201 (BTodo todo))
    end.

(** GET /api/todos/:id *)
Definition getTodo (id : string) (st : store) : response :=
  match JSMap.get id (todos st) with
  | None => fail 404 "todo not found"
  | Some todo => Response 200 (BTodo todo)
  end.

(** PATCH /api/todos/:id.  [todo] is the stored object: the assignments
    made before the handler returns are in the store whichever way it
    returns. *)
Definition updateTodo (id : string) (b : todo_body) (st : store) : store * response :=
  match JSMap.get id (todos st) with
  | None => (st, fail 404 "todo not found")
  | Some todo =>
    let stored x := Store (nextId st) (users st) (JSMap.mutate_found id (λ _, x) (todos st)) in
    let todo := if defined (b_title b) then Todo.set_title (b_title b) todo else todo in
    let todo :=
      if defined (b_completed b)
      then Todo.set_completed (VBool (truthy (b_completed b))) todo else todo in
    if defined (b_userId b) then
      match JSMap.get_value (b_userId b) (users st) with
      | None => (stored todo, fail 400 "invalid userId")
      | Some _ =>
        let todo := Todo.set_userId (b_userId b) todo in
        (stored todo, Response 200 (BTodo todo))
      end
    else (stored todo, Response 200 (BTodo todo))
  end.

(** DELETE /api/todos/:id *)
Definition deleteTodo (id : string) (st : store) : store * response :=
  match JSMap.get id (todos st) with
  | None => (st, fail 404 "todo not found")
  | Some _ => (Store (nextId st) (users st) (JSMap.delete id (todos st)), Response 200 BOk)
  end.

Definition step (st : store) (o : op) : store * response :=
  match o with
  | CreateUser b => createUser b st
  | UpdateUser id b => updateUser id b st
  | DeleteUser id => deleteUser id st
  | CreateTodo b => createTodo b st
  | UpdateTodo id b => updateTodo id b st
  | DeleteTodo id => deleteTodo id st
  end.

(** The store after a sequence of operations on the seed data. *)
Definition run (ops : list op) : store := foldl (λ st o, (step st o).1) seed ops.

End MapServer.

(** ** The access guard, the same in both servers

    Header values are strings of 8-bit characters, as Node decodes them;
    a header that is absent reads as [undefined]. *)
Module Auth.

(** [process.env.API_KEY || "dev-api-key-change-me"] *)
Definition API_KEY (env : option string) : string :=
  match env with
  | Some k => if bool_decide (k = "") then "dev-api-key-change-me" else k
  | None => "dev-api-key-change-me"
  end.

Definition code (c : ascii) : nat := nat_of_ascii c.

(** The class [\s] on 8-bit characters: tab, line feed, vertical tab, form
    feed, carriage return, space and no-break space. *)
Definition is_space (c : ascii) : bool :=
  bool_decide (code c ∈ [9; 10; 11; 12; 13; 32; 160]).

(** [.] matches every character but the line terminators. *)
Definition is_line_terminator (c : ascii) : bool :=
  bool_decide (code c ∈ [10; 13]).

(** Canonicalisation under the [i] flag: a character above 127 is never
    folded onto an ASCII letter, so only a-z are folded. *)
Definition canonicalize (c : ascii) : ascii :=
  if bool_decide (97 ≤ code c ≤ 122)%nat then ascii_of_nat (code c - 32) else c.

(** A literal of the pattern at the start of the input, ignoring case;
    the result is the rest of the input. *)
Fixpoint literal (pat s : string) : option string :=
  match pat, s with
  | EmptyString, _ => Some s
  | String p pat', String c s' =>
    if bool_decide (canonicalize p = canonicalize c) then literal pat' s' else None
  | String _ _, EmptyString => None
  end.

Fixpoint all_chars (p : ascii → bool) (s : string) : bool :=
  match s with
  | EmptyString => true
  | String c s' => p c && all_chars p s'
  end.

(** [(.+)$]: the capture is the rest of the input, which has at least one
    character and no line terminator. *)
Definition capture_to_end (s : string) : option string :=
  match s with
  | EmptyString => None
  | String _ _ => if all_chars (λ c, negb (is_line_terminator c)) s then Some s else None
  end.

(** [\s*] followed by [k], greedy: one more space is tried first, and
    given back when the rest does not match. *)
Fixpoint spaces_then (k : string → option string) (s : string) : option string :=
  match s with
  | String c s' =>
    if is_space c then
      match spaces_then k s' with
      | Some r => Some r
      | None => k s
      end
    else k s
  | EmptyString => k s
  end.

(** [\s+] followed by [k] *)
Definition space_plus_then (k : string → option string) (s : string) : option string :=
  match s with
  | String c s' => if is_space c then spaces_then k s' else None
  | EmptyString => None
  end.

(** [auth.match(/^ApiKey\s+(.+)$/i)]: [Some m1] is a match whose first
    group is [m1], [None] is [null]. *)
Definition match_ApiKey (auth : string) : option string :=
  match literal "ApiKey" auth with
  | Some rest => space_plus_then capture_to_end rest
  | None => None
  end.

(** [provided] in [apiKeyRequired] *)
Definition provided (x_api_key authorization : option string) : string :=
  let hdr := default "" x_api_key in
  let auth := default "" authorization in
  let m := match_ApiKey auth in
  if negb (bool_decide (hdr = "")) then hdr
  else match m with Some m1 => m1 | None => "" end.

Inductive verdict :=
| Next
| Reject (r : response).

Definition apiKeyRequired (env x_api_key authorization : option string) : verdict :=
  let provided := provided x_api_key authorization in
  if bool_decide (provided = "") then Reject (fail 401 "missing API key")
  else if negb (bool_decide (provided = API_KEY env)) then Reject (fail 401 "invalid API key")
  else Next.

End Auth.

(** ** Numbers

    The numbers of the language are the binary64 floating-point numbers,
    with the arithmetic of IEEE 754 (round to nearest, ties to even), as
    [SpecFloat] of the Standard Library defines it. *)
Module Double.

Definition prec : Z := 53.
Definition emax : Z := 1024.

Definition of_Z (n : Z) : spec_float :=
  match n with
  | Z0 => S754_zero false
  | Zpos p => S754_finite false p 0
  | Zneg p => S754_finite true p 0
  end.

(** The double nearest to a rational: the quotient of numerator and
    denominator, rounded once.  A rational that a double denotes gives
    that double. *)
Definition of_Q (q : Q) : spec_float :=
  SFdiv prec emax (of_Z (Qnum q)) (of_Z (Zpos (Qden q))).

(** A counter as a number (itself, up to 2^53). *)
Definition of_nat (n : nat) : spec_float :=
  binary_normalize prec emax (Z.of_nat n) 0 false.

(** The rational a finite double denotes; [None] for [NaN] and the
    infinities. *)
Definition to_Q (x : spec_float) : option Q :=
  match x with
  | S754_zero _ => Some 0%Q
  | S754_finite s m e => Some (inject_Z (cond_Zopp s (Zpos m)) * Qpower 2 e)%Q
  | S754_infinity _ | S754_nan => None
  end.

(** [x + y] and [x / y] *)
Definition add (x y : spec_float) : spec_float := SFadd prec emax x y.
Definition div (x y : spec_float) : spec_float := SFdiv prec emax x y.

(** [+s] for a decimal numeral [s] that reads [d], with a minus sign in
    front when [negative]: the double nearest to [d]; the sign is that of
    the numeral when the double is a zero. *)
Definition of_decimal (negative : bool) (d : Q) : spec_float :=
  match of_Q d with
  | S754_zero _ => S754_zero negative
  | x => x
  end.

End Double.

(** ** The metrics middleware: what both servers share

    A duration [t1 - t0] is a finite double, given by the rational it
    denotes; the sum of the durations of a route and its mean are
    computed in doubles, as the code computes them. *)
Module Metrics.

(** What the [finish] handler reads: the request, the response status, the
    clock ([new Date().toISOString()]) and [t1 - t0]. *)
Record finished := Finished {
  method : string;
  baseUrl : option string;  (* [None] when [req.baseUrl] is [undefined] *)
  route : option string;  (* [req.route.path || ""] when a route matched *)
  originalUrl : string;
  statusCode : nat;
  now : string;
  elapsed : Q
}.

(** [s.split("?")[0]] *)
Fixpoint before_query (s : string) : string :=
  match s with
  | EmptyString => EmptyString
  | String c s' => if bool_decide (c = "?"%char) then EmptyString else String c (before_query s')
  end.

Definition routeKey (req : finished) : string :=
  (method req ++ " " ++
   match route req with
   | Some path => default "undefined" (baseUrl req) ++ path
   | None => before_query (originalUrl req)
   end)%string.

Record route_stat := RouteStat { count : nat; totalMs : spec_float; statuses : gmap nat nat }.

(** [metrics.byRoute]: an object used as a map.  Every key holds a space,
    so none is an array index and none is a property of [Object.prototype]:
    the entries are enumerated in insertion order. *)
Fixpoint lookup_route (key : string) (byRoute : list (string * route_stat)) : option route_stat :=
  match byRoute with
  | [] => None
  | (k, v) :: r => if bool_decide (k = key) then Some v else lookup_route key r
  end.

Fixpoint assign_route (key : string) (v : route_stat) (byRoute : list (string * route_stat))
  : list (string * route_stat) :=
  match byRoute with
  | [] => [(key, v)]
  | (k, v') :: r => if bool_decide (k = key) then (k, v) :: r else (k, v') :: assign_route key v r
  end.

(** The three updates of [metrics.byRoute[key]] made on [finish]. *)
Definition observe (code : nat) (ms : Q) (v : route_stat) : route_stat :=
  RouteStat (count v + 1) (Double.add (totalMs v) (Double.of_Q ms))
            (<[code := default 0 (statuses v !! code) + 1]> (statuses v)).

Definition record_route (key : string) (code : nat) (ms : Q)
    (byRoute : list (string * route_stat)) : list (string * route_stat) :=
  let byRoute :=
    match lookup_route key byRoute with
    | None => assign_route key (RouteStat 0 (S754_zero false) ∅) byRoute
    | Some _ => byRoute
    end in
  match lookup_route key byRoute with
  | Some v => assign_route key (observe code ms v) byRoute
  | None => byRoute
  end.

(** [Math.round(x)] *)
Definition Math_round (x : Q) : Z := Qfloor (x + (1 # 2))%Q.

Record entry := Entry { ts : string; e_method : string; path : string; e_status : nat; ms : Z }.

Definition entry_of (req : finished) : entry :=
  Entry (now req) (method req) (originalUrl req) (statusCode req) (Math_round (elapsed req)).

(** What the numeral [x.toFixed(1)] reads, for the value [x] of a finite
    double: the multiple of 1/10 nearest to [x], the one further from zero
    of two.  (From 10^21 on [toFixed] prints the double itself, which is
    an integer there and so its own rounding.) *)
Definition toFixed1 (x : Q) : Q :=
  if Qle_bool 0%Q x then (inject_Z (Qfloor (x * 10 + (1 # 2))) / 10)%Q
  else (- (inject_Z (Qfloor (- x * 10 + (1 # 2))) / 10))%Q.

(** [+x.toFixed(1)]: the numeral read back as a double.  The numeral has
    a minus sign exactly when [x] is below zero; [NaN] and the infinities
    print and read back as themselves. *)
Definition toFixed1_number (x : spec_float) : spec_float :=
  match Double.to_Q x with
  | Some q => Double.of_decimal (negb (Qle_bool 0%Q q)) (toFixed1 q)
  | None => x
  end.

Record route_row := RouteRow {
  r_route : string;
  r_count : nat;
  avgMs : spec_float;
  r_statuses : gmap nat nat
}.

(** [([route, v]) => ({ route, count: v.count, avgMs: .., statuses: v.statuses })] *)
Definition row_of (e : string * route_stat) : route_row :=
  RouteRow e.1 (count e.2)
           (if bool_decide (count e.2 = 0) then S754_zero false
            else toFixed1_number (Double.div (totalMs e.2) (Double.of_nat (count e.2))))
           (statuses e.2).

(** [(a, b) => b.count - a.count] *)
Definition by_count_desc (a b : route_row) : Z := Z.of_nat (r_count b) - Z.of_nat (r_count a).

(** [l.sort(cmp)].  The sort of the language is stable, and every stable
    sort gives the same array for a comparator that is a total preorder:
    insertion from the right is one of them. *)
Section Sort.
Context {A : Type} (cmp : A → A → Z).

Fixpoint insert_sorted (x : A) (l : list A) : list A :=
  match l with
  | [] => [x]
  | y :: r => if (cmp x y <=? 0)%Z then x :: y :: r else y :: insert_sorted x r
  end.

Definition sort (l : list A) : list A := foldr insert_sorted [] l.

End Sort.

(** [Object.entries(metrics.byRoute).map(..).sort(..)] *)
Definition routes_of (byRoute : list (string * route_stat)) : list route_row :=
  sort by_count_desc (row_of <$> byRoute).

Record stats := Stats {
  s_startedAt : string;
  uptimeSec : Z;
  s_totalRequests : nat;
  routes : list route_row;
  s_recent : list entry
}.

End Metrics.

(** ** [server.js]: the recent requests in an array of at most 100 *)
Module ArrayMetrics.
Import Metrics.

Record metrics := Build {
  startedAt : string;
  totalRequests : nat;
  byRoute : list (string * route_stat);
  recent : list entry
}.

Definition init (startedAt : string) : metrics := Build startedAt 0 [] [].

(** The [finish] handler of the middleware. *)
Definition finish (m : metrics) (req : finished) : metrics :=
  let recent := JSArray.push (entry_of req) (recent m) in
  Build (startedAt m) (totalRequests m + 1)
        (record_route (routeKey req) (statusCode req) (elapsed req) (byRoute m))
        (if bool_decide (100 < length recent) then JSArray.shift recent else recent).

(** GET /api/_stats; [uptime] is [process.uptime()]. *)
Definition snapshot (uptime : Q) (m : metrics) : stats :=
  Stats (startedAt m) (Math_round uptime) (totalRequests m)
        (routes_of (byRoute m))
        (reverse (JSArray.slice_last 20 (recent m))).

(** The metrics after a sequence of completed requests. *)
Definition run (startedAt : string) (reqs : list finished) : metrics :=
  foldl finish (init startedAt) reqs.

End ArrayMetrics.

(** ** The second server: the recent requests in a circular buffer *)
Module RingMetrics.
Import Metrics.

Definition RECENT_SIZE : nat := 100.

Record metrics := Build {
  startedAt : string;
  totalRequests : nat;
  byRoute : list (string * route_stat);
  recent : list (option entry);  (* [None] is a hole of [new Array(RECENT_SIZE)] *)
  recentIndex : nat;
  recentCount : nat
}.

Definition init (startedAt : string) : metrics :=
  Build startedAt 0 [] (replicate RECENT_SIZE None) 0 0.

(** [a[i] = x]: an index past the end extends the array with holes. *)
Definition assign {A} (i : nat) (x : A) (a : list (option A)) : list (option A) :=
  if bool_decide (i < length a) then <[i := Some x]> a
  else a ++ replicate (i - length a) None ++ [Some x].

(** The [finish] handler of the middleware. *)
Definition finish (m : metrics) (req : finished) : metrics :=
  Build (startedAt m) (totalRequests m + 1)
        (record_route (routeKey req) (statusCode req) (elapsed req) (byRoute m))
        (assign (recentIndex m) (entry_of req) (recent m))
        ((recentIndex m + 1) `mod` RECENT_SIZE)
        (if bool_decide (recentCount m < RECENT_SIZE) then recentCount m + 1 else recentCount m).

(** [(metrics.recentIndex - 1 - i + RECENT_SIZE) % RECENT_SIZE] *)
Definition slot (recentIndex i : nat) : nat :=
  Z.to_nat ((Z.of_nat recentIndex - 1 - Z.of_nat i + Z.of_nat RECENT_SIZE) `rem` Z.of_nat RECENT_SIZE).

(** [for (let i = 0; i < Math.min(20, count); i++) { .. if (item) recent.push(item); }] *)
Definition read_recent (m : metrics) : list entry :=
  let count := recentCount m `min` RECENT_SIZE in
  omap (λ i, mjoin (recent m !! slot (recentIndex m) i)) (seq 0 (20 `min` count)).

(** GET /api/_stats; [uptime] is [process.uptime()]. *)
Definition snapshot (uptime : Q) (m : metrics) : stats :=
  Stats (startedAt m) (Math_round uptime) (totalRequests m)
        (routes_of (byRoute m))
        (read_recent m).

(** The metrics after a sequence of completed requests. *)
Definition run (startedAt : string) (reqs : list finished) : metrics :=
  foldl finish (init startedAt) reqs.

End RingMetrics.

(** ** The guarded routes

    [app.post(path, apiKeyRequired, handler)], and the same for [patch] and
    [delete]: the handler runs when the guard calls [next()], and the
    answer of the guard is the answer of the request when it does not. *)
Module Routes.

Record credentials := Credentials {
  x_api_key : option string;     (* [req.headers["x-api-key"]] *)
  authorization : option string  (* [req.headers["authorization"]] *)
}.

Definition guarded {S : Type} (env : option string) (h : credentials)
    (handler : S → S * response) (st : S) : S * response :=
  match Auth.apiKeyRequired env (x_api_key h) (authorization h) with
  | Auth.Next => handler st
  | Auth.Reject r => (st, r)
  end.

(** A request to one of the six mutating routes of [server.js]. *)
Definition array_request (env : option string) (st : ArrayServer.store)
    (req : credentials * op) : ArrayServer.store * response :=
  guarded env req.1 (λ st, ArrayServer.step st req.2) st.

(** The same for the second server. *)
Definition map_request (env : option string) (st : MapServer.store)
    (req : credentials * op) : MapServer.store * response :=
  guarded env req.1 (λ st, MapServer.step st req.2) st.

(** The store after a sequence of such requests on the seed data. *)
Definition array_serve (env : option string) (reqs : list (credentials * op))
  : ArrayServer.store :=
  foldl (λ st req, (array_request env st req).1) ArrayServer.seed reqs.

Definition map_serve (env : option string) (reqs : list (credentials * op))
  : MapServer.store :=
  foldl (λ st req, (map_request env st req).1) MapServer.seed reqs.

End Routes.

(** ** GET /api/users

    [String.prototype.toLowerCase] is a parameter.  A handler that throws
    (a [TypeError], which Express answers with 500) returns [None]. *)
Module Search.
Section ToLowerCase.
Context (toLowerCase : string → string).

(** [v.toLowerCase()]: only a string has the method. *)
Definition lower (v : value) : option string :=
  match v with
  | VStr s => Some (toLowerCase s)
  | _ => None
  end.

(** [s.startsWith(q)], for [includes] below *)
Fixpoint starts_with (q s : string) : bool :=
  match q, s with
  | EmptyString, _ => true
  | String a q', String b s' => bool_decide (a = b) && starts_with q' s'
  | String _ _, EmptyString => false
  end.

(** [s.includes(q)] *)
Fixpoint includes (s q : string) : bool :=
  starts_with q s ||
  match s with
  | EmptyString => false
  | String _ s' => includes s' q
  end.

(** [u => u.name.toLowerCase().includes(q) || u.email.toLowerCase().includes(q)] *)
Definition user_matches (q : string) (u : User.t) : option bool :=
  match lower (User.name u) with
  | None => None
  | Some name =>
    if includes name q then Some true
    else match lower (User.email u) with
         | None => None
         | Some email => Some (includes email q)
         end
  end.

(** [l.filter(p)] for a [p] that may throw: the first throw ends it. *)
Fixpoint filter_or_throw {A} (p : A → option bool) (l : list A) : option (list A) :=
  match l with
  | [] => Some []
  | x :: r =>
    match p x with
    | None => None
    | Some keep =>
      match filter_or_throw p r with
      | None => None
      | Some r' => Some (if keep then x :: r' else r')
      end
    end
  end.

(** [(req.query.q || "").toLowerCase()] *)
Definition query_q (q : value) : option string :=
  lower (if truthy q then q else VStr "").

(** GET /api/users of [server.js] *)
Definition array_listUsers (q : value) (st : ArrayServer.store) : option response :=
  match query_q q with
  | None => None
  | Some q =>
    if negb (bool_decide (q = ""))
    then
      match filter_or_throw (user_matches q) (ArrayServer.users st) with
      | None => None
      | Some list => Some (Response 200 (BUsers list))
      end
    else Some (Response 200 (BUsers (ArrayServer.users st)))
  end.

(** GET /api/users of the second server *)
Definition map_listUsers (q : value) (st : MapServer.store) : option response :=
  match query_q q with
  | None => None
  | Some q =>
    let list := JSMap.values (MapServer.users st) in
    match
      if negb (bool_decide (q = ""))
      then filter_or_throw (user_matches q) list
      else Some list
    with
    | None => None
    | Some list => Some (Response 200 (BUsers list))
    end
  end.

End ToLowerCase.
End Search.

(** * Specification-level definitions *)

(** The entries held in the slots of the circular buffer. *)
Definition held (m : RingMetrics.metrics) : list Metrics.entry :=
  omap id (RingMetrics.recent m).

(** The state of the circular buffer after the entries [es] were recorded:
    the slot read at step [k] of the read-out holds the [k]-th most recent
    entry, or is a hole when fewer were recorded. *)
Definition ring_inv (es : list Metrics.entry) (m : RingMetrics.metrics) : Prop :=
  length (RingMetrics.recent m) = 100 ∧
  RingMetrics.recentIndex m = length es `mod` 100 ∧
  RingMetrics.recentCount m = length es `min` 100 ∧
  ∀ k, k < 100 →
    RingMetrics.recent m !! RingMetrics.slot (RingMetrics.recentIndex m) k
    = Some (reverse es !! k).

(** Rows ordered by count, largest first. *)
Definition count_desc (a b : Metrics.route_row) : Prop :=
  Metrics.r_count b ≤ Metrics.r_count a.

(** Every route statistic has been observed at least once. *)
Definition counted (byRoute : list (string * Metrics.route_stat)) : Prop :=
  ∀ e, e ∈ byRoute → 1 ≤ Metrics.count e.2.

(** [y] is [x] rounded to one decimal place. *)
Definition rounded1 (x y : Q) : Prop :=
  ∃ n : Z, (y == inject_Z n / 10)%Q ∧ (Qabs (y - x) <= 1 # 20)%Q.

(** The double [y] is the double [x] rounded to one decimal place: the
    double that a multiple of 1/10 at most 1/20 away from [x] reads as,
    or [x] itself when [x] is [NaN] or an infinity. *)
Definition rounded1_double (x y : spec_float) : Prop :=
  match Double.to_Q x with
  | Some q =>
    ∃ n : Z, (Qabs (inject_Z n / 10 - q) <= 1 # 20)%Q ∧
             y = Double.of_decimal (negb (Qle_bool 0%Q q)) (inject_Z n / 10)%Q
  | None => y = x
  end.

(** What a snapshot reports for the routes of [byRoute]. *)
Definition routes_spec (byRoute : list (string * Metrics.route_stat))
    (rows : list Metrics.route_row) : Prop :=
  StronglySorted count_desc rows ∧
  rows ≡ₚ Metrics.row_of <$> byRoute ∧
  ∀ row, row ∈ rows →
    ∃ v, (Metrics.r_route row, v) ∈ byRoute ∧
         Metrics.r_count row = Metrics.count v ∧
         Metrics.r_statuses row = Metrics.statuses v ∧
         1 ≤ Metrics.count v ∧
         let avg := Double.div (Metrics.totalMs v) (Double.of_nat (Metrics.count v)) in
         Metrics.avgMs row = Metrics.toFixed1_number avg ∧
         rounded1_double avg (Metrics.avgMs row).

(** Referential integrity: every todo belongs to a user of the store. *)
Definition array_integrity (st : ArrayServer.store) : Prop :=
  ∀ x, x ∈ ArrayServer.todos st →
    ∃ u, u ∈ ArrayServer.users st ∧ Todo.userId x = VStr (User.id u).

Definition map_integrity (st : MapServer.store) : Prop :=
  ∀ x, x ∈ JSMap.values (MapServer.todos st) →
    ∃ u, u ∈ JSMap.values (MapServer.users st) ∧ Todo.userId x = VStr (User.id u).

(** A strict boolean: [true] or [false] themselves. *)
Definition is_boolean (v : value) : Prop := ∃ b, v = VBool b.

(** The two maps of the second server are maps: one entry per key, every
    entry under the id of its object, every key made by [makeId]. *)
Definition map_wf (st : MapServer.store) : Prop :=
  NoDup (MapServer.users st).*1 ∧
  NoDup (MapServer.todos st).*1 ∧
  (∀ e, e ∈ MapServer.users st → User.id e.2 = e.1) ∧
  (∀ e, e ∈ MapServer.todos st → Todo.id e.2 = e.1) ∧
  (∀ k, k ∈ (MapServer.todos st).*1 → ∃ n, n < MapServer.nextId st ∧ k = pretty n).

(** The todos that do not belong to the user [id]. *)
Definition not_of (id : string) (x : Todo.t) : bool :=
  negb (strict_eq (Todo.userId x) (VStr id)).

(** Every todo of the store has a strict boolean for [completed]. *)
Definition array_booleans (st : ArrayServer.store) : Prop :=
  ∀ x, x ∈ ArrayServer.todos st → is_boolean (Todo.completed x).

Definition map_booleans (st : MapServer.store) : Prop :=
  ∀ x, x ∈ JSMap.values (MapServer.todos st) → is_boolean (Todo.completed x).

(** The query of [GET /api/todos] for the optional parameters of
    [listTodos]: a parameter that is not given is absent from the query,
    [completed] is spelled [true] or [false]. *)
Definition query_userId (userId : option string) : value :=
  match userId with
  | Some u => VStr u
  | None => VUndefined
  end.

Definition query_completed (completed : option bool) : value :=
  match completed with
  | Some true => VStr "true"
  | Some false => VStr "false"
  | None => VUndefined
  end.

(** The todos [listTodos] is asked for: those of the user, when one is
    given, with the completion, when one is given. *)
Definition wanted (userId : option string) (completed : option bool) (x : Todo.t) : Prop :=
  (∀ u, userId = Some u → Todo.userId x = VStr u) ∧
  (∀ c, completed = Some c → Todo.completed x = VBool c).

Definition wantedb (userId : option string) (completed : option bool) (x : Todo.t) : bool :=
  match userId with
  | Some u => strict_eq (Todo.userId x) (VStr u)
  | None => true
  end &&
  match completed with
  | Some c => strict_eq (Todo.completed x) (VBool c)
  | None => true
  end.

(** The todo after the assignments [updateTodo] makes from the title and
    the [completed] of the payload. *)
Definition retitled (b : todo_body) (x : Todo.t) : Todo.t :=
  Todo.mk (Todo.id x) (Todo.userId x)
          (if defined (b_title b) then b_title b else Todo.title x)
          (if defined (b_completed b) then VBool (truthy (b_completed b))
           else Todo.completed x).

(** What [updateUser] leaves of a user: the fields of the payload
    where it has them, the fields of the user elsewhere. *)
Definition updated_user (b : user_body) (u : User.t) : User.t :=
  User.mk (User.id u)
          (if defined (b_name b) then b_name b else User.name u)
          (if defined (b_email b) then b_email b else User.email u).

(** The pattern [ApiKey <token>] in words: [auth] is a scheme that reads
    [ApiKey] in any case, then at least one space, then a token of at least
    one character, none of them a line terminator. *)
Fixpoint fold_case (s : string) : string :=
  match s with
  | EmptyString => EmptyString
  | String c s' => String (Auth.canonicalize c) (fold_case s')
  end.

Definition is_token (s : string) : Prop :=
  s ≠ "" ∧ Auth.all_chars (λ c, negb (Auth.is_line_terminator c)) s = true.

Definition is_spaces (s : string) : Prop := Auth.all_chars Auth.is_space s = true.

Definition ApiKey_split (auth scheme spaces token : string) : Prop :=
  auth = scheme +:+ spaces +:+ token ∧
  fold_case scheme = fold_case "ApiKey" ∧
  spaces ≠ "" ∧ is_spaces spaces ∧ is_token token.

(** The token the pattern captures: the one after the longest run of
    spaces that leaves a token. *)
Definition ApiKey_token (auth token : string) : Prop :=
  ∃ scheme spaces,
    ApiKey_split auth scheme spaces token ∧
    ∀ scheme' spaces' token',
      ApiKey_split auth scheme' spaces' token' →
      String.length spaces' ≤ String.length spaces.

(** The key a request presents, in the words of the specification: the
    [X-API-Key] header when it is there and not empty, else the token of
    an [Authorization] header of the form [ApiKey <token>]. *)
Definition presents (x_api_key authorization : option string) (key : string) : Prop :=
  (x_api_key = Some key ∧ key ≠ "") ∨
  ((x_api_key = None ∨ x_api_key = Some "") ∧
   ∃ auth, authorization = Some auth ∧ ApiKey_token auth key).

(** The ids held by a store: users first, then todos. *)
Definition array_ids (st : ArrayServer.store) : list string :=
  (User.id <$> ArrayServer.users st) ++ (Todo.id <$> ArrayServer.todos st).

Definition map_ids (st : MapServer.store) : list string :=
  (MapServer.users st).*1 ++ (MapServer.todos st).*1.

(** An id [makeId] has made: the decimal of a number below the counter. *)
Definition issued (nextId : nat) (id : string) : Prop :=
  ∃ n, n < nextId ∧ id = pretty n.

(** The ids of a store are distinct and were all made by [makeId]. *)
Definition array_fresh (st : ArrayServer.store) : Prop :=
  NoDup (array_ids st) ∧ ∀ id, id ∈ array_ids st → issued (ArrayServer.nextId st) id.

Definition map_fresh (st : MapServer.store) : Prop :=
  NoDup (map_ids st) ∧ ∀ id, id ∈ map_ids st → issued (MapServer.nextId st) id.

(** What [updateTodo] leaves of a todo when it answers 200. *)
Definition updated_todo (b : todo_body) (x : Todo.t) : Todo.t :=
  Todo.mk (Todo.id x)
          (if defined (b_userId b) then b_userId b else Todo.userId x)
          (if defined (b_title b) then b_title b else Todo.title x)
          (if defined (b_completed b) then VBool (truthy (b_completed b))
           else Todo.completed x).

(** The requests of a run that were counted under a route key, the sum
    of their durations, and those that ended with a status code. *)
Definition hits (key : string) (reqs : list Metrics.finished) : list Metrics.finished :=
  List.filter (λ r, bool_decide (Metrics.routeKey r = key)) reqs.

Definition total_elapsed (reqs : list Metrics.finished) : spec_float :=
  foldl (λ acc r, Double.add acc (Double.of_Q (Metrics.elapsed r))) (S754_zero false) reqs.

Definition with_status (code : nat) (reqs : list Metrics.finished) : list Metrics.finished :=
  List.filter (λ r, bool_decide (Metrics.statusCode r = code)) reqs.

(** What the metrics hold for a route key after the requests [reqs]. *)
Definition route_stat_spec (key : string) (reqs : list Metrics.finished)
    (found : option Metrics.route_stat) : Prop :=
  match found with
  | None => hits key reqs = []
  | Some v =>
    hits key reqs ≠ [] ∧
    Metrics.count v = length (hits key reqs) ∧
    Metrics.totalMs v = total_elapsed (hits key reqs) ∧
    ∀ code, default 0 (Metrics.statuses v !! code) = length (with_status code (hits key reqs))
  end.

(** The sum of the counts of the route statistics. *)
Definition sum_counts (byRoute : list (string * Metrics.route_stat)) : nat :=
  foldr (λ e acc, Metrics.count e.2 + acc) 0 byRoute.

(** A character of a string. *)
Fixpoint has_char (c : ascii) (s : string) : bool :=
  match s with
  | EmptyString => false
  | String d s' => bool_decide (c = d) || has_char c s'
  end.

(** A value that is a string, and a value that is a string holding the
    query once read in lower case. *)
Definition is_string (v : value) : bool :=
  match v with
  | VStr _ => true
  | _ => false
  end.

Definition holds (toLowerCase : string → string) (q : string) (v : value) : bool :=
  match v with
  | VStr s => Search.includes (toLowerCase s) q
  | _ => false
  end.

(** The users [GET /api/users] is asked for: a name or an email that
    holds the query, both read in lower case. *)
Definition found_by (toLowerCase : string → string) (q : string) (u : User.t) : bool :=
  holds toLowerCase q (User.name u) || holds toLowerCase q (User.email u).

(** A user the filter of [GET /api/users] throws on: a name that is no
    string, or a name without the query and an email that is no string. *)
Definition unreadable (toLowerCase : string → string) (q : string) (u : User.t) : bool :=
  negb (is_string (User.name u)) ||
  negb (holds toLowerCase q (User.name u)) && negb (is_string (User.email u)).

(** A lower-casing of the letters A to Z, for strings that hold no other
    upper-case letter. *)
Definition lower_char (c : ascii) : ascii :=
  if bool_decide (65 ≤ Auth.code c ≤ 90)%nat then ascii_of_nat (Auth.code c + 32) else c.

Fixpoint lower_ascii (s : string) : string :=
  match s with
  | EmptyString => EmptyString
  | String c s' => String (lower_char c) (lower_ascii s')
  end.

(** The [Map] that holds the elements of an array under their ids, in the
    order of the array. *)
Definition keyed {A} (id : A → string) (l : list A) : list (string * A) :=
  (λ x, (id x, x)) <$> l.

(** The stores of the two servers hold the same data: the same counter,
    and [Map]s with the users and todos of the arrays, in their order. *)
Definition same_store (a : ArrayServer.store) (m : MapServer.store) : Prop :=
  MapServer.nextId m = ArrayServer.nextId a ∧
  MapServer.users m = keyed User.id (ArrayServer.users a) ∧
  MapServer.todos m = keyed Todo.id (ArrayServer.todos a).

(** The route keys of a run, each once, in the order they were first
    requested. *)
Definition route_keys (reqs : list Metrics.finished) : list string :=
  reverse (remove_dups (reverse (Metrics.routeKey <$> reqs))).

(** The requests the guard lets through. *)
Definition admitted (env : option string) (h : Routes.credentials) : bool :=
  match Auth.apiKeyRequired env (Routes.x_api_key h) (Routes.authorization h) with
  | Auth.Next => true
  | Auth.Reject _ => false
  end.

(** The operations of the requests the guard lets through. *)
Definition admitted_ops (env : option string) (reqs : list (Routes.credentials * op))
  : list op :=
  (List.filter (λ req, admitted env req.1) reqs).*2.

(** A key that an [Authorization] header can carry: no line break in it,
    and no space at its start. *)
Definition header_safe (key : string) : Prop :=
  Auth.all_chars (λ c, negb (Auth.is_line_terminator c)) key = true ∧
  match key with
  | EmptyString => False
  | String c _ => Auth.is_space c = false
  end.

(** Reading the fields of a store that is written out. *)
Ltac store_fields :=
  cbn [fst snd MapServer.nextId MapServer.users MapServer.todos
       ArrayServer.nextId ArrayServer.users ArrayServer.todos makeId
       User.id Todo.id].

(** * Facts about the metrics *)
Section MetricsFacts.
Import Metrics.

Lemma array_run_snoc s reqs r :
  ArrayMetrics.run s (reqs ++ [r]) = ArrayMetrics.finish (ArrayMetrics.run s reqs) r.
Proof. unfold ArrayMetrics.run. by rewrite foldl_app. Qed.

Lemma ring_run_snoc s reqs r :
  RingMetrics.run s (reqs ++ [r]) = RingMetrics.finish (RingMetrics.run s reqs) r.
Proof. unfold RingMetrics.run. by rewrite foldl_app. Qed.

Lemma tail_drop {A} (l : list A) : tail l = drop 1 l.
Proof. by destruct l. Qed.

(** The array holds the last 100 entries, oldest first. *)
Lemma array_recent s reqs :
  ArrayMetrics.recent (ArrayMetrics.run s reqs)
  = drop (length reqs - 100) (entry_of <$> reqs).
Proof.
  induction reqs as [|r reqs IH] using rev_ind; [done|].
  rewrite array_run_snoc. cbn [ArrayMetrics.finish ArrayMetrics.recent].
  rewrite IH. unfold JSArray.push, JSArray.shift.
  rewrite fmap_app, length_app. cbn [fmap list_fmap length].
  set (es := entry_of <$> reqs).
  assert (Hlen : length es = length reqs) by apply length_fmap.
  rewrite length_app, length_drop, Hlen. cbn [length].
  case_bool_decide as Hc.
  - rewrite tail_drop, drop_app_le by (rewrite length_drop; lia).
    rewrite drop_drop, drop_app_le by lia.
    do 2 f_equal. lia.
  - rewrite !drop_app_le by lia. do 2 f_equal. lia.
Qed.

Lemma array_read {A} (l : list A) :
  reverse (JSArray.slice_last 20 (drop (length l - 100) l)) = take 20 (reverse l).
Proof.
  unfold JSArray.slice_last. rewrite drop_drop, length_drop, take_reverse.
  do 2 f_equal. lia.
Qed.

Lemma slot_eq idx i :
  idx < 100 → i < 100 → RingMetrics.slot idx i = (idx + 99 - i) `mod` 100.
Proof.
  intros Hidx Hi. unfold RingMetrics.slot, RingMetrics.RECENT_SIZE.
  rewrite Z.rem_mod_nonneg by lia.
  apply Nat2Z.inj. rewrite Z2Nat.id by (apply Z.mod_pos_bound; lia).
  rewrite Nat2Z.inj_mod. f_equal. lia.
Qed.

Lemma ring_run_inv s reqs : ring_inv (entry_of <$> reqs) (RingMetrics.run s reqs).
Proof.
  induction reqs as [|r reqs IH] using rev_ind.
  - repeat split; try done.
    intros k Hk. unfold RingMetrics.run, RingMetrics.init, RingMetrics.RECENT_SIZE.
    cbn [foldl RingMetrics.recent RingMetrics.recentIndex fmap list_fmap].
    rewrite slot_eq by lia.
    rewrite reverse_nil, lookup_nil.
    apply lookup_replicate_2. apply Nat.mod_upper_bound. lia.
  - destruct IH as (Hlen & Hidx & Hcnt & Hslots).
    rewrite ring_run_snoc, fmap_app. cbn [fmap list_fmap].
    set (m := RingMetrics.run s reqs) in *.
    set (es := entry_of <$> reqs) in *.
    assert (Hi : RingMetrics.recentIndex m < 100).
    { rewrite Hidx. apply Nat.mod_upper_bound. lia. }
    unfold ring_inv. cbn [RingMetrics.finish RingMetrics.recent RingMetrics.recentIndex
                          RingMetrics.recentCount].
    unfold RingMetrics.assign, RingMetrics.RECENT_SIZE.
    rewrite bool_decide_eq_true_2 by lia.
    rewrite length_insert, length_app. cbn [length].
    repeat split.
    + done.
    + rewrite Hidx. by rewrite Nat.Div0.add_mod_idemp_l.
    + rewrite Hcnt. case_bool_decide; lia.
    + intros k Hk. rewrite reverse_snoc.
      assert (Hi' : (RingMetrics.recentIndex m + 1) `mod` 100 < 100)
        by (apply Nat.mod_upper_bound; lia).
      destruct k as [|k]; cbn [lookup list_lookup].
      * replace (RingMetrics.slot _ 0) with (RingMetrics.recentIndex m).
        { by rewrite list_lookup_insert_eq by lia. }
        rewrite slot_eq by lia.
        rewrite Nat.sub_0_r, Nat.Div0.add_mod_idemp_l.
        replace (RingMetrics.recentIndex m + 1 + 99)
          with (RingMetrics.recentIndex m + 1 * 100) by lia.
        rewrite Nat.Div0.mod_add. by rewrite Nat.mod_small.
      * assert (Hs : RingMetrics.slot ((RingMetrics.recentIndex m + 1) `mod` 100) (S k)
                     = RingMetrics.slot (RingMetrics.recentIndex m) k).
        { rewrite !slot_eq by lia.
          replace ((RingMetrics.recentIndex m + 1) `mod` 100 + 99 - S k)
            with ((RingMetrics.recentIndex m + 1) `mod` 100 + (98 - k)) by lia.
          rewrite Nat.Div0.add_mod_idemp_l. f_equal. lia. }
        rewrite Hs, list_lookup_insert_ne; [apply Hslots; lia|].
        rewrite slot_eq by lia.
        intros Heq.
        pose proof (Nat.div_mod_eq (RingMetrics.recentIndex m + 99 - k) 100).
        pose proof (Nat.mod_upper_bound (RingMetrics.recentIndex m + 99 - k) 100).
        lia.
Qed.

(** The read-out of the circular buffer: the 20 most recent, newest first. *)
Lemma ring_read s reqs :
  RingMetrics.read_recent (RingMetrics.run s reqs) = take 20 (reverse (entry_of <$> reqs)).
Proof.
  destruct (ring_run_inv s reqs) as (Hlen & Hidx & Hcnt & Hslots).
  set (m := RingMetrics.run s reqs) in *.
  set (es := entry_of <$> reqs) in *.
  unfold RingMetrics.read_recent, RingMetrics.RECENT_SIZE. rewrite Hcnt.
  replace (20 `min` ((length es `min` 100) `min` 100)) with (20 `min` length es) by lia.
  assert (Hgen : ∀ n : nat, n ≤ 20 → n ≤ length es →
    omap (λ i, mjoin (RingMetrics.recent m !! RingMetrics.slot (RingMetrics.recentIndex m) i))
         (seq 0 n)
    = take n (reverse es)).
  { induction n as [|n IHn]; intros H20 Hn; [done|].
    rewrite seq_S, omap_app, IHn by lia. cbn.
    rewrite Hslots by lia. cbn.
    destruct (reverse es !! n) as [e|] eqn:He.
    - cbn. by rewrite (take_S_r _ _ e).
    - apply lookup_ge_None in He. rewrite length_reverse in He. lia. }
  destruct (decide (20 ≤ length es)).
  - rewrite Nat.min_l by lia. apply Hgen; lia.
  - rewrite Nat.min_r by lia. rewrite Hgen by lia.
    rewrite !take_ge; rewrite ?length_reverse; [done|lia..].
Qed.

Lemma omap_id_insert {A} (l : list (option A)) i x y :
  l !! i = Some x →
  omap id l = omap id (take i l) ++ option_list x ++ omap id (drop (S i) l) ∧
  omap id (<[i := Some y]> l) = omap id (take i l) ++ [y] ++ omap id (drop (S i) l).
Proof.
  intros Hi. split.
  - rewrite <- (take_drop_middle l i x Hi) at 1.
    rewrite omap_app. cbn. by destruct x.
  - rewrite insert_take_drop by (by eapply lookup_lt_Some).
    by rewrite omap_app.
Qed.

(** The circular buffer holds the last 100 entries. *)
Lemma ring_held s reqs :
  held (RingMetrics.run s reqs) ≡ₚ drop (length reqs - 100) (entry_of <$> reqs).
Proof.
  induction reqs as [|r reqs IH] using rev_ind.
  - by vm_compute.
  - destruct (ring_run_inv s reqs) as (Hlen & Hidx & Hcnt & Hslots).
    rewrite ring_run_snoc, fmap_app, length_app. cbn [fmap list_fmap length].
    set (m := RingMetrics.run s reqs) in *.
    set (es := entry_of <$> reqs) in *.
    assert (Hn : length es = length reqs) by apply length_fmap.
    assert (Hi : RingMetrics.recentIndex m < 100).
    { rewrite Hidx. apply Nat.mod_upper_bound. lia. }
    unfold held in *. cbn [RingMetrics.finish RingMetrics.recent].
    unfold RingMetrics.assign. rewrite bool_decide_eq_true_2 by lia.
    pose proof (Hslots 99 ltac:(lia)) as Hold.
    rewrite slot_eq in Hold by lia.
    replace (RingMetrics.recentIndex m + 99 - 99) with (RingMetrics.recentIndex m) in Hold by lia.
    rewrite Nat.mod_small in Hold by lia.
    destruct (omap_id_insert _ _ _ (entry_of r) Hold) as [Hbefore Hafter].
    rewrite Hafter. rewrite Hbefore in IH. clear Hbefore Hafter.
    rewrite drop_app_le by lia.
    destruct (reverse es !! 99) as [o|] eqn:Ho.
    + apply reverse_lookup_Some in Ho as [Ho Hlt].
      rewrite (drop_S _ o (length reqs - 100)) in IH by (rewrite <- Ho; f_equal; lia).
      cbn in IH. symmetry in IH. apply Permutation_cons_app_inv in IH.
      replace (length reqs + 1 - 100) with (S (length reqs - 100)) by lia.
      rewrite IH, <- app_assoc.
      apply Permutation_app_head, Permutation_app_comm.
    + apply lookup_ge_None in Ho. rewrite length_reverse in Ho.
      cbn in IH.
      replace (length reqs + 1 - 100) with 0 by lia.
      replace (length reqs - 100) with 0 in IH by lia.
      cbn [drop] in *.
      rewrite <- IH, <- app_assoc.
      apply Permutation_app_head, Permutation_app_comm.
Qed.

(** Both servers keep the same counters and route statistics. *)
Lemma run_same_routes s reqs :
  ArrayMetrics.startedAt (ArrayMetrics.run s reqs) = RingMetrics.startedAt (RingMetrics.run s reqs) ∧
  ArrayMetrics.totalRequests (ArrayMetrics.run s reqs)
    = RingMetrics.totalRequests (RingMetrics.run s reqs) ∧
  ArrayMetrics.byRoute (ArrayMetrics.run s reqs) = RingMetrics.byRoute (RingMetrics.run s reqs).
Proof.
  induction reqs as [|r reqs (IH1 & IH2 & IH3)] using rev_ind; [done|].
  rewrite array_run_snoc, ring_run_snoc. cbn. by rewrite IH1, IH2, IH3.
Qed.

(** *** Sorting the routes *)

Lemma insert_sorted_perm {A} (cmp : A → A → Z) x l : insert_sorted cmp x l ≡ₚ x :: l.
Proof.
  induction l as [|y l IH]; cbn; [done|].
  destruct (cmp x y <=? 0)%Z; [done|].
  rewrite IH. apply perm_swap.
Qed.

Lemma sort_perm {A} (cmp : A → A → Z) l : sort cmp l ≡ₚ l.
Proof.
  induction l as [|x l IH]; cbn; [done|].
  fold (sort cmp l). by rewrite insert_sorted_perm, IH.
Qed.

Lemma insert_sorted_by_count x l :
  StronglySorted count_desc l → StronglySorted count_desc (insert_sorted by_count_desc x l).
Proof.
  induction 1 as [|y l Hl IH Hy]; cbn.
  - repeat constructor.
  - destruct (by_count_desc x y <=? 0)%Z eqn:Hc.
    + apply Z.leb_le in Hc. unfold by_count_desc in Hc.
      constructor; [by constructor|].
      constructor; [unfold count_desc; lia|].
      eapply Forall_impl; [exact Hy|]. unfold count_desc. intros; lia.
    + apply Z.leb_gt in Hc. unfold by_count_desc in Hc.
      constructor; [done|].
      rewrite insert_sorted_perm. constructor; [unfold count_desc; lia|done].
Qed.

Lemma sort_by_count l : StronglySorted count_desc (sort by_count_desc l).
Proof.
  induction l as [|x l IH]; cbn; [constructor|].
  by apply insert_sorted_by_count.
Qed.

(** *** Rounding *)

Lemma toFixed1_rounded x : rounded1 x (toFixed1 x).
Proof.
  unfold toFixed1, rounded1.
  destruct (Qle_bool 0 x) eqn:Hpos.
  - set (y := (x * 10 + (1 # 2))%Q).
    exists (Qfloor y). split; [reflexivity|].
    pose proof (Qfloor_le y) as Hlo. pose proof (Qlt_floor y) as Hhi.
    rewrite inject_Z_plus in Hhi. change (inject_Z 1) with 1%Q in Hhi.
    apply Qabs_Qle_condition.
    set (f := inject_Z (Qfloor y)) in *. clearbody f. unfold y in Hlo, Hhi.
    assert (Hdiv : (f / 10 == f * (1 # 10))%Q) by field.
    rewrite Hdiv. split; lra.
  - set (y := (- x * 10 + (1 # 2))%Q).
    exists (- Qfloor y)%Z. split.
    { rewrite inject_Z_opp. field. }
    pose proof (Qfloor_le y) as Hlo. pose proof (Qlt_floor y) as Hhi.
    rewrite inject_Z_plus in Hhi. change (inject_Z 1) with 1%Q in Hhi.
    apply Qabs_Qle_condition.
    set (f := inject_Z (Qfloor y)) in *. clearbody f. unfold y in Hlo, Hhi.
    assert (Hdiv : (f / 10 == f * (1 # 10))%Q) by field.
    rewrite Hdiv. split; lra.
Qed.

Lemma toFixed1_tenths x :
  ∃ n : Z, toFixed1 x = (inject_Z n / 10)%Q ∧ (Qabs (inject_Z n / 10 - x) <= 1 # 20)%Q.
Proof.
  destruct (toFixed1_rounded x) as (_ & _ & Hclose).
  assert (Hn : ∃ n : Z, toFixed1 x = (inject_Z n / 10)%Q).
  { unfold toFixed1. destruct (Qle_bool 0 x).
    - by eexists.
    - exists (- Qfloor (- x * 10 + (1 # 2)))%Z.
      unfold Qdiv, Qmult, Qinv, Qopp, inject_Z. cbn. f_equal. lia. }
  destruct Hn as (n & Hn). exists n. split; [done|]. by rewrite <- Hn.
Qed.

Lemma toFixed1_number_rounded x : rounded1_double x (toFixed1_number x).
Proof.
  unfold rounded1_double, toFixed1_number.
  destruct (Double.to_Q x) as [q|]; [|done].
  destruct (toFixed1_tenths q) as (n & Hn & Hclose).
  exists n. split; [done|]. by rewrite Hn.
Qed.

(** *** Route statistics *)

Lemma elem_of_assign_route key v byRoute e :
  e ∈ assign_route key v byRoute → e = (key, v) ∨ e ∈ byRoute.
Proof.
  induction byRoute as [|[k v'] l IH]; cbn.
  - intros ->%list_elem_of_singleton. by left.
  - case_bool_decide as Hk.
    + subst k. intros [->|He]%elem_of_cons; [by left|].
      right. by right.
    + intros [->|He]%elem_of_cons; [right; by left|].
      destruct (IH He) as [->|]; [by left|]. right. by right.
Qed.

Lemma lookup_assign_route key v byRoute :
  lookup_route key (assign_route key v byRoute) = Some v.
Proof.
  induction byRoute as [|[k v'] l IH]; cbn.
  - by rewrite bool_decide_eq_true_2.
  - case_bool_decide as Hk; cbn.
    + by rewrite bool_decide_eq_true_2.
    + by rewrite bool_decide_eq_false_2.
Qed.

Lemma assign_route_twice key v1 v2 byRoute :
  assign_route key v2 (assign_route key v1 byRoute) = assign_route key v2 byRoute.
Proof.
  induction byRoute as [|[k v'] l IH]; cbn.
  - by rewrite bool_decide_eq_true_2.
  - case_bool_decide as Hk; cbn.
    + by rewrite bool_decide_eq_true_2.
    + by rewrite bool_decide_eq_false_2, IH.
Qed.

Lemma lookup_route_Some key byRoute v :
  lookup_route key byRoute = Some v → (key, v) ∈ byRoute.
Proof.
  induction byRoute as [|[k v'] l IH]; cbn; [done|].
  case_bool_decide as Hk.
  - intros [= ->]. subst. by left.
  - intros. right. by apply IH.
Qed.

Lemma record_route_counted key code ms byRoute :
  counted byRoute → counted (record_route key code ms byRoute).
Proof.
  intros Hc e. unfold record_route.
  destruct (lookup_route key byRoute) as [v|] eqn:Hv.
  - rewrite Hv. intros [->|He]%elem_of_assign_route; [cbn; lia|by apply Hc].
  - rewrite lookup_assign_route, assign_route_twice.
    intros [->|He]%elem_of_assign_route; [cbn; lia|by apply Hc].
Qed.

Lemma array_run_counted s reqs : counted (ArrayMetrics.byRoute (ArrayMetrics.run s reqs)).
Proof.
  induction reqs as [|r reqs IH] using rev_ind.
  - intros e He. by apply elem_of_nil in He.
  - rewrite array_run_snoc. by apply record_route_counted.
Qed.

(** The rows of a snapshot, for route statistics observed at least once. *)
Lemma routes_of_spec byRoute : counted byRoute → routes_spec byRoute (routes_of byRoute).
Proof.
  intros Hc. unfold routes_of. split; [apply sort_by_count|].
  split; [apply sort_perm|].
  intros row Hrow. rewrite sort_perm in Hrow.
  apply list_elem_of_fmap in Hrow as ([k v] & -> & He).
  exists v. pose proof (Hc _ He) as Hv. cbn in Hv.
  unfold row_of. cbn [fst snd r_route r_count avgMs r_statuses].
  rewrite bool_decide_eq_false_2 by lia.
  split; [done|]. split; [done|]. split; [done|]. split; [done|].
  split; [done|]. apply toFixed1_number_rounded.
Qed.

End MetricsFacts.

(** * Facts about the entity store *)
Section ValueFacts.

Lemma strict_eq_str_l s v : strict_eq (VStr s) v = true ↔ v = VStr s.
Proof.
  destruct v; cbn; try (split; [done|intros [=]]).
  rewrite bool_decide_eq_true. split; [by intros ->|by intros [= ->]].
Qed.

Lemma strict_eq_str_r s v : strict_eq v (VStr s) = true ↔ v = VStr s.
Proof.
  destruct v; cbn; try (split; [done|intros [=]]).
  rewrite bool_decide_eq_true. split; [by intros ->|by intros [= ->]].
Qed.

Lemma strict_eq_bool_r b v : strict_eq v (VBool b) = true ↔ v = VBool b.
Proof.
  destruct v; cbn; try (split; [done|intros [=]]).
  rewrite bool_decide_eq_true. split; [by intros ->|by intros [= ->]].
Qed.

Lemma truthy_defined v : truthy v = true → defined v = true.
Proof. by destruct v. Qed.

End ValueFacts.

Section ArrayFacts.
Import JSArray.
Context {A : Type}.
Implicit Types (p q : A → bool) (f : A → A) (l : list A).

Lemma find_Some p l x : find p l = Some x → x ∈ l ∧ p x = true.
Proof.
  induction l as [|y l IH]; cbn; [done|].
  destruct (p y) eqn:Hy.
  - intros [= ->]. split; [by left|done].
  - intros [? ?]%IH. split; [by right|done].
Qed.

Lemma find_None p l : find p l = None ↔ ∀ x, x ∈ l → p x = false.
Proof.
  induction l as [|y l IH]; cbn.
  - split; [|done]. intros _ x Hx. by apply elem_of_nil in Hx.
  - destruct (p y) eqn:Hy.
    + split; [done|]. intros H. specialize (H y ltac:(by left)). congruence.
    + rewrite IH. split.
      * intros H x [->|Hx]%elem_of_cons; [done|by apply H].
      * intros H x Hx. apply H. by right.
Qed.

Lemma findIndex_Some p l i :
  findIndex p l = Some i → ∃ x, l !! i = Some x ∧ p x = true ∧ find p l = Some x.
Proof.
  revert i. induction l as [|y l IH]; intros i; cbn; [done|].
  destruct (p y) eqn:Hy.
  - intros [= <-]. by exists y.
  - destruct (findIndex p l) as [j|]; [|done].
    intros [= <-]. destruct (IH j eq_refl) as (x & ? & ? & ?). by exists x.
Qed.

Lemma findIndex_None p l : findIndex p l = None → find p l = None.
Proof.
  induction l as [|y l IH]; cbn; [done|].
  destruct (p y); [done|].
  destruct (findIndex p l); [done|]. intros _. by apply IH.
Qed.

Lemma elem_of_mutate_found p f l y :
  y ∈ mutate_found p f l → y ∈ l ∨ ∃ x, find p l = Some x ∧ y = f x.
Proof.
  induction l as [|x l IH]; cbn; [by left|].
  destruct (p x) eqn:Hx.
  - intros [->|Hy]%elem_of_cons; [right; by exists x|left; by right].
  - intros [->|Hy]%elem_of_cons; [left; by left|].
    destruct (IH Hy) as [?|?]; [left; by right|by right].
Qed.

Lemma mutate_found_fmap {B} (g : A → B) p f l :
  (∀ x, find p l = Some x → g (f x) = g x) →
  g <$> mutate_found p f l = g <$> l.
Proof.
  induction l as [|x l IH]; cbn; [done|].
  destruct (p x) eqn:Hx; cbn; intros H.
  - by rewrite H.
  - by rewrite IH.
Qed.

Lemma find_mutate_found p f l x :
  find p l = Some x → p (f x) = true → find p (mutate_found p f l) = Some (f x).
Proof.
  induction l as [|y l IH]; cbn; [done|].
  destruct (p y) eqn:Hy; cbn.
  - intros [= ->] Hf. by rewrite Hf.
  - intros ? ?. rewrite Hy. by apply IH.
Qed.

Lemma find_mutate_found_other p q f l :
  (∀ x, find p l = Some x → q x = false ∧ q (f x) = false) →
  find q (mutate_found p f l) = find q l.
Proof.
  induction l as [|y l IH]; cbn; [done|].
  destruct (p y) eqn:Hy; cbn; intros H.
  - destruct (H y eq_refl) as [-> ->]. done.
  - destruct (q y); [done|]. by apply IH.
Qed.

Lemma elem_of_bfilter p l x : x ∈ List.filter p l ↔ x ∈ l ∧ p x = true.
Proof. by rewrite !list_elem_of_In, filter_In. Qed.

Lemma bfilter_twice p q l :
  List.filter p (List.filter q l) = List.filter (λ e, q e && p e) l.
Proof.
  induction l as [|e l IH]; cbn; [done|].
  destruct (q e); cbn; [|done]. destruct (p e); by rewrite IH.
Qed.

Lemma bfilter_true l : List.filter (λ _, true) l = l.
Proof. induction l as [|e l IH]; cbn; [done|by rewrite IH]. Qed.

Lemma elem_of_splice1 l i x : x ∈ splice1 i l → x ∈ l.
Proof.
  intros Hx. eapply elem_of_sublist; [exact Hx|]. apply sublist_delete.
Qed.

Lemma elem_of_splice1_other l i x r :
  l !! i = Some r → x ∈ l → x ≠ r → x ∈ splice1 i l.
Proof.
  intros Hi Hx Hne. unfold splice1. rewrite delete_take_drop.
  rewrite <- (take_drop_middle l i r Hi) in Hx.
  apply elem_of_app in Hx as [Hx|Hx]; [apply elem_of_app; by left|].
  apply elem_of_cons in Hx as [->|Hx]; [done|]. apply elem_of_app. by right.
Qed.

End ArrayFacts.

Section ArrayServerFacts.
Import JSArray ArrayServer.

(** The loop of the cascade leaves the todos of the other users, in order. *)
Lemma cascade_filter removed n (l : list Todo.t) :
  n ≤ length l →
  cascade removed n l = List.filter (not_of removed) (take n l) ++ drop n l.
Proof.
  revert l. induction n as [|n IH]; intros l Hn; cbn [cascade].
  - by rewrite take_0, drop_0.
  - destruct (lookup_lt_is_Some_2 l n ltac:(lia)) as [x Hx]. rewrite Hx.
    rewrite (take_S_r _ _ _ Hx), List.filter_app. cbn [List.filter].
    unfold not_of at 2.
    destruct (strict_eq (Todo.userId x) (VStr removed)) eqn:Heq; cbn [negb].
    + unfold splice1. rewrite IH by (rewrite length_delete; [lia|eauto]).
      rewrite delete_take_drop, take_app_le by (rewrite length_take; lia).
      rewrite take_take, Nat.min_id, app_nil_r.
      rewrite drop_app_length' by (rewrite length_take; lia). done.
    + rewrite IH by lia. rewrite <- app_assoc. cbn.
      by rewrite (drop_S _ _ _ Hx).
Qed.

Lemma cascade_all removed (l : list Todo.t) :
  cascade removed (length l) l = List.filter (not_of removed) l.
Proof. by rewrite cascade_filter, firstn_all, drop_all, app_nil_r. Qed.

Lemma deleteUser_found id st u :
  find (user_is id) (users st) = Some u →
  ∃ idx, users st !! idx = Some u ∧
    deleteUser id st
    = (Store (nextId st) (splice1 idx (users st)) (List.filter (not_of id) (todos st)),
       Response 200 BOk).
Proof.
  intros Hu. unfold deleteUser.
  destruct (findIndex (user_is id) (users st)) as [idx|] eqn:Hidx.
  - destruct (findIndex_Some _ _ _ Hidx) as (x & Hx & Hp & Hf).
    assert (x = u) as -> by congruence.
    exists idx. split; [done|]. rewrite Hx.
    apply bool_decide_eq_true in Hp. by rewrite cascade_all, Hp.
  - apply findIndex_None in Hidx. congruence.
Qed.

Lemma deleteUser_missing id st :
  find (user_is id) (users st) = None → deleteUser id st = (st, fail 404 "user not found").
Proof.
  intros Hu. unfold deleteUser.
  destruct (findIndex (user_is id) (users st)) as [idx|] eqn:Hidx; [|done].
  destruct (findIndex_Some _ _ _ Hidx) as (x & Hx & Hp & Hf). congruence.
Qed.

Lemma user_has_eq v u : user_has v u = true ↔ v = VStr (User.id u).
Proof. apply strict_eq_str_l. Qed.

Lemma array_step_integrity st o : array_integrity st → array_integrity (step st o).1.
Proof.
  intros Hst. unfold array_integrity in *. destruct o as [b|id b|id|b|id b|id]; cbn [step].
  - unfold createUser. destruct (_ || _); [done|]. cbn.
    intros x Hx. destruct (Hst x Hx) as (u & Hu & Hxu).
    exists u. split; [|done]. apply elem_of_app. by left.
  - unfold updateUser.
    destruct (find (user_is id) (users st)) as [user|] eqn:Hf; [|done]. cbn.
    intros x Hx. destruct (Hst x Hx) as (u & Hu & Hxu).
    set (user' := if defined (b_email b) then _ else _).
    assert (Hids : User.id <$> mutate_found (user_is id) (λ _, user') (users st)
                   = User.id <$> users st).
    { apply mutate_found_fmap. intros y Hy.
      assert (y = user) as -> by congruence.
      unfold user'. by destruct (defined (b_email b)), (defined (b_name b)). }
    assert (Hin : User.id u ∈ User.id <$> users st) by (apply list_elem_of_fmap; eauto).
    rewrite <- Hids in Hin. apply list_elem_of_fmap in Hin as (u' & Hid & Hu').
    exists u'. split; [done|]. by rewrite <- Hid.
  - destruct (find (user_is id) (users st)) as [r|] eqn:Hf.
    + destruct (deleteUser_found _ _ _ Hf) as (idx & Hidx & ->). cbn.
      intros x [Hx Hnot]%elem_of_bfilter.
      destruct (Hst x Hx) as (u & Hu & Hxu).
      exists u. split; [|done].
      eapply elem_of_splice1_other; [exact Hidx|done|].
      intros ->. apply find_Some in Hf as [_ Hid%bool_decide_eq_true].
      unfold not_of in Hnot. rewrite Hxu, Hid in Hnot.
      apply negb_true_iff in Hnot.
      assert (strict_eq (VStr id) (VStr id) = true) by (by apply strict_eq_str_l).
      congruence.
    + by rewrite deleteUser_missing.
  - unfold createTodo. destruct (_ || _); [done|].
    destruct (find (user_has (b_userId b)) (users st)) as [u|] eqn:Hf; [|done]. cbn.
    apply find_Some in Hf as [Hu Hid%user_has_eq].
    intros x [Hx| ->%list_elem_of_singleton]%elem_of_app; [by apply Hst|].
    by exists u.
  - unfold updateTodo.
    destruct (find (todo_is id) (todos st)) as [todo|] eqn:Hf; [|done].
    apply find_Some in Hf as [Htodo _].
    destruct (Hst _ Htodo) as (u0 & Hu0 & Hxu0).
    set (todo' := if defined (b_completed b) then _ else _).
    assert (Hsame : Todo.userId todo' = Todo.userId todo).
    { unfold todo'. by destruct (defined (b_completed b)), (defined (b_title b)). }
    destruct (defined (b_userId b)).
    + destruct (find (user_has (b_userId b)) (users st)) as [u|] eqn:Hu; cbn.
      * apply find_Some in Hu as [Hu Hid%user_has_eq].
        intros x [Hx|(? & _ & ->)]%elem_of_mutate_found; [by apply Hst|].
        by exists u.
      * intros x [Hx|(? & _ & ->)]%elem_of_mutate_found; [by apply Hst|].
        exists u0. by rewrite Hsame.
    + cbn. intros x [Hx|(? & _ & ->)]%elem_of_mutate_found; [by apply Hst|].
      exists u0. by rewrite Hsame.
  - unfold deleteTodo. destruct (findIndex (todo_is id) (todos st)); [|done]. cbn.
    intros x Hx%elem_of_splice1. by apply Hst.
Qed.

Lemma array_step_booleans st o : array_booleans st → array_booleans (step st o).1.
Proof.
  intros Hst. unfold array_booleans in *. destruct o as [b|id b|id|b|id b|id]; cbn [step].
  - unfold createUser. by destruct (_ || _).
  - unfold updateUser. by destruct (find (user_is id) (users st)).
  - destruct (find (user_is id) (users st)) as [r|] eqn:Hf.
    + destruct (deleteUser_found _ _ _ Hf) as (idx & Hidx & ->). cbn.
      intros x [Hx _]%elem_of_bfilter. by apply Hst.
    + by rewrite deleteUser_missing.
  - unfold createTodo. destruct (_ || _); [done|].
    destruct (find (user_has (b_userId b)) (users st)); [|done]. cbn.
    intros x [Hx| ->%list_elem_of_singleton]%elem_of_app; [by apply Hst|].
    by eexists.
  - unfold updateTodo.
    destruct (find (todo_is id) (todos st)) as [todo|] eqn:Hf; [|done].
    apply find_Some in Hf as [Htodo _].
    set (todo' := if defined (b_completed b) then _ else _).
    assert (Hb : is_boolean (Todo.completed todo')).
    { unfold todo'. destruct (defined (b_completed b)); [by eexists|].
      destruct (defined (b_title b)); cbn; by apply Hst. }
    destruct (defined (b_userId b)); [destruct (find _ (users st))|]; cbn;
      (intros x [Hx|(? & _ & ->)]%elem_of_mutate_found; [by apply Hst|exact Hb]).
  - unfold deleteTodo. destruct (findIndex (todo_is id) (todos st)); [|done]. cbn.
    intros x Hx%elem_of_splice1. by apply Hst.
Qed.

Lemma array_run_snoc_op ops o : run (ops ++ [o]) = (step (run ops) o).1.
Proof. unfold run. by rewrite foldl_app. Qed.

Lemma array_run_integrity ops : array_integrity (run ops).
Proof.
  induction ops as [|o ops IH] using rev_ind.
  - intros x Hx. vm_compute in Hx.
    repeat (apply elem_of_cons in Hx as [->|Hx]); [..|by apply elem_of_nil in Hx].
    + exists (User.mk "1" (VStr "Alice") (VStr "alice@example.com")).
      split; [vm_compute; apply list_elem_of_here|reflexivity].
    + exists (User.mk "1" (VStr "Alice") (VStr "alice@example.com")).
      split; [vm_compute; apply list_elem_of_here|reflexivity].
    + exists (User.mk "2" (VStr "Bob") (VStr "bob@example.com")).
      split; [vm_compute; apply list_elem_of_further, list_elem_of_here|reflexivity].
  - rewrite array_run_snoc_op. by apply array_step_integrity.
Qed.

Lemma array_run_booleans ops : array_booleans (run ops).
Proof.
  induction ops as [|o ops IH] using rev_ind.
  - intros x Hx. vm_compute in Hx.
    repeat (apply elem_of_cons in Hx as [->|Hx]); [..|by apply elem_of_nil in Hx];
      by eexists.
  - rewrite array_run_snoc_op. by apply array_step_booleans.
Qed.

Lemma updated_user_eq b u :
  (if defined (b_email b)
   then User.set_email (b_email b)
          (if defined (b_name b) then User.set_name (b_name b) u else u)
   else if defined (b_name b) then User.set_name (b_name b) u else u)
  = updated_user b u.
Proof. unfold updated_user. by destruct u, (defined (b_email b)), (defined (b_name b)). Qed.

Lemma array_updateUser st id b u :
  find (user_is id) (users st) = Some u →
  let st' := (updateUser id b st).1 in
  (updateUser id b st).2 = Response 200 (BUser (updated_user b u)) ∧
  find (user_is id) (users st') = Some (updated_user b u) ∧
  (∀ id', id' ≠ id → find (user_is id') (users st') = find (user_is id') (users st)) ∧
  User.id <$> users st' = User.id <$> users st ∧
  todos st' = todos st ∧ nextId st' = nextId st.
Proof.
  intros Hu. unfold updateUser. rewrite Hu, updated_user_eq. cbn.
  pose proof (find_Some _ _ _ Hu) as [_ Hid%bool_decide_eq_true].
  split; [done|]. split; [|split; [|split]]; try done.
  - apply (find_mutate_found _ (λ _, updated_user b u) _ u Hu).
    by apply bool_decide_eq_true.
  - intros id' Hne. apply find_mutate_found_other. intros y Hy.
    assert (y = u) as -> by congruence.
    unfold user_is. cbn. rewrite Hid. by rewrite !bool_decide_eq_false_2.
  - apply mutate_found_fmap. intros y Hy. by assert (y = u) as -> by congruence.
Qed.

Lemma array_createUser_empty st b :
  b_name b = VStr "" ∨ b_email b = VStr "" →
  createUser b st = (st, fail 400 "name and email are required").
Proof.
  intros H. unfold createUser.
  destruct H as [-> | ->]; cbn; [done|]. by rewrite orb_true_r.
Qed.

Lemma array_createTodo_falsy st b :
  truthy (b_userId b) = false ∨ truthy (b_title b) = false →
  createTodo b st = (st, fail 400 "userId and title are required").
Proof.
  intros H. unfold createTodo.
  destruct H as [-> | ->]; cbn; [done|]. by rewrite orb_true_r.
Qed.

Lemma array_createTodo_unknown st b :
  truthy (b_userId b) = true → truthy (b_title b) = true →
  (∀ u, u ∈ users st → b_userId b ≠ VStr (User.id u)) →
  createTodo b st = (st, fail 400 "invalid userId").
Proof.
  intros Hu Ht Hno. unfold createTodo. rewrite Hu, Ht. cbn.
  destruct (find (user_has (b_userId b)) (users st)) as [u|] eqn:Hf; [|done].
  apply find_Some in Hf as [Hin Heq%user_has_eq]. by destruct (Hno u Hin).
Qed.

Lemma truthy_default c : truthy (if defined c then c else VBool false) = truthy c.
Proof. by destruct c. Qed.

Lemma array_createTodo_created st b st' x :
  createTodo b st = (st', Response 201 (BTodo x)) →
  x = Todo.mk (pretty (nextId st)) (b_userId b) (b_title b) (VBool (truthy (b_completed b))) ∧
  todos st' = todos st ++ [x] ∧ users st' = users st.
Proof.
  unfold createTodo. destruct (_ || _); [done|].
  destruct (find (user_has (b_userId b)) (users st)); [|done].
  cbn. rewrite truthy_default. by intros [= <- <-].
Qed.

Lemma array_updateTodo_completed st id b x :
  find (todo_is id) (todos st) = Some x → defined (b_completed b) = true →
  ∃ x', find (todo_is id) (todos (updateTodo id b st).1) = Some x' ∧
        Todo.completed x' = VBool (truthy (b_completed b)).
Proof.
  intros Hx Hc. unfold updateTodo. rewrite Hx, Hc.
  pose proof (find_Some _ _ _ Hx) as [_ Hid].
  set (todo' := Todo.set_completed _ _).
  assert (Hid' : todo_is id todo' = true).
  { unfold todo'. by destruct (defined (b_title b)). }
  destruct (defined (b_userId b)); [destruct (find _ (users st))|]; cbn;
    eexists; (split; [by apply (find_mutate_found _ (λ _, _) _ x Hx)|]);
    unfold todo'; done.
Qed.

Lemma wantedb_spec userId completed x :
  wantedb userId completed x = true ↔ wanted userId completed x.
Proof.
  unfold wantedb, wanted. rewrite andb_true_iff.
  destruct userId as [u|], completed as [c|];
    rewrite ?strict_eq_str_r, ?strict_eq_bool_r;
    (split; [intros [H1 H2]; split; intros ? [= <-]; done
            |intros [H1 H2]; split; first [done|by apply H1|by apply H2]]).
Qed.

(** The two filters of [GET /api/todos], on the list they are given. *)
Lemma filter_query (l : list Todo.t) userId completed :
  (∀ u, userId = Some u → u ≠ "") →
  (let list := l in
   let list :=
     if truthy (query_userId userId)
     then List.filter (λ x, strict_eq (Todo.userId x) (query_userId userId)) list
     else list in
   if defined (query_completed completed) then
     if strict_eq (query_completed completed) (VStr "true")
     then List.filter (λ x, strict_eq (Todo.completed x) (VBool true)) list
     else if strict_eq (query_completed completed) (VStr "false")
     then List.filter (λ x, strict_eq (Todo.completed x) (VBool false)) list
     else list
   else list)
  = List.filter (wantedb userId completed) l.
Proof.
  intros Hne. unfold wantedb. destruct userId as [u|]; cbn [query_userId truthy].
  - rewrite bool_decide_eq_false_2 by (by apply Hne). cbn [negb].
    destruct completed as [[|]|]; cbn;
      repeat first [rewrite bool_decide_eq_true_2 by done
                   |rewrite bool_decide_eq_false_2 by done].
    + by rewrite bfilter_twice.
    + by rewrite bfilter_twice.
    + apply filter_ext. intros x. by rewrite andb_true_r.
  - destruct completed as [[|]|]; cbn;
      repeat first [rewrite bool_decide_eq_true_2 by done
                   |rewrite bool_decide_eq_false_2 by done];
      [done|done|by rewrite bfilter_true].
Qed.

Lemma array_listTodos st userId completed :
  (∀ u, userId = Some u → u ≠ "") →
  listTodos (query_userId userId) (query_completed completed) st
  = Response 200 (BTodos (List.filter (wantedb userId completed) (todos st))).
Proof. intros Hne. unfold listTodos. by rewrite <- filter_query. Qed.

Lemma array_deleteUser st id :
  deleteUser id st = (st, fail 404 "user not found") ∨
  (deleteUser id st).2 = Response 200 BOk ∧
  todos (deleteUser id st).1 = List.filter (not_of id) (todos st) ∧
  length (users (deleteUser id st).1) < length (users st).
Proof.
  destruct (find (user_is id) (users st)) as [u|] eqn:Hu.
  - right. destruct (deleteUser_found _ _ _ Hu) as (idx & Hidx & ->). cbn.
    split; [done|]. split; [done|]. unfold splice1.
    apply lookup_lt_Some in Hidx as Hlt. rewrite length_delete by eauto. lia.
  - left. by apply deleteUser_missing.
Qed.

Lemma retitled_eq b x :
  (if defined (b_completed b)
   then Todo.set_completed (VBool (truthy (b_completed b)))
          (if defined (b_title b) then Todo.set_title (b_title b) x else x)
   else if defined (b_title b) then Todo.set_title (b_title b) x else x)
  = retitled b x.
Proof. unfold retitled. by destruct x, (defined (b_completed b)), (defined (b_title b)). Qed.

(** What [updateTodo] does when the [userId] of the payload matches no
    user: the answer is the error, and the title and the [completed] of
    the payload are in the stored todo. *)
Lemma array_updateTodo_invalid st id b x :
  find (todo_is id) (todos st) = Some x →
  defined (b_userId b) = true →
  find (user_has (b_userId b)) (users st) = None →
  (updateTodo id b st).2 = fail 400 "invalid userId" ∧
  find (todo_is id) (todos (updateTodo id b st).1) = Some (retitled b x).
Proof.
  intros Hx Hd Hu. unfold updateTodo. rewrite Hx, Hd, Hu, retitled_eq. cbn.
  split; [done|].
  apply (find_mutate_found _ (λ _, retitled b x) _ x Hx).
  by apply find_Some in Hx as [_ Hid].
Qed.

End ArrayServerFacts.

Section MapFacts.
Context {A : Type}.
Implicit Types (m : list (string * A)) (k : string) (v : A) (f : A → A).

Lemma get_Some k m v : JSMap.get k m = Some v → (k, v) ∈ m.
Proof.
  induction m as [|[k' v'] m IH]; cbn; [done|].
  case_bool_decide as Hk.
  - intros [= ->]. subst. by left.
  - intros ?. right. by apply IH.
Qed.

Lemma get_None k m : JSMap.get k m = None ↔ k ∉ m.*1.
Proof.
  induction m as [|[k' v'] m IH]; cbn.
  - split; [|done]. intros _ H. by apply elem_of_nil in H.
  - case_bool_decide as Hk.
    + split; [done|]. intros H. exfalso. apply H. subst. by left.
    + rewrite IH, not_elem_of_cons. cbn. split; [by intros ?; split|by intros [_ ?]].
Qed.

Lemma keys_unique m e1 e2 : NoDup m.*1 → e1 ∈ m → e2 ∈ m → e1.1 = e2.1 → e1 = e2.
Proof.
  induction m as [|e m IH]; cbn; intros Hnd H1 H2 Heq.
  - by apply elem_of_nil in H1.
  - apply NoDup_cons in Hnd as [Hnot Hnd].
    apply elem_of_cons in H1 as [->|H1]; apply elem_of_cons in H2 as [->|H2].
    + done.
    + exfalso. apply Hnot. rewrite Heq. by apply list_elem_of_fmap_2.
    + exfalso. apply Hnot. rewrite <- Heq. by apply list_elem_of_fmap_2.
    + by apply IH.
Qed.

Lemma get_elem k v m : NoDup m.*1 → (k, v) ∈ m → JSMap.get k m = Some v.
Proof.
  intros Hnd He. destruct (JSMap.get k m) as [v'|] eqn:Hg.
  - apply get_Some in Hg.
    by pose proof (keys_unique m _ _ Hnd Hg He eq_refl) as [= ->].
  - apply get_None in Hg. exfalso. apply Hg.
    by apply (list_elem_of_fmap_2 fst) in He.
Qed.

Lemma set_fresh k v m : JSMap.get k m = None → JSMap.set k v m = m ++ [(k, v)].
Proof.
  induction m as [|[k' v'] m IH]; cbn; [done|].
  case_bool_decide as Hk; [done|]. intros H. by rewrite IH.
Qed.

Lemma set_keys k v m : is_Some (JSMap.get k m) → (JSMap.set k v m).*1 = m.*1.
Proof.
  induction m as [|[k' v'] m IH]; cbn.
  - by intros [? ?].
  - case_bool_decide as Hk; cbn; [by subst|]. intros H. by rewrite IH.
Qed.

Lemma elem_of_set k v m e : e ∈ JSMap.set k v m → e = (k, v) ∨ e ∈ m.
Proof.
  induction m as [|[k' v'] m IH]; cbn.
  - intros ->%list_elem_of_singleton. by left.
  - case_bool_decide as Hk.
    + intros [->|He]%elem_of_cons; [by left|right; by right].
    + intros [->|He]%elem_of_cons; [right; by left|].
      destruct (IH He) as [->|?]; [by left|right; by right].
Qed.

Lemma NoDup_set k v m : NoDup m.*1 → NoDup (JSMap.set k v m).*1.
Proof.
  intros Hnd. destruct (JSMap.get k m) as [v'|] eqn:Hg.
  - by rewrite set_keys.
  - rewrite set_fresh, fmap_app by done. cbn.
    apply NoDup_app. split; [done|]. split; [|apply NoDup_singleton].
    intros k' Hk' ->%list_elem_of_singleton. by apply get_None in Hg.
Qed.

Lemma elem_of_delete k m e : e ∈ JSMap.delete k m ↔ e ∈ m ∧ e.1 ≠ k.
Proof.
  unfold JSMap.delete. rewrite elem_of_bfilter, negb_true_iff, bool_decide_eq_false. done.
Qed.

Lemma bfilter_keys_sublist (p : string * A → bool) m : (List.filter p m).*1 `sublist_of` m.*1.
Proof.
  induction m as [|e m IH]; cbn; [done|].
  destruct (p e); cbn; [by constructor|by constructor].
Qed.

Lemma NoDup_bfilter_keys (p : string * A → bool) m : NoDup m.*1 → NoDup (List.filter p m).*1.
Proof. intros H. eapply sublist_NoDup; [done|apply bfilter_keys_sublist]. Qed.

Lemma mutate_found_keys k f m : (JSMap.mutate_found k f m).*1 = m.*1.
Proof.
  induction m as [|[k' v'] m IH]; cbn; [done|].
  case_bool_decide; cbn; [done|by rewrite IH].
Qed.

Lemma elem_of_map_mutate_found k f m e :
  e ∈ JSMap.mutate_found k f m → e ∈ m ∨ ∃ v, JSMap.get k m = Some v ∧ e = (k, f v).
Proof.
  induction m as [|[k' v'] m IH]; cbn; [by left|].
  case_bool_decide as Hk.
  - subst. intros [->|He]%elem_of_cons; [right; by eexists|left; by right].
  - intros [->|He]%elem_of_cons; [left; by left|].
    destruct (IH He) as [?|?]; [left; by right|by right].
Qed.

Lemma get_mutate_found k f m : JSMap.get k (JSMap.mutate_found k f m) = f <$> JSMap.get k m.
Proof.
  induction m as [|[k' v'] m IH]; cbn; [done|].
  case_bool_decide as Hk; cbn.
  - by rewrite bool_decide_eq_true_2.
  - by rewrite bool_decide_eq_false_2.
Qed.

Lemma get_mutate_found_other k k' f m :
  k' ≠ k → JSMap.get k' (JSMap.mutate_found k f m) = JSMap.get k' m.
Proof.
  intros Hne. induction m as [|[k0 v0] m IH]; cbn; [done|].
  case_bool_decide as Hk; cbn.
  - subst. by rewrite bool_decide_eq_false_2.
  - by rewrite IH.
Qed.

Lemma elem_of_values m v : v ∈ JSMap.values m ↔ ∃ k, (k, v) ∈ m.
Proof.
  unfold JSMap.values. rewrite list_elem_of_fmap. split.
  - intros ([k v'] & -> & He). by exists k.
  - intros (k & He). by exists (k, v).
Qed.

End MapFacts.

Section MapServerFacts.
Import MapServer.

(** The loop of the cascade, on any map it may be deleting from. *)
Lemma cascade_fold removed (l acc : list (string * Todo.t)) :
  foldl (λ m e, if strict_eq (Todo.userId e.2) (VStr removed) then JSMap.delete e.1 m else m)
        acc l
  = List.filter
      (λ e, negb (existsb (λ e', strict_eq (Todo.userId e'.2) (VStr removed)
                                 && bool_decide (e.1 = e'.1)) l))
      acc.
Proof.
  revert acc. induction l as [|e' l IH]; intros acc; cbn [foldl existsb].
  - cbn. induction acc as [|e acc IHacc]; cbn; [done|]. by rewrite <- IHacc.
  - rewrite IH. destruct (strict_eq (Todo.userId e'.2) (VStr removed)); cbn [andb orb].
    + unfold JSMap.delete. rewrite bfilter_twice.
      apply filter_ext. intros e. by rewrite negb_orb.
    + done.
Qed.

(** On a map, the cascade leaves the todos of the other users, in order. *)
Lemma map_cascade_filter removed (l : list (string * Todo.t)) :
  NoDup l.*1 → cascade removed l = List.filter (λ e, not_of removed e.2) l.
Proof.
  intros Hnd. unfold cascade. rewrite cascade_fold.
  apply filter_ext_in. intros e He%list_elem_of_In. unfold not_of. f_equal.
  destruct (strict_eq (Todo.userId e.2) (VStr removed)) eqn:Hm.
  - apply existsb_exists. exists e. split; [by apply list_elem_of_In|].
    by rewrite Hm, bool_decide_eq_true_2.
  - apply not_true_is_false. intros (e' & He'%list_elem_of_In & Hc)%existsb_exists.
    apply andb_true_iff in Hc as [Hm' Hk%bool_decide_eq_true].
    assert (e = e') as -> by (by eapply keys_unique).
    congruence.
Qed.

Lemma elem_of_cascade removed (l : list (string * Todo.t)) e :
  e ∈ cascade removed l → e ∈ l ∧ not_of removed e.2 = true.
Proof.
  unfold cascade. rewrite cascade_fold. intros [He Hno]%elem_of_bfilter.
  split; [done|]. unfold not_of.
  destruct (strict_eq (Todo.userId e.2) (VStr removed)) eqn:Hm; [|done].
  apply negb_true_iff, not_true_iff_false in Hno. exfalso. apply Hno.
  apply existsb_exists. exists e. split; [by apply list_elem_of_In|].
  by rewrite Hm, bool_decide_eq_true_2.
Qed.

Lemma cascade_keys_sublist removed (l : list (string * Todo.t)) :
  (cascade removed l).*1 `sublist_of` l.*1.
Proof. unfold cascade. rewrite cascade_fold. apply bfilter_keys_sublist. Qed.

Lemma get_value_Some {A} (v : value) (m : list (string * A)) x :
  JSMap.get_value v m = Some x → ∃ k, v = VStr k ∧ (k, x) ∈ m.
Proof.
  destruct v; cbn; try done. intros Hg%get_Some. by eexists.
Qed.

Lemma get_value_None {A} (v : value) (m : list (string * A)) :
  JSMap.get_value v m = None → ∀ k, v = VStr k → k ∉ m.*1.
Proof. intros Hg k ->. by apply get_None. Qed.

Lemma map_step_wf st o : map_wf st → map_wf (step st o).1.
Proof.
  intros (Hu & Ht & Huid & Htid & Hfresh). unfold map_wf.
  destruct o as [b|id b|id|b|id b|id]; cbn [step].
  - unfold createUser. destruct (_ || _); [done|]. cbn.
    split; [|split; [|split; [|split]]]; try done.
    + by apply NoDup_set.
    + intros e [->|He]%elem_of_set; [done|by apply Huid].
    + intros k Hk. destruct (Hfresh k Hk) as (n & Hn & ->). exists n. split; [cbn; lia|done].
  - unfold updateUser.
    destruct (JSMap.get id (users st)) as [user|] eqn:Hg; [|done]. cbn.
    split; [|split; [|split; [|split]]]; try done.
    + by rewrite mutate_found_keys.
    + intros e [He|(v & Hv & ->)]%elem_of_map_mutate_found; [by apply Huid|].
      apply get_Some, Huid in Hg. cbn in *.
      by destruct (defined (b_email b)), (defined (b_name b)).
  - unfold deleteUser.
    destruct (JSMap.get id (users st)) as [user|] eqn:Hg; [|done]. cbn.
    split; [|split; [|split; [|split]]].
    + by apply NoDup_bfilter_keys.
    + eapply sublist_NoDup; [exact Ht|apply cascade_keys_sublist].
    + intros e [He _]%elem_of_delete. by apply Huid.
    + intros e [He _]%elem_of_cascade. by apply Htid.
    + intros k Hk. apply Hfresh. eapply elem_of_sublist; [exact Hk|].
      apply cascade_keys_sublist.
  - unfold createTodo. destruct (_ || _); [done|].
    destruct (JSMap.get_value (b_userId b) (users st)); [|done]. cbn.
    split; [|split; [|split; [|split]]]; try done.
    + by apply NoDup_set.
    + intros e [->|He]%elem_of_set; [done|by apply Htid].
    + intros k ([k' x] & -> & [[= -> ->]|He]%elem_of_set)%list_elem_of_fmap.
      * exists (nextId st). split; [cbn; lia|done].
      * destruct (Hfresh k') as (n & Hn & ->); [by apply (list_elem_of_fmap_2 fst) in He|].
        exists n. split; [cbn; lia|done].
  - unfold updateTodo.
    destruct (JSMap.get id (todos st)) as [todo|] eqn:Hg; [|done].
    set (todo' := if defined (b_completed b) then _ else _).
    assert (Hsame : Todo.id todo' = id).
    { apply get_Some, Htid in Hg. cbn in Hg. unfold todo'.
      by destruct (defined (b_completed b)), (defined (b_title b)). }
    destruct (defined (b_userId b)); [destruct (JSMap.get_value _ (users st))|]; cbn;
      (split; [|split; [|split; [|split]]]; try done;
       [ by rewrite mutate_found_keys
       | by intros e [He|(v & Hv & ->)]%elem_of_map_mutate_found; [apply Htid|]
       | intros k Hk; rewrite mutate_found_keys in Hk; by apply Hfresh ]).
  - unfold deleteTodo.
    destruct (JSMap.get id (todos st)) as [todo|] eqn:Hg; [|done]. cbn.
    split; [|split; [|split; [|split]]]; try done.
    + by apply NoDup_bfilter_keys.
    + intros e [He _]%elem_of_delete. by apply Htid.
    + intros k Hk. apply Hfresh. eapply elem_of_sublist; [exact Hk|].
      apply bfilter_keys_sublist.
Qed.

Lemma elem_of_set_other {A} k (v : A) m e : e ∈ m → e.1 ≠ k → e ∈ JSMap.set k v m.
Proof.
  intros He Hne. induction m as [|[k' v'] m IH]; cbn.
  - by apply elem_of_nil in He.
  - case_bool_decide as Hk.
    + apply elem_of_cons in He as [->|He]; [cbn in Hne; congruence|by right].
    + apply elem_of_cons in He as [->|He]; [by left|right; by apply IH].
Qed.

Lemma elem_of_set_new {A} k (v : A) m : (k, v) ∈ JSMap.set k v m.
Proof.
  induction m as [|[k' v'] m IH]; cbn; [by left|].
  case_bool_decide; [by left|by right].
Qed.

Lemma map_step_integrity st o : map_wf st → map_integrity st → map_integrity (step st o).1.
Proof.
  intros (Hu & Ht & Huid & Htid & Hfresh) Hst. unfold map_integrity in *.
  destruct o as [b|id b|id|b|id b|id]; cbn [step].
  - unfold createUser. destruct (_ || _); [done|]. cbn.
    intros x Hx. destruct (Hst x Hx) as (u & [k Hk]%elem_of_values & Hxu).
    pose proof (Huid _ Hk) as Hid. cbn in Hid.
    destruct (decide (k = pretty (nextId st))) as [->|Hne].
    + eexists. split; [apply elem_of_values; eexists; apply elem_of_set_new|].
      cbn. by rewrite Hxu, Hid.
    + exists u. split; [|done]. apply elem_of_values. exists k.
      by apply elem_of_set_other.
  - unfold updateUser.
    destruct (JSMap.get id (users st)) as [user|] eqn:Hg; [|done]. cbn.
    intros x Hx. destruct (Hst x Hx) as (u & [k Hk]%elem_of_values & Hxu).
    pose proof (Huid _ Hk) as Hid. cbn in Hid.
    set (user' := if defined (b_email b) then _ else _).
    destruct (decide (k = id)) as [->|Hne].
    + exists user'. split.
      * apply elem_of_values. exists id.
        apply get_Some. by rewrite get_mutate_found, Hg.
      * apply get_Some, Huid in Hg. cbn in Hg. rewrite Hxu, Hid, <- Hg.
        unfold user'. by destruct (defined (b_email b)), (defined (b_name b)).
    + exists u. split; [|done]. apply elem_of_values. exists k.
      apply get_Some. rewrite get_mutate_found_other by done. by apply get_elem.
  - unfold deleteUser.
    destruct (JSMap.get id (users st)) as [user|] eqn:Hg; [|done]. cbn.
    intros x [kx [Hx Hnot]%elem_of_cascade]%elem_of_values.
    destruct (Hst x) as (u & [k Hk]%elem_of_values & Hxu); [apply elem_of_values; eauto|].
    pose proof (Huid _ Hk) as Hid. cbn in Hid.
    exists u. split; [|done]. apply elem_of_values. exists k.
    apply elem_of_delete. split; [done|]. cbn. intros ->.
    unfold not_of in Hnot. cbn in Hnot. rewrite Hxu, Hid in Hnot.
    apply negb_true_iff in Hnot.
    assert (strict_eq (VStr id) (VStr id) = true) by (by apply strict_eq_str_l).
    congruence.
  - unfold createTodo. destruct (_ || _); [done|].
    destruct (JSMap.get_value (b_userId b) (users st)) as [u|] eqn:Hg; [|done]. cbn.
    apply get_value_Some in Hg as (k & Hb & Hk).
    pose proof (Huid _ Hk) as Hid. cbn in Hid.
    intros x [kx [[= -> ->]|Hx]%elem_of_set]%elem_of_values.
    + exists u. split; [apply elem_of_values; eauto|]. cbn. by rewrite Hb, Hid.
    + apply Hst. apply elem_of_values. eauto.
  - unfold updateTodo.
    destruct (JSMap.get id (todos st)) as [todo|] eqn:Hf; [|done].
    apply get_Some in Hf.
    destruct (Hst todo) as (u0 & Hu0 & Hxu0); [apply elem_of_values; eauto|].
    set (todo' := if defined (b_completed b) then _ else _).
    assert (Hsame : Todo.userId todo' = Todo.userId todo).
    { unfold todo'. by destruct (defined (b_completed b)), (defined (b_title b)). }
    destruct (defined (b_userId b)).
    + destruct (JSMap.get_value (b_userId b) (users st)) as [u|] eqn:Hg; cbn.
      * apply get_value_Some in Hg as (k & Hb & Hk).
        pose proof (Huid _ Hk) as Hid. cbn in Hid.
        intros x [kx [Hx|(? & _ & [= -> ->])]%elem_of_map_mutate_found]%elem_of_values.
        { apply Hst. apply elem_of_values. eauto. }
        exists u. split; [apply elem_of_values; eauto|]. cbn. by rewrite Hb, Hid.
      * intros x [kx [Hx|(? & _ & [= -> ->])]%elem_of_map_mutate_found]%elem_of_values.
        { apply Hst. apply elem_of_values. eauto. }
        exists u0. by rewrite Hsame.
    + cbn. intros x [kx [Hx|(? & _ & [= -> ->])]%elem_of_map_mutate_found]%elem_of_values.
      { apply Hst. apply elem_of_values. eauto. }
      exists u0. by rewrite Hsame.
  - unfold deleteTodo. destruct (JSMap.get id (todos st)); [|done]. cbn.
    intros x [kx [Hx _]%elem_of_delete]%elem_of_values.
    apply Hst. apply elem_of_values. eauto.
Qed.

Lemma map_step_booleans st o : map_booleans st → map_booleans (step st o).1.
Proof.
  intros Hst. unfold map_booleans in *. destruct o as [b|id b|id|b|id b|id]; cbn [step].
  - unfold createUser. by destruct (_ || _).
  - unfold updateUser. by destruct (JSMap.get id (users st)).
  - unfold deleteUser. destruct (JSMap.get id (users st)); [|done]. cbn.
    intros x [kx [Hx _]%elem_of_cascade]%elem_of_values.
    apply Hst. apply elem_of_values. eauto.
  - unfold createTodo. destruct (_ || _); [done|].
    destruct (JSMap.get_value (b_userId b) (users st)); [|done]. cbn.
    intros x [kx [[= -> ->]|Hx]%elem_of_set]%elem_of_values; [by eexists|].
    apply Hst. apply elem_of_values. eauto.
  - unfold updateTodo.
    destruct (JSMap.get id (todos st)) as [todo|] eqn:Hf; [|done].
    apply get_Some in Hf.
    set (todo' := if defined (b_completed b) then _ else _).
    assert (Hb : is_boolean (Todo.completed todo')).
    { unfold todo'. destruct (defined (b_completed b)); [by eexists|].
      destruct (defined (b_title b)); cbn; apply Hst; apply elem_of_values; eauto. }
    destruct (defined (b_userId b)); [destruct (JSMap.get_value _ (users st))|]; cbn;
      (intros x [kx [Hx|(? & _ & [= -> ->])]%elem_of_map_mutate_found]%elem_of_values;
       [apply Hst; apply elem_of_values; eauto|exact Hb]).
  - unfold deleteTodo. destruct (JSMap.get id (todos st)); [|done]. cbn.
    intros x [kx [Hx _]%elem_of_delete]%elem_of_values.
    apply Hst. apply elem_of_values. eauto.
Qed.

Lemma map_run_snoc_op ops o : run (ops ++ [o]) = (step (run ops) o).1.
Proof. unfold run. by rewrite foldl_app. Qed.

Lemma map_seed_wf : map_wf seed.
Proof.
  repeat split.
  - apply (bool_decide_unpack _). by vm_compute.
  - apply (bool_decide_unpack _). by vm_compute.
  - intros e He. vm_compute in He.
    repeat (apply elem_of_cons in He as [->|He]); [done..|by apply elem_of_nil in He].
  - intros e He. vm_compute in He.
    repeat (apply elem_of_cons in He as [->|He]); [done..|by apply elem_of_nil in He].
  - intros k Hk. vm_compute in Hk.
    repeat (apply elem_of_cons in Hk as [->|Hk]); [..|by apply elem_of_nil in Hk].
    + exists 3. split; [cbn; lia|done].
    + exists 4. split; [cbn; lia|done].
    + exists 5. split; [cbn; lia|done].
Qed.

Lemma map_run_wf ops : map_wf (run ops).
Proof.
  induction ops as [|o ops IH] using rev_ind; [apply map_seed_wf|].
  rewrite map_run_snoc_op. by apply map_step_wf.
Qed.

Lemma map_run_integrity ops : map_integrity (run ops).
Proof.
  induction ops as [|o ops IH] using rev_ind.
  - intros x Hx. vm_compute in Hx.
    repeat (apply elem_of_cons in Hx as [->|Hx]); [..|by apply elem_of_nil in Hx].
    + exists (User.mk "1" (VStr "Alice") (VStr "alice@example.com")).
      split; [vm_compute; apply list_elem_of_here|reflexivity].
    + exists (User.mk "1" (VStr "Alice") (VStr "alice@example.com")).
      split; [vm_compute; apply list_elem_of_here|reflexivity].
    + exists (User.mk "2" (VStr "Bob") (VStr "bob@example.com")).
      split; [vm_compute; apply list_elem_of_further, list_elem_of_here|reflexivity].
  - rewrite map_run_snoc_op. apply map_step_integrity; [apply map_run_wf|done].
Qed.

Lemma map_run_booleans ops : map_booleans (run ops).
Proof.
  induction ops as [|o ops IH] using rev_ind.
  - intros x Hx. vm_compute in Hx.
    repeat (apply elem_of_cons in Hx as [->|Hx]); [..|by apply elem_of_nil in Hx];
      by eexists.
  - rewrite map_run_snoc_op. by apply map_step_booleans.
Qed.

Lemma map_updateUser st id b u :
  JSMap.get id (users st) = Some u →
  let st' := (updateUser id b st).1 in
  (updateUser id b st).2 = Response 200 (BUser (updated_user b u)) ∧
  JSMap.get id (users st') = Some (updated_user b u) ∧
  (∀ id', id' ≠ id → JSMap.get id' (users st') = JSMap.get id' (users st)) ∧
  (users st').*1 = (users st).*1 ∧
  todos st' = todos st ∧ nextId st' = nextId st.
Proof.
  intros Hu. unfold updateUser. rewrite Hu, updated_user_eq. cbn.
  split; [done|]. split; [|split; [|split]]; try done.
  - by rewrite get_mutate_found, Hu.
  - intros id' Hne. by apply get_mutate_found_other.
  - apply mutate_found_keys.
Qed.

Lemma map_createUser_empty st b :
  b_name b = VStr "" ∨ b_email b = VStr "" →
  createUser b st = (st, fail 400 "name and email are required").
Proof.
  intros H. unfold createUser.
  destruct H as [-> | ->]; cbn; [done|]. by rewrite orb_true_r.
Qed.

Lemma map_createTodo_falsy st b :
  truthy (b_userId b) = false ∨ truthy (b_title b) = false →
  createTodo b st = (st, fail 400 "userId and title are required").
Proof.
  intros H. unfold createTodo.
  destruct H as [-> | ->]; cbn; [done|]. by rewrite orb_true_r.
Qed.

Lemma map_createTodo_unknown st b :
  map_wf st →
  truthy (b_userId b) = true → truthy (b_title b) = true →
  (∀ u, u ∈ JSMap.values (users st) → b_userId b ≠ VStr (User.id u)) →
  createTodo b st = (st, fail 400 "invalid userId").
Proof.
  intros (_ & _ & Huid & _) Hu Ht Hno. unfold createTodo. rewrite Hu, Ht. cbn.
  destruct (JSMap.get_value (b_userId b) (users st)) as [u|] eqn:Hf; [|done].
  apply get_value_Some in Hf as (k & Hk & Hin).
  pose proof (Huid _ Hin) as Hid. cbn in Hid.
  destruct (Hno u); [apply elem_of_values; eauto|]. by rewrite Hk, Hid.
Qed.

Lemma map_createTodo_created st b st' x :
  map_wf st →
  createTodo b st = (st', Response 201 (BTodo x)) →
  x = Todo.mk (pretty (nextId st)) (b_userId b) (b_title b) (VBool (truthy (b_completed b))) ∧
  todos st' = todos st ++ [(Todo.id x, x)] ∧ users st' = users st.
Proof.
  intros (_ & _ & _ & _ & Hfresh). unfold createTodo. destruct (_ || _); [done|].
  destruct (JSMap.get_value (b_userId b) (users st)); [|done].
  cbn. rewrite truthy_default. intros [= <- <-]. cbn.
  split; [done|]. split; [|done].
  apply set_fresh, get_None. intros (n & Hn & Heq%(inj pretty))%Hfresh. lia.
Qed.

Lemma map_updateTodo_completed st id b x :
  JSMap.get id (todos st) = Some x → defined (b_completed b) = true →
  ∃ x', JSMap.get id (todos (updateTodo id b st).1) = Some x' ∧
        Todo.completed x' = VBool (truthy (b_completed b)).
Proof.
  intros Hx Hc. unfold updateTodo. rewrite Hx, Hc.
  destruct (defined (b_userId b)); [destruct (JSMap.get_value _ (users st))|]; cbn;
    rewrite get_mutate_found, Hx; by eexists.
Qed.

Lemma map_listTodos st userId completed :
  (∀ u, userId = Some u → u ≠ "") →
  listTodos (query_userId userId) (query_completed completed) st
  = Response 200 (BTodos (List.filter (wantedb userId completed) (JSMap.values (todos st)))).
Proof. intros Hne. unfold listTodos. by rewrite <- filter_query. Qed.

Lemma map_deleteUser st id :
  map_wf st →
  deleteUser id st = (st, fail 404 "user not found") ∨
  (deleteUser id st).2 = Response 200 BOk ∧
  todos (deleteUser id st).1 = List.filter (λ e, not_of id e.2) (todos st) ∧
  JSMap.get id (users (deleteUser id st).1) = None.
Proof.
  intros (_ & Ht & _). unfold deleteUser.
  destruct (JSMap.get id (users st)); [right|by left]. cbn.
  split; [done|]. split; [by apply map_cascade_filter|].
  apply get_None. intros ([k u] & -> & [_ Hk]%elem_of_delete)%list_elem_of_fmap. done.
Qed.

Lemma map_updateTodo_invalid st id b x :
  JSMap.get id (todos st) = Some x →
  defined (b_userId b) = true →
  JSMap.get_value (b_userId b) (users st) = None →
  (updateTodo id b st).2 = fail 400 "invalid userId" ∧
  JSMap.get id (todos (updateTodo id b st).1) = Some (retitled b x).
Proof.
  intros Hx Hd Hu. unfold updateTodo. rewrite Hx, Hd, Hu, retitled_eq. cbn.
  by rewrite get_mutate_found, Hx.
Qed.

End MapServerFacts.

(** * Facts about the access guard *)
Section AuthFacts.
Import Auth.

Lemma API_KEY_nonempty env : API_KEY env ≠ "".
Proof.
  unfold API_KEY. destruct env as [k|]; [|done].
  case_bool_decide; done.
Qed.

Lemma append_nil_l (s : string) : "" +:+ s = s.
Proof. reflexivity. Qed.

Lemma append_cons c (s t : string) : String c s +:+ t = String c (s +:+ t).
Proof. reflexivity. Qed.

Lemma fold_case_length s t : fold_case s = fold_case t → String.length s = String.length t.
Proof.
  revert t. induction s as [|c s IH]; intros [|d t]; cbn; try done.
  intros [= _ H]. f_equal. by apply IH.
Qed.

(** A literal of the pattern matches a prefix that reads the same in
    upper case. *)
Lemma literal_Some pat s rest :
  literal pat s = Some rest ↔ ∃ pre, s = pre +:+ rest ∧ fold_case pre = fold_case pat.
Proof.
  revert s. induction pat as [|p pat IH]; intros s; cbn.
  - split.
    + intros [= ->]. by exists "".
    + intros ([|c pre] & -> & H); [done|discriminate].
  - destruct s as [|c s].
    + split; [done|]. intros ([|d pre] & H1 & H2); discriminate.
    + case_bool_decide as Hc.
      * rewrite IH. split.
        -- intros (pre & -> & Hpre). exists (String c pre).
           rewrite append_cons. cbn. by rewrite Hpre, Hc.
        -- intros ([|d pre] & H1 & H2); [discriminate|].
           rewrite append_cons in H1. cbn in H2.
           injection H1 as -> ->. injection H2 as _ H2. by exists pre.
      * split; [done|]. intros ([|d pre] & H1 & H2); [discriminate|].
        rewrite append_cons in H1. cbn in H2.
        injection H1 as -> ->. injection H2 as H2 _. congruence.
Qed.

Lemma capture_to_end_Some s t : capture_to_end s = Some t ↔ t = s ∧ is_token s.
Proof.
  unfold capture_to_end, is_token. destruct s as [|c s].
  - split; [done|]. by intros [_ [? _]].
  - destruct (all_chars _ (String c s)) eqn:H.
    + split; [by intros [= <-]|by intros [-> _]].
    + split; [done|]. intros [_ [_ ?]]. congruence.
Qed.

(** The greedy run of spaces: [spaces_then] returns whenever some split of
    the input leaves a token, and what it returns follows the longest run
    of spaces that does. *)
Lemma spaces_then_spec s tok :
  (∀ sp t, s = sp +:+ t → is_spaces sp → is_token t →
           is_Some (spaces_then capture_to_end s)) ∧
  (spaces_then capture_to_end s = Some tok →
   ∃ sp, s = sp +:+ tok ∧ is_spaces sp ∧ is_token tok ∧
     ∀ sp' t', s = sp' +:+ t' → is_spaces sp' → is_token t' →
               String.length sp' ≤ String.length sp).
Proof.
  revert tok. induction s as [|c s IH]; intros tok.
  - cbn. split; [|done].
    intros [|] t H _ [Ht _]; [by rewrite append_nil_l in H; subst|discriminate].
  - cbn [spaces_then]. destruct (is_space c) eqn:Hc.
    + destruct (spaces_then capture_to_end s) as [r|] eqn:Hr.
      * split; [by eexists|]. intros [= ->].
        destruct (proj2 (IH tok) eq_refl) as (sp & Hs & Hsp & Htok & Hmax). clear IH. subst s.
        exists (String c sp). unfold is_spaces in *. cbn. rewrite Hc, Hsp.
        split; [done|]. split; [done|]. split; [done|].
        intros [|d sp'] t' H Hsp' Ht'; cbn; [lia|].
        rewrite append_cons in H. injection H as -> H. cbn in Hsp'.
        apply andb_true_iff in Hsp' as [_ Hsp'].
        specialize (Hmax sp' t' H Hsp' Ht'). lia.
      * assert (Hnone : ∀ sp t, s = sp +:+ t → is_spaces sp → ¬ is_token t).
        { intros sp t H Hsp Ht. destruct (proj1 (IH "") sp t H Hsp Ht) as [? ?]. congruence. }
        split.
        -- intros [|d sp] t H Hsp Ht.
           ++ rewrite append_nil_l in H. subst t.
              exists (String c s). by apply capture_to_end_Some.
           ++ rewrite append_cons in H. injection H as -> ->. cbn in Hsp.
              apply andb_true_iff in Hsp as [_ Hsp].
              by destruct (Hnone sp t eq_refl Hsp).
        -- intros [-> Htok]%capture_to_end_Some. exists "".
           split; [done|]. split; [done|]. split; [done|].
           intros [|d sp'] t' H Hsp' Ht'; cbn; [lia|]. exfalso.
           rewrite append_cons in H. injection H as -> ->. cbn in Hsp'.
           apply andb_true_iff in Hsp' as [_ Hsp'].
           by destruct (Hnone sp' t' eq_refl Hsp').
    + split.
      * intros [|d sp] t H Hsp Ht.
        -- rewrite append_nil_l in H. subst t.
           exists (String c s). by apply capture_to_end_Some.
        -- rewrite append_cons in H. injection H as -> ->.
           unfold is_spaces in Hsp. cbn in Hsp.
           rewrite Hc in Hsp. discriminate.
      * intros [-> Htok]%capture_to_end_Some. exists "".
        split; [done|]. split; [done|]. split; [done|].
        intros [|d sp'] t' H Hsp' Ht'; cbn; [lia|]. exfalso.
        rewrite append_cons in H. injection H as -> ->.
        unfold is_spaces in Hsp'. cbn in Hsp'.
        rewrite Hc in Hsp'. discriminate.
Qed.

Lemma append_inj_length (a a' b b' : string) :
  a +:+ b = a' +:+ b' → String.length a = String.length a' → a = a' ∧ b = b'.
Proof.
  revert a'. induction a as [|c a IH]; intros [|c' a'] H Hlen; try discriminate.
  - by rewrite !append_nil_l in H.
  - rewrite !append_cons in H. injection H as -> H. injection Hlen as Hlen.
    destruct (IH a' H Hlen) as [-> ->]. done.
Qed.

(** [match_ApiKey] against the pattern in words. *)
Lemma match_ApiKey_Some auth token : match_ApiKey auth = Some token ↔ ApiKey_token auth token.
Proof.
  unfold match_ApiKey. split.
  - destruct (literal "ApiKey" auth) as [rest|] eqn:Hlit; [|done].
    apply literal_Some in Hlit as (pre & -> & Hpre).
    destruct rest as [|c s]; [done|]. cbn [space_plus_then].
    destruct (is_space c) eqn:Hc; [|done]. intros Hs.
    destruct (proj2 (spaces_then_spec s token) Hs) as (sp & -> & Hsp & Htok & Hmax).
    exists pre, (String c sp). split.
    + split; [by rewrite append_cons|]. split; [done|]. split; [done|].
      split; [|done]. unfold is_spaces in *. cbn. by rewrite Hc, Hsp.
    + intros scheme' spaces' token' (Heq & Hscheme & Hne & Hspaces & Htoken).
      assert (Hlen : String.length pre = String.length scheme').
      { apply fold_case_length. congruence. }
      destruct (append_inj_length _ _ _ _ Heq Hlen) as [_ Hrest].
      destruct spaces' as [|c' sp']; [done|].
      rewrite append_cons in Hrest. injection Hrest as _ Hrest.
      unfold is_spaces in Hspaces. cbn in Hspaces.
      apply andb_true_iff in Hspaces as [_ Hspaces].
      specialize (Hmax sp' token' Hrest Hspaces Htoken). cbn. lia.
  - intros (scheme & spaces & (-> & Hscheme & Hne & Hspaces & Htoken) & Hmax).
    assert (Hlit : literal "ApiKey" (scheme +:+ spaces +:+ token) = Some (spaces +:+ token)).
    { apply literal_Some. by exists scheme. }
    rewrite Hlit. destruct spaces as [|c sp]; [done|].
    unfold is_spaces in Hspaces. cbn in Hspaces.
    apply andb_true_iff in Hspaces as [Hc Hsp].
    rewrite append_cons. cbn [space_plus_then]. rewrite Hc.
    destruct (proj1 (spaces_then_spec (sp +:+ token) "") sp token eq_refl Hsp Htoken)
      as [tok2 Htok2].
    rewrite Htok2. f_equal.
    destruct (proj2 (spaces_then_spec (sp +:+ token) tok2) Htok2)
      as (sp2 & Heq & Hsp2 & Htoken2 & Hmax2).
    pose proof (Hmax2 sp token eq_refl Hsp Htoken) as Hle1.
    assert (Hle2 : String.length (String c sp2) ≤ String.length (String c sp)).
    { apply (Hmax scheme (String c sp2) tok2).
      split; [by rewrite !append_cons, Heq|]. split; [done|]. split; [done|].
      split; [|done]. unfold is_spaces in *. cbn. by rewrite Hc, Hsp2. }
    cbn in Hle2.
    destruct (append_inj_length _ _ _ _ Heq ltac:(lia)) as [_ ->]. done.
Qed.

Lemma match_ApiKey_None auth :
  match_ApiKey auth = None ↔
  ¬ ∃ scheme spaces token, ApiKey_split auth scheme spaces token.
Proof.
  split.
  - intros Hnone (scheme & spaces & token & Hsplit).
    destruct Hsplit as (-> & Hscheme & Hne & Hspaces & Htoken).
    unfold match_ApiKey in Hnone.
    assert (Hlit : literal "ApiKey" (scheme +:+ spaces +:+ token) = Some (spaces +:+ token)).
    { apply literal_Some. by exists scheme. }
    rewrite Hlit in Hnone. destruct spaces as [|c sp]; [done|].
    unfold is_spaces in Hspaces. cbn in Hspaces.
    apply andb_true_iff in Hspaces as [Hc Hsp].
    rewrite append_cons in Hnone. cbn [space_plus_then] in Hnone. rewrite Hc in Hnone.
    destruct (proj1 (spaces_then_spec (sp +:+ token) "") sp token eq_refl Hsp Htoken)
      as [tok2 Htok2].
    congruence.
  - intros Hno. destruct (match_ApiKey auth) as [token|] eqn:Hm; [|done].
    exfalso. apply Hno. apply match_ApiKey_Some in Hm as (scheme & spaces & Hsplit & _).
    by exists scheme, spaces, token.
Qed.

(** The key the guard reads is the key the request presents. *)
Lemma provided_presents x_api_key authorization key :
  presents x_api_key authorization key ↔ provided x_api_key authorization = key ∧ key ≠ "".
Proof.
  unfold presents, provided. split.
  - intros [[-> Hne]|[Hhdr (auth & -> & Htoken)]].
    + cbn. by rewrite bool_decide_eq_false_2.
    + assert (Hd : default "" x_api_key = "") by (by destruct Hhdr as [-> | ->]).
      rewrite Hd. change (default "" (Some auth)) with auth.
      rewrite bool_decide_eq_true_2 by done. cbn [negb].
      pose proof Htoken as (? & ? & (_ & _ & _ & _ & Hne & _) & _).
      apply match_ApiKey_Some in Htoken. by rewrite Htoken.
  - intros [Hp Hne]. case_bool_decide as Hhdr; cbn [negb] in Hp.
    + right. split; [destruct x_api_key as [h|]; cbn in Hhdr; [right; by subst|by left]|].
      destruct (match_ApiKey (default "" authorization)) as [m1|] eqn:Hm; [|congruence].
      subst m1. destruct authorization as [auth|]; [|by vm_compute in Hm].
      exists auth. split; [done|]. by apply match_ApiKey_Some.
    + left. destruct x_api_key as [h|]; cbn in *; [|done]. by subst.
Qed.

End AuthFacts.

(** * The properties of the specification *)

(** C1. Referential integrity: after any sequence of store operations on
    the seed data, every todo of the store has the id of a user of the
    store as its [userId], in both servers.  [deleteUser id] answers 200
    exactly when the store has a user with the id, and then, in the same
    operation, it leaves exactly the todos whose [userId] is not [id], so
    that no todo of the deleted user is left; when the store has no such
    user it answers 404 and leaves the store as it was. *)
Theorem referential_integrity :
  (∀ ops, array_integrity (ArrayServer.run ops)) ∧
  (∀ ops, map_integrity (MapServer.run ops)) ∧
  (∀ st id,
     let r := ArrayServer.deleteUser id st in
     if bool_decide (id ∈ User.id <$> ArrayServer.users st)
     then r.2 = Response 200 BOk ∧
          ArrayServer.todos r.1 = List.filter (not_of id) (ArrayServer.todos st) ∧
          (∀ x, x ∈ ArrayServer.todos r.1 → Todo.userId x ≠ VStr id) ∧
          (∀ x, x ∈ ArrayServer.todos st → Todo.userId x ≠ VStr id →
                x ∈ ArrayServer.todos r.1)
     else r = (st, fail 404 "user not found")) ∧
  (∀ ops id,
     let st := MapServer.run ops in
     let r := MapServer.deleteUser id st in
     if bool_decide (id ∈ (MapServer.users st).*1)
     then r.2 = Response 200 BOk ∧
          MapServer.todos r.1 = List.filter (λ e, not_of id e.2) (MapServer.todos st) ∧
          (∀ x, x ∈ JSMap.values (MapServer.todos r.1) → Todo.userId x ≠ VStr id) ∧
          (∀ x, x ∈ JSMap.values (MapServer.todos st) → Todo.userId x ≠ VStr id →
                x ∈ JSMap.values (MapServer.todos r.1))
     else r = (st, fail 404 "user not found")).
Proof.
  assert (Hnot : ∀ id x, not_of id x = true ↔ Todo.userId x ≠ VStr id).
  { intros id x. unfold not_of. rewrite negb_true_iff, <- not_true_iff_false.
    by rewrite strict_eq_str_r. }
  split; [apply array_run_integrity|]. split; [apply map_run_integrity|]. split.
  - intros st id r. subst r. case_bool_decide as Hin.
    + destruct (JSArray.find (ArrayServer.user_is id) (ArrayServer.users st)) as [u|] eqn:Hu.
      * destruct (deleteUser_found _ _ _ Hu) as (idx & _ & ->).
        cbn [fst snd ArrayServer.todos].
        split; [done|]. split; [done|]. split.
        -- intros x [_ Hx]%elem_of_bfilter. by apply Hnot.
        -- intros x Hx Hne. apply elem_of_bfilter. split; [done|]. by apply Hnot.
      * exfalso. apply list_elem_of_fmap in Hin as (u & -> & Hin).
        pose proof (proj1 (find_None _ _) Hu u Hin) as Hno.
        unfold ArrayServer.user_is in Hno. by rewrite bool_decide_eq_true_2 in Hno.
    + apply deleteUser_missing.
      destruct (JSArray.find (ArrayServer.user_is id) (ArrayServer.users st)) as [u|] eqn:Hu;
        [|done].
      exfalso. apply Hin. apply find_Some in Hu as [Hu Hid%bool_decide_eq_true].
      rewrite <- Hid. by apply list_elem_of_fmap_2.
  - intros ops id st r. subst r.
    destruct (map_run_wf ops) as (_ & Ht & _). fold st in Ht.
    unfold MapServer.deleteUser. case_bool_decide as Hin.
    + destruct (JSMap.get id (MapServer.users st)) as [u|] eqn:Hu.
      * cbn [fst snd MapServer.todos]. rewrite map_cascade_filter by done.
        split; [done|]. split; [done|]. split.
        -- intros x [k [_ Hx]%elem_of_bfilter]%elem_of_values. by apply Hnot.
        -- intros x [k Hx]%elem_of_values Hne. apply elem_of_values. exists k.
           apply elem_of_bfilter. split; [done|]. by apply Hnot.
      * exfalso. by apply get_None in Hu.
    + destruct (JSMap.get id (MapServer.users st)) as [u|] eqn:Hu; [|done].
      exfalso. apply Hin. apply get_Some in Hu. by apply (list_elem_of_fmap_2 fst) in Hu.
Qed.

(** C2. [updateTodo] with a [userId] that matches no user answers 400
    "invalid userId", but the title given in the same payload has been
    written to the todo by then: on the seed data, todo 3 is "Buy coffee"
    before the request and "X" after it, in both servers. *)
Theorem updateTodo_invalid_userId_keeps_title :
  let b := TodoBody (VStr "999") (VStr "X") VUndefined in
  ArrayServer.getTodo "3" ArrayServer.seed
  = Response 200 (BTodo (Todo.mk "3" (VStr "1") (VStr "Buy coffee") (VBool false))) ∧
  (ArrayServer.updateTodo "3" b ArrayServer.seed).2 = fail 400 "invalid userId" ∧
  ArrayServer.getTodo "3" (ArrayServer.updateTodo "3" b ArrayServer.seed).1
  = Response 200 (BTodo (Todo.mk "3" (VStr "1") (VStr "X") (VBool false))) ∧
  MapServer.getTodo "3" MapServer.seed
  = Response 200 (BTodo (Todo.mk "3" (VStr "1") (VStr "Buy coffee") (VBool false))) ∧
  (MapServer.updateTodo "3" b MapServer.seed).2 = fail 400 "invalid userId" ∧
  MapServer.getTodo "3" (MapServer.updateTodo "3" b MapServer.seed).1
  = Response 200 (BTodo (Todo.mk "3" (VStr "1") (VStr "X") (VBool false))).
Proof. cbv zeta. repeat split; by vm_compute. Qed.

(** C3. For every sequence of recorded requests, the array of [server.js]
    and the circular buffer of the second server give the same recent
    list in the snapshot; the whole snapshots are equal. *)
Theorem recent_stores_agree (startedAt : string) (reqs : list Metrics.finished) (uptime : Q) :
  Metrics.s_recent (ArrayMetrics.snapshot uptime (ArrayMetrics.run startedAt reqs))
  = Metrics.s_recent (RingMetrics.snapshot uptime (RingMetrics.run startedAt reqs)) ∧
  ArrayMetrics.snapshot uptime (ArrayMetrics.run startedAt reqs)
  = RingMetrics.snapshot uptime (RingMetrics.run startedAt reqs).
Proof.
  assert (Hrecent :
    reverse (JSArray.slice_last 20 (ArrayMetrics.recent (ArrayMetrics.run startedAt reqs)))
    = RingMetrics.read_recent (RingMetrics.run startedAt reqs)).
  { rewrite array_recent, ring_read.
    rewrite <- (length_fmap Metrics.entry_of reqs). apply array_read. }
  split; [exact Hrecent|].
  destruct (run_same_routes startedAt reqs) as (H1 & H2 & H3).
  unfold ArrayMetrics.snapshot, RingMetrics.snapshot. by rewrite H1, H2, H3, Hrecent.
Qed.

(** C4. The routes of a snapshot are sorted by count, largest first, in
    every metrics state; after any sequence of recorded requests every
    row is the row of a route statistic, its count is at least 1, and its
    [avgMs] is [+(totalMs / count).toFixed(1)] computed in doubles as the
    code computes it: the quotient of the doubles [totalMs] and [count],
    rounded to one decimal place, that is, the double that a multiple of
    1/10 at most 1/20 away from the quotient reads as.  For a total of
    0.75 in 5 requests the quotient is the double just below 0.15, and
    [avgMs] is 0.1. *)
Theorem snapshot_routes (startedAt : string) (reqs : list Metrics.finished) (uptime : Q) :
  (∀ m, StronglySorted count_desc (Metrics.routes (ArrayMetrics.snapshot uptime m))) ∧
  (∀ m, StronglySorted count_desc (Metrics.routes (RingMetrics.snapshot uptime m))) ∧
  routes_spec (ArrayMetrics.byRoute (ArrayMetrics.run startedAt reqs))
              (Metrics.routes (ArrayMetrics.snapshot uptime (ArrayMetrics.run startedAt reqs))) ∧
  routes_spec (RingMetrics.byRoute (RingMetrics.run startedAt reqs))
              (Metrics.routes (RingMetrics.snapshot uptime (RingMetrics.run startedAt reqs))) ∧
  (∀ key statuses,
     Metrics.avgMs
       (Metrics.row_of (key, Metrics.RouteStat 5 (Double.of_Q (75 # 100)) statuses))
     = Double.of_Q (1 # 10)).
Proof.
  split; [intros m; apply sort_by_count|]. split; [intros m; apply sort_by_count|].
  pose proof (array_run_counted startedAt reqs) as Hc.
  destruct (run_same_routes startedAt reqs) as (_ & _ & Hsame).
  split; [by apply routes_of_spec|]. split.
  { cbn [RingMetrics.snapshot Metrics.routes].
    apply routes_of_spec. by rewrite <- Hsame. }
  intros key statuses. by vm_compute.
Qed.

(** C5. After [n] recorded requests the recent-request store holds exactly
    the last [min n 100] records (the array in order, the circular buffer
    in its slots), and the snapshot returns the 20 most recent of them,
    or all when there are fewer, most recent first. *)
Theorem recent_window (startedAt : string) (reqs : list Metrics.finished) (uptime : Q) :
  let n := length reqs in
  let records := Metrics.entry_of <$> reqs in
  let kept := drop (n - 100) records in
  length kept = n `min` 100 ∧
  ArrayMetrics.recent (ArrayMetrics.run startedAt reqs) = kept ∧
  held (RingMetrics.run startedAt reqs) ≡ₚ kept ∧
  RingMetrics.recentCount (RingMetrics.run startedAt reqs) = n `min` 100 ∧
  Metrics.s_recent (ArrayMetrics.snapshot uptime (ArrayMetrics.run startedAt reqs))
  = take 20 (reverse records) ∧
  Metrics.s_recent (RingMetrics.snapshot uptime (RingMetrics.run startedAt reqs))
  = take 20 (reverse records) ∧
  length (take 20 (reverse records)) = n `min` 20.
Proof.
  cbv zeta. rewrite length_drop, length_take, length_reverse, !length_fmap.
  split; [lia|].
  split; [apply array_recent|]. split; [apply ring_held|].
  split.
  { destruct (ring_run_inv startedAt reqs) as (_ & _ & Hcnt & _).
    by rewrite Hcnt, length_fmap. }
  split.
  { cbn [ArrayMetrics.snapshot Metrics.s_recent]. rewrite array_recent.
    rewrite <- (length_fmap Metrics.entry_of reqs). apply array_read. }
  split; [apply ring_read|]. lia.
Qed.

(** C6. For every user of the store and every payload, [updateUser]
    answers 200 with the user whose fields are those of the payload where
    it has them and unchanged elsewhere; the store then holds that user
    under the id, every other user as before, the users in the same order,
    the same todos and the same counter.  A field given as the empty
    string is applied like any other, while [createUser] rejects an empty
    name or email and leaves the store as it was. *)
Theorem updateUser_applies_payload :
  (∀ st id b u,
     JSArray.find (ArrayServer.user_is id) (ArrayServer.users st) = Some u →
     let st' := (ArrayServer.updateUser id b st).1 in
     (ArrayServer.updateUser id b st).2 = Response 200 (BUser (updated_user b u)) ∧
     JSArray.find (ArrayServer.user_is id) (ArrayServer.users st') = Some (updated_user b u) ∧
     (∀ id', id' ≠ id →
        JSArray.find (ArrayServer.user_is id') (ArrayServer.users st')
        = JSArray.find (ArrayServer.user_is id') (ArrayServer.users st)) ∧
     User.id <$> ArrayServer.users st' = User.id <$> ArrayServer.users st ∧
     ArrayServer.todos st' = ArrayServer.todos st ∧
     ArrayServer.nextId st' = ArrayServer.nextId st) ∧
  (∀ st id b u,
     JSMap.get id (MapServer.users st) = Some u →
     let st' := (MapServer.updateUser id b st).1 in
     (MapServer.updateUser id b st).2 = Response 200 (BUser (updated_user b u)) ∧
     JSMap.get id (MapServer.users st') = Some (updated_user b u) ∧
     (∀ id', id' ≠ id →
        JSMap.get id' (MapServer.users st') = JSMap.get id' (MapServer.users st)) ∧
     (MapServer.users st').*1 = (MapServer.users st).*1 ∧
     MapServer.todos st' = MapServer.todos st ∧
     MapServer.nextId st' = MapServer.nextId st) ∧
  (∀ u email, User.name (updated_user (UserBody (VStr "") email) u) = VStr "") ∧
  (∀ u name, User.email (updated_user (UserBody name (VStr "")) u) = VStr "") ∧
  (∀ u, updated_user (UserBody VUndefined VUndefined) u = u) ∧
  (∀ st b, b_name b = VStr "" ∨ b_email b = VStr "" →
     ArrayServer.createUser b st = (st, fail 400 "name and email are required") ∧
     ∀ st', MapServer.createUser b st' = (st', fail 400 "name and email are required")).
Proof.
  split; [intros st id b u Hu; by apply array_updateUser|].
  split; [intros st id b u Hu; by apply map_updateUser|].
  split; [done|]. split; [done|]. split; [by intros []|].
  intros st b Hb. split; [by apply array_createUser_empty|].
  intros st'. by apply map_createUser_empty.
Qed.

(** On the seed data: Alice's name becomes the empty string and her email
    stays, in both servers. *)
Lemma updateUser_applies_payload_witness :
  let alice := User.mk "1" (VStr "Alice") (VStr "alice@example.com") in
  let b := UserBody (VStr "") VUndefined in
  JSArray.find (ArrayServer.user_is "1") (ArrayServer.users ArrayServer.seed) = Some alice ∧
  JSMap.get "1" (MapServer.users MapServer.seed) = Some alice ∧
  (ArrayServer.updateUser "1" b ArrayServer.seed).2
  = Response 200 (BUser (User.mk "1" (VStr "") (VStr "alice@example.com"))) ∧
  (MapServer.updateUser "1" b MapServer.seed).2
  = Response 200 (BUser (User.mk "1" (VStr "") (VStr "alice@example.com"))).
Proof.
  cbv zeta. split; [reflexivity|]. split; [reflexivity|]. split.
  - apply (proj1 updateUser_applies_payload ArrayServer.seed "1"
             (UserBody (VStr "") VUndefined)
             (User.mk "1" (VStr "Alice") (VStr "alice@example.com"))).
    reflexivity.
  - apply (proj1 (proj2 updateUser_applies_payload) MapServer.seed "1"
             (UserBody (VStr "") VUndefined)
             (User.mk "1" (VStr "Alice") (VStr "alice@example.com"))).
    reflexivity.
Defined.

(** C7. The guard takes the key from the [X-API-Key] header when it is
    there and not empty, else from an [Authorization] header of the form
    [ApiKey <token>]; it answers 401 "missing API key" exactly when the
    request presents no key, 401 "invalid API key" exactly when the key it
    presents is not the configured one, and lets the request through
    exactly when it presents the configured key.  The pattern is matched
    as the words say: [match_ApiKey] finds a token exactly when the header
    splits into scheme, spaces and token. *)
Theorem apiKeyRequired_verdict (env x_api_key authorization : option string) :
  (Auth.apiKeyRequired env x_api_key authorization = Auth.Reject (fail 401 "missing API key")
   ↔ ¬ ∃ key, presents x_api_key authorization key) ∧
  (Auth.apiKeyRequired env x_api_key authorization = Auth.Reject (fail 401 "invalid API key")
   ↔ ∃ key, presents x_api_key authorization key ∧ key ≠ Auth.API_KEY env) ∧
  (Auth.apiKeyRequired env x_api_key authorization = Auth.Next
   ↔ presents x_api_key authorization (Auth.API_KEY env)) ∧
  (∀ auth token, Auth.match_ApiKey auth = Some token ↔ ApiKey_token auth token) ∧
  (∀ auth, Auth.match_ApiKey auth = None
           ↔ ¬ ∃ scheme spaces token, ApiKey_split auth scheme spaces token).
Proof.
  pose proof (API_KEY_nonempty env) as Hkey.
  assert (Hp : ∀ key, presents x_api_key authorization key
                      ↔ Auth.provided x_api_key authorization = key ∧ key ≠ "")
    by apply provided_presents.
  unfold Auth.apiKeyRequired.
  set (p := Auth.provided x_api_key authorization) in *.
  split; [|split; [|split; [|split]]].
  - case_bool_decide as He.
    + split; [|done]. intros _ (key & [Hk Hne]%Hp). congruence.
    + case_bool_decide; cbn [negb]; (split; [done|]); intros Hno;
        exfalso; apply Hno; exists p; by apply Hp.
  - case_bool_decide as He.
    + split; [done|]. intros (key & [Hk Hne]%Hp & _). congruence.
    + case_bool_decide as Heq; cbn [negb].
      * split; [done|]. intros (key & [Hk Hne]%Hp & Hdiff). congruence.
      * split; [|done]. intros _. exists p. split; [by apply Hp|done].
  - case_bool_decide as He.
    + split; [done|]. intros [Hk _]%Hp. congruence.
    + case_bool_decide as Heq; cbn [negb].
      * split; [|done]. intros _. apply Hp. by rewrite Heq.
      * split; [done|]. intros [Hk _]%Hp. congruence.
  - apply match_ApiKey_Some.
  - apply match_ApiKey_None.
Qed.

(** An empty [userId] is the id of no user and the title is not empty, yet
    [createTodo] answers "userId and title are required", not "invalid
    userId". *)
Lemma createTodo_empty_userId_is_required :
  let b := TodoBody (VStr "") (VStr "Task") VUndefined in
  (∀ u, u ∈ ArrayServer.users ArrayServer.seed → b_userId b ≠ VStr (User.id u)) ∧
  (∀ u, u ∈ JSMap.values (MapServer.users MapServer.seed) → b_userId b ≠ VStr (User.id u)) ∧
  truthy (b_title b) = true ∧
  ArrayServer.createTodo b ArrayServer.seed
  = (ArrayServer.seed, fail 400 "userId and title are required") ∧
  MapServer.createTodo b MapServer.seed
  = (MapServer.seed, fail 400 "userId and title are required") ∧
  fail 400 "userId and title are required" ≠ fail 400 "invalid userId".
Proof.
  cbv zeta. split; [|split].
  - intros u Hu. vm_compute in Hu.
    repeat (apply elem_of_cons in Hu as [->|Hu]); [done..|by apply elem_of_nil in Hu].
  - intros u Hu. vm_compute in Hu.
    repeat (apply elem_of_cons in Hu as [->|Hu]); [done..|by apply elem_of_nil in Hu].
  - repeat split; by vm_compute.
Qed.

(** C8, amended.  With a [userId] and a title that are both truthy (not
    empty, not zero, not null, not false), a [userId] that is the id of
    no user makes [createTodo] answer 400 "invalid userId" and leave the
    store, its todos with it, as it was; with a [userId] or a title that is
    missing or falsy it answers 400 "userId and title are required" and
    leaves the store as it was. *)
Theorem createTodo_rejections :
  (∀ st b,
     truthy (b_userId b) = true → truthy (b_title b) = true →
     (∀ u, u ∈ ArrayServer.users st → b_userId b ≠ VStr (User.id u)) →
     ArrayServer.createTodo b st = (st, fail 400 "invalid userId")) ∧
  (∀ ops b,
     let st := MapServer.run ops in
     truthy (b_userId b) = true → truthy (b_title b) = true →
     (∀ u, u ∈ JSMap.values (MapServer.users st) → b_userId b ≠ VStr (User.id u)) →
     MapServer.createTodo b st = (st, fail 400 "invalid userId")) ∧
  (∀ st b,
     truthy (b_userId b) = false ∨ truthy (b_title b) = false →
     ArrayServer.createTodo b st = (st, fail 400 "userId and title are required") ∧
     ∀ st', MapServer.createTodo b st' = (st', fail 400 "userId and title are required")) ∧
  truthy VUndefined = false.
Proof.
  split; [intros st b; apply array_createTodo_unknown|].
  split; [intros ops b st; apply map_createTodo_unknown, map_run_wf|].
  split; [|done].
  intros st b Hb. split; [by apply array_createTodo_falsy|].
  intros st'. by apply map_createTodo_falsy.
Qed.

(** On the seed data: a todo for the user 999, who does not exist. *)
Lemma createTodo_rejections_witness :
  let b := TodoBody (VStr "999") (VStr "Task") VUndefined in
  truthy (b_userId b) = true ∧ truthy (b_title b) = true ∧
  (∀ u, u ∈ ArrayServer.users ArrayServer.seed → b_userId b ≠ VStr (User.id u)) ∧
  ArrayServer.createTodo b ArrayServer.seed = (ArrayServer.seed, fail 400 "invalid userId").
Proof.
  cbv zeta.
  assert (Hno : ∀ u, u ∈ ArrayServer.users ArrayServer.seed
                     → VStr "999" ≠ VStr (User.id u)).
  { intros u Hu. vm_compute in Hu.
    repeat (apply elem_of_cons in Hu as [->|Hu]); [done..|by apply elem_of_nil in Hu]. }
  split; [reflexivity|]. split; [reflexivity|]. split; [exact Hno|].
  apply (proj1 createTodo_rejections ArrayServer.seed
           (TodoBody (VStr "999") (VStr "Task") VUndefined) eq_refl eq_refl Hno).
Defined.

(** The seed data has no todo whose [userId] is the empty string, yet
    [listTodos] with the empty string for [userId] returns every todo: the
    handler reads an empty [userId] as none given. *)
Lemma listTodos_empty_userId_returns_all :
  List.filter (wantedb (Some "") None) (ArrayServer.todos ArrayServer.seed) = [] ∧
  ArrayServer.listTodos (query_userId (Some "")) (query_completed None) ArrayServer.seed
  = Response 200 (BTodos (ArrayServer.todos ArrayServer.seed)) ∧
  MapServer.listTodos (query_userId (Some "")) (query_completed None) MapServer.seed
  = Response 200 (BTodos (JSMap.values (MapServer.todos MapServer.seed))) ∧
  length (ArrayServer.todos ArrayServer.seed) = 3 ∧
  length (JSMap.values (MapServer.todos MapServer.seed)) = 3.
Proof. repeat split; by vm_compute. Qed.

(** C9, amended.  [listTodos] returns the todos with exactly the [userId] asked
    for, when one is given (a [userId] that is not empty), and exactly
    the [completed] asked for, when one is given ([true] or [false]), in
    the order of the store, which is the order of insertion: [createTodo]
    puts the new todo last.  An empty [userId] is read as none.  For a
    store whose todos are completed, not completed and completed, in that
    order, [listTodos(completed=true)] is the first and the third. *)
Theorem listTodos_filters :
  (∀ userId completed x, wantedb userId completed x = true ↔ wanted userId completed x) ∧
  (∀ st userId completed,
     (∀ u, userId = Some u → u ≠ "") →
     ArrayServer.listTodos (query_userId userId) (query_completed completed) st
     = Response 200 (BTodos (List.filter (wantedb userId completed) (ArrayServer.todos st)))) ∧
  (∀ st userId completed,
     (∀ u, userId = Some u → u ≠ "") →
     MapServer.listTodos (query_userId userId) (query_completed completed) st
     = Response 200
         (BTodos (List.filter (wantedb userId completed) (JSMap.values (MapServer.todos st))))) ∧
  (∀ st completed,
     ArrayServer.listTodos (VStr "") completed st = ArrayServer.listTodos VUndefined completed st) ∧
  (∀ st completed,
     MapServer.listTodos (VStr "") completed st = MapServer.listTodos VUndefined completed st) ∧
  (∀ st t1 t2 t3,
     ArrayServer.todos st = [t1; t2; t3] →
     Todo.completed t1 = VBool true → Todo.completed t2 = VBool false →
     Todo.completed t3 = VBool true →
     ArrayServer.listTodos VUndefined (VStr "true") st = Response 200 (BTodos [t1; t3])) ∧
  (∀ st t1 t2 t3,
     JSMap.values (MapServer.todos st) = [t1; t2; t3] →
     Todo.completed t1 = VBool true → Todo.completed t2 = VBool false →
     Todo.completed t3 = VBool true →
     MapServer.listTodos VUndefined (VStr "true") st = Response 200 (BTodos [t1; t3])) ∧
  (∀ st b st' x,
     ArrayServer.createTodo b st = (st', Response 201 (BTodo x)) →
     ArrayServer.todos st' = ArrayServer.todos st ++ [x]) ∧
  (∀ ops b st' x,
     MapServer.createTodo b (MapServer.run ops) = (st', Response 201 (BTodo x)) →
     JSMap.values (MapServer.todos st') = JSMap.values (MapServer.todos (MapServer.run ops)) ++ [x]).
Proof.
  split; [apply wantedb_spec|].
  split; [intros st userId completed; apply array_listTodos|].
  split; [intros st userId completed; apply map_listTodos|].
  split; [done|]. split; [done|].
  assert (Hex : ∀ t1 t2 t3,
    Todo.completed t1 = VBool true → Todo.completed t2 = VBool false →
    Todo.completed t3 = VBool true →
    List.filter (wantedb None (Some true)) [t1; t2; t3] = [t1; t3]).
  { intros t1 t2 t3 H1 H2 H3. unfold wantedb. cbn. by rewrite H1, H2, H3. }
  split.
  { intros st t1 t2 t3 Hst H1 H2 H3.
    etrans; [by apply (array_listTodos st None (Some true))|]. by rewrite Hst, Hex. }
  split.
  { intros st t1 t2 t3 Hst H1 H2 H3.
    etrans; [by apply (map_listTodos st None (Some true))|]. by rewrite Hst, Hex. }
  split.
  { intros st b st' x Hc. by apply array_createTodo_created in Hc as (_ & ? & _). }
  intros ops b st' x Hc.
  apply map_createTodo_created in Hc as (_ & -> & _); [|apply map_run_wf].
  unfold JSMap.values. by rewrite fmap_app.
Qed.

(** On the seed data: the completed todos of user 1. *)
Lemma listTodos_filters_witness :
  (∀ u, Some "1" = Some u → u ≠ "") ∧
  ArrayServer.listTodos (VStr "1") (VStr "true") ArrayServer.seed
  = Response 200 (BTodos [Todo.mk "4" (VStr "1") (VStr "Edit wedding photos") (VBool true)]).
Proof.
  assert (Hne : ∀ u, Some "1" = Some u → u ≠ "") by (by intros u [= <-]).
  split; [exact Hne|].
  exact (proj1 (proj2 listTodos_filters) ArrayServer.seed (Some "1") (Some true) Hne).
Defined.

(** C10. The [completed] of every todo of the store is a strict boolean
    after any sequence of store operations on the seed data, in both
    servers: [createTodo] stores [!!completed] ([false] when the payload
    has none), and [updateTodo] stores [!!completed] when the payload has
    one, whatever its value. *)
Theorem completed_is_boolean :
  (∀ ops, array_booleans (ArrayServer.run ops)) ∧
  (∀ ops, map_booleans (MapServer.run ops)) ∧
  (∀ st b st' x,
     ArrayServer.createTodo b st = (st', Response 201 (BTodo x)) →
     Todo.completed x = VBool (truthy (b_completed b)) ∧ x ∈ ArrayServer.todos st') ∧
  (∀ ops b st' x,
     MapServer.createTodo b (MapServer.run ops) = (st', Response 201 (BTodo x)) →
     Todo.completed x = VBool (truthy (b_completed b)) ∧
     x ∈ JSMap.values (MapServer.todos st')) ∧
  (∀ st id b x,
     JSArray.find (ArrayServer.todo_is id) (ArrayServer.todos st) = Some x →
     defined (b_completed b) = true →
     ∃ x', JSArray.find (ArrayServer.todo_is id)
                        (ArrayServer.todos (ArrayServer.updateTodo id b st).1) = Some x' ∧
           Todo.completed x' = VBool (truthy (b_completed b))) ∧
  (∀ st id b x,
     JSMap.get id (MapServer.todos st) = Some x →
     defined (b_completed b) = true →
     ∃ x', JSMap.get id (MapServer.todos (MapServer.updateTodo id b st).1) = Some x' ∧
           Todo.completed x' = VBool (truthy (b_completed b))) ∧
  truthy VUndefined = false.
Proof.
  split; [apply array_run_booleans|]. split; [apply map_run_booleans|].
  split.
  { intros st b st' x Hc. apply array_createTodo_created in Hc as (-> & -> & _).
    split; [done|]. apply elem_of_app. right. by left. }
  split.
  { intros ops b st' x Hc.
    apply map_createTodo_created in Hc as (-> & -> & _); [|apply map_run_wf].
    split; [done|]. apply elem_of_values. eexists. apply elem_of_app. right. by left. }
  split; [intros st id b x; apply array_updateTodo_completed|].
  split; [intros st id b x; apply map_updateTodo_completed|done].
Qed.

(** On the seed data: a todo updated with the number 1 for [completed]
    holds [true]. *)
Lemma completed_is_boolean_witness :
  let b := TodoBody VUndefined VUndefined (VNum 1) in
  JSArray.find (ArrayServer.todo_is "3") (ArrayServer.todos ArrayServer.seed)
  = Some (Todo.mk "3" (VStr "1") (VStr "Buy coffee") (VBool false)) ∧
  defined (b_completed b) = true ∧
  ∃ x', JSArray.find (ArrayServer.todo_is "3")
                     (ArrayServer.todos (ArrayServer.updateTodo "3" b ArrayServer.seed).1)
        = Some x' ∧
        Todo.completed x' = VBool true.
Proof.
  cbv zeta. split; [reflexivity|]. split; [reflexivity|].
  exact (proj1 (proj2 (proj2 (proj2 (proj2 completed_is_boolean))))
           ArrayServer.seed "3" (TodoBody VUndefined VUndefined (VNum 1))
           (Todo.mk "3" (VStr "1") (VStr "Buy coffee") (VBool false)) eq_refl eq_refl).
Defined.

(** * More of the entity store: ids, round trips, failures *)
Section FreshFacts.

Lemma issued_mono n m id : n ≤ m → issued n id → issued m id.
Proof. intros Hle (k & Hk & ->). exists k. split; [lia|done]. Qed.

Lemma issued_not_next n id : issued n id → id ≠ pretty n.
Proof. intros (k & Hk & ->) Heq%(inj pretty). lia. Qed.

Lemma bfilter_sublist {A} (p : A → bool) (l : list A) : List.filter p l `sublist_of` l.
Proof.
  induction l as [|x l IH]; cbn; [done|].
  destruct (p x); by constructor.
Qed.

Lemma array_step_fresh st o : array_fresh st → array_fresh (ArrayServer.step st o).1.
Proof.
  intros [Hnd Hiss]. unfold array_fresh, array_ids in *.
  destruct o as [b|id b|id|b|id b|id]; cbn [ArrayServer.step].
  - unfold ArrayServer.createUser. destruct (_ || _); [done|]. cbn.
    unfold JSArray.push. rewrite fmap_app. cbn [fmap list_fmap].
    assert (Hperm : (User.id <$> ArrayServer.users st) ++ [pretty (ArrayServer.nextId st)]
                      ++ (Todo.id <$> ArrayServer.todos st)
                    ≡ₚ pretty (ArrayServer.nextId st)
                       :: (User.id <$> ArrayServer.users st)
                       ++ (Todo.id <$> ArrayServer.todos st))
      by (by rewrite Permutation_middle).
    rewrite <- app_assoc. split.
    + rewrite Hperm. apply NoDup_cons. split; [|done].
      intros Hin. by apply Hiss, issued_not_next in Hin.
    + intros id. rewrite Hperm. intros [->|Hin]%elem_of_cons.
      * exists (ArrayServer.nextId st). split; [lia|done].
      * eapply issued_mono; [|by apply Hiss]. lia.
  - unfold ArrayServer.updateUser.
    destruct (JSArray.find _ (ArrayServer.users st)) as [user|] eqn:Hf; [|done]. cbn.
    rewrite mutate_found_fmap; [done|].
    intros y Hy. assert (y = user) as -> by congruence.
    by destruct (defined (b_email b)), (defined (b_name b)).
  - destruct (array_deleteUser st id) as [->|(_ & Ht & _)]; [done|].
    unfold ArrayServer.deleteUser in *.
    destruct (JSArray.findIndex _ (ArrayServer.users st)) as [idx|]; [|done].
    destruct (ArrayServer.users st !! idx) as [removed|]; [|done]. cbn in *.
    rewrite Ht.
    assert (Hsub : (User.id <$> JSArray.splice1 idx (ArrayServer.users st))
                   ++ (Todo.id <$> List.filter (not_of id) (ArrayServer.todos st))
                   `sublist_of` (User.id <$> ArrayServer.users st)
                                ++ (Todo.id <$> ArrayServer.todos st)).
    { apply sublist_app; apply fmap_sublist; [apply sublist_delete|apply bfilter_sublist]. }
    split; [by eapply sublist_NoDup|].
    intros k Hk. apply Hiss. by eapply elem_of_sublist.
  - unfold ArrayServer.createTodo. destruct (_ || _); [done|].
    destruct (JSArray.find _ (ArrayServer.users st)); [|done]. cbn.
    unfold JSArray.push. rewrite fmap_app. cbn [fmap list_fmap].
    rewrite app_assoc. split.
    + rewrite <- Permutation_cons_append. apply NoDup_cons. split; [|done].
      intros Hin. by apply Hiss, issued_not_next in Hin.
    + intros id. rewrite <- Permutation_cons_append. intros [->|Hin]%elem_of_cons.
      * exists (ArrayServer.nextId st). split; [lia|done].
      * eapply issued_mono; [|by apply Hiss]. lia.
  - unfold ArrayServer.updateTodo.
    destruct (JSArray.find _ (ArrayServer.todos st)) as [todo|] eqn:Hf; [|done].
    set (todo' := if defined (b_completed b) then _ else _).
    assert (Hid : Todo.id todo' = Todo.id todo).
    { unfold todo'. by destruct (defined (b_completed b)), (defined (b_title b)). }
    destruct (defined (b_userId b)); [destruct (JSArray.find _ (ArrayServer.users st))|];
      cbn; (rewrite mutate_found_fmap; [done|]);
      intros y Hy; by assert (y = todo) as -> by congruence.
  - unfold ArrayServer.deleteTodo.
    destruct (JSArray.findIndex _ (ArrayServer.todos st)) as [idx|]; [|done]. cbn.
    assert (Hsub : (User.id <$> ArrayServer.users st)
                   ++ (Todo.id <$> JSArray.splice1 idx (ArrayServer.todos st))
                   `sublist_of` (User.id <$> ArrayServer.users st)
                                ++ (Todo.id <$> ArrayServer.todos st)).
    { apply sublist_app; [done|]. apply fmap_sublist, sublist_delete. }
    split; [by eapply sublist_NoDup|].
    intros k Hk. apply Hiss. by eapply elem_of_sublist.
Qed.

Lemma array_seed_fresh : array_fresh ArrayServer.seed.
Proof.
  split.
  - apply (bool_decide_unpack _). by vm_compute.
  - intros id Hid. vm_compute in Hid.
    repeat (apply elem_of_cons in Hid as [->|Hid]); [..|by apply elem_of_nil in Hid].
    + exists 1. split; [cbn; lia|done].
    + exists 2. split; [cbn; lia|done].
    + exists 3. split; [cbn; lia|done].
    + exists 4. split; [cbn; lia|done].
    + exists 5. split; [cbn; lia|done].
Qed.

Lemma array_run_fresh ops : array_fresh (ArrayServer.run ops).
Proof.
  induction ops as [|o ops IH] using rev_ind; [apply array_seed_fresh|].
  rewrite array_run_snoc_op. by apply array_step_fresh.
Qed.

Lemma map_step_fresh st o : map_fresh st → map_fresh (MapServer.step st o).1.
Proof.
  intros [Hnd Hiss]. unfold map_fresh, map_ids in *.
  destruct o as [b|id b|id|b|id b|id]; cbn [MapServer.step].
  - unfold MapServer.createUser. destruct (_ || _); [done|]. cbn.
    assert (Hnew : JSMap.get (pretty (MapServer.nextId st)) (MapServer.users st) = None).
    { apply get_None. intros Hin.
      eapply issued_not_next; [apply Hiss|done]. apply elem_of_app. by left. }
    rewrite set_fresh, fmap_app by done. cbn [fmap list_fmap fst].
    assert (Hperm : (MapServer.users st).*1 ++ [pretty (MapServer.nextId st)]
                      ++ (MapServer.todos st).*1
                    ≡ₚ pretty (MapServer.nextId st)
                       :: (MapServer.users st).*1 ++ (MapServer.todos st).*1)
      by (by rewrite Permutation_middle).
    rewrite <- app_assoc. split.
    + rewrite Hperm. apply NoDup_cons. split; [|done].
      intros Hin. by apply Hiss, issued_not_next in Hin.
    + intros id. rewrite Hperm. intros [->|Hin]%elem_of_cons.
      * exists (MapServer.nextId st). split; [lia|done].
      * eapply issued_mono; [|by apply Hiss]. lia.
  - unfold MapServer.updateUser.
    destruct (JSMap.get id (MapServer.users st)); [|done]. cbn.
    by rewrite mutate_found_keys.
  - unfold MapServer.deleteUser.
    destruct (JSMap.get id (MapServer.users st)); [|done]. cbn.
    assert (Hsub : (JSMap.delete id (MapServer.users st)).*1
                   ++ (MapServer.cascade id (MapServer.todos st)).*1
                   `sublist_of` (MapServer.users st).*1 ++ (MapServer.todos st).*1).
    { apply sublist_app; [apply bfilter_keys_sublist|apply cascade_keys_sublist]. }
    split; [by eapply sublist_NoDup|].
    intros k Hk. apply Hiss. by eapply elem_of_sublist.
  - unfold MapServer.createTodo. destruct (_ || _); [done|].
    destruct (JSMap.get_value _ (MapServer.users st)); [|done]. cbn.
    assert (Hnew : JSMap.get (pretty (MapServer.nextId st)) (MapServer.todos st) = None).
    { apply get_None. intros Hin.
      eapply issued_not_next; [apply Hiss|done]. apply elem_of_app. by right. }
    rewrite set_fresh, fmap_app by done. cbn [fmap list_fmap fst].
    rewrite app_assoc. split.
    + rewrite <- Permutation_cons_append. apply NoDup_cons. split; [|done].
      intros Hin. by apply Hiss, issued_not_next in Hin.
    + intros id. rewrite <- Permutation_cons_append. intros [->|Hin]%elem_of_cons.
      * exists (MapServer.nextId st). split; [lia|done].
      * eapply issued_mono; [|by apply Hiss]. lia.
  - unfold MapServer.updateTodo.
    destruct (JSMap.get id (MapServer.todos st)); [|done].
    destruct (defined (b_userId b)); [destruct (JSMap.get_value _ (MapServer.users st))|];
      cbn; by rewrite mutate_found_keys.
  - unfold MapServer.deleteTodo.
    destruct (JSMap.get id (MapServer.todos st)); [|done]. cbn.
    assert (Hsub : (MapServer.users st).*1 ++ (JSMap.delete id (MapServer.todos st)).*1
                   `sublist_of` (MapServer.users st).*1 ++ (MapServer.todos st).*1).
    { apply sublist_app; [done|apply bfilter_keys_sublist]. }
    split; [by eapply sublist_NoDup|].
    intros k Hk. apply Hiss. by eapply elem_of_sublist.
Qed.

Lemma map_seed_fresh : map_fresh MapServer.seed.
Proof.
  split.
  - apply (bool_decide_unpack _). by vm_compute.
  - intros id Hid. vm_compute in Hid.
    repeat (apply elem_of_cons in Hid as [->|Hid]); [..|by apply elem_of_nil in Hid].
    + exists 1. split; [cbn; lia|done].
    + exists 2. split; [cbn; lia|done].
    + exists 3. split; [cbn; lia|done].
    + exists 4. split; [cbn; lia|done].
    + exists 5. split; [cbn; lia|done].
Qed.

Lemma map_run_fresh ops : map_fresh (MapServer.run ops).
Proof.
  induction ops as [|o ops IH] using rev_ind; [apply map_seed_fresh|].
  rewrite map_run_snoc_op. by apply map_step_fresh.
Qed.

End FreshFacts.

Section RoundTripFacts.
Import JSArray.

Lemma pretty_N_go_nonempty x s : s ≠ "" → pretty_N_go x s ≠ "".
Proof.
  revert s. induction (N.lt_wf_0 x) as [x _ IH]; intros s Hs.
  assert (x = 0 ∨ 0 < x)%N as [->|Hx] by lia.
  - by rewrite pretty_N_go_0.
  - rewrite pretty_N_go_step by done. apply IH; [by apply N.div_lt|done].
Qed.

Lemma pretty_nat_nonempty (n : nat) : pretty n ≠ "".
Proof.
  unfold pretty, pretty_nat, pretty, pretty_N. case_decide as Hn; [done|].
  rewrite pretty_N_go_step by lia. by apply pretty_N_go_nonempty.
Qed.

Lemma issued_nonempty n id : issued n id → id ≠ "".
Proof. intros (k & _ & ->). apply pretty_nat_nonempty. Qed.

Lemma find_app {A} (p : A → bool) (l k : list A) :
  find p (l ++ k) = match find p l with Some x => Some x | None => find p k end.
Proof.
  induction l as [|x l IH]; cbn; [done|]. by destruct (p x).
Qed.

(** With distinct keys, removing the first element under a key removes
    every element under it. *)
Lemma splice1_found {A} (f : A → string) (k : string) (l : list A) idx :
  NoDup (f <$> l) →
  findIndex (λ x, bool_decide (f x = k)) l = Some idx →
  splice1 idx l = List.filter (λ x, negb (bool_decide (f x = k))) l.
Proof.
  revert idx. induction l as [|x l IH]; intros idx Hnd; cbn; [done|].
  apply NoDup_cons in Hnd as [Hx Hnd].
  case_bool_decide as Hk; cbn.
  - intros [= <-]. cbn. symmetry. apply forallb_filter_id, forallb_forall.
    intros y Hy%list_elem_of_In. apply negb_true_iff, bool_decide_eq_false.
    intros Hfy. apply Hx. rewrite Hk, <- Hfy. by apply list_elem_of_fmap_2.
  - destruct (findIndex _ l) as [j|] eqn:Hj; [|done]. intros [= <-]. cbn.
    f_equal. by apply IH.
Qed.

Lemma find_bfilter_other {A} (p q : A → bool) (l : list A) :
  (∀ x, p x = true → q x = true) → find p (List.filter q l) = find p l.
Proof.
  intros Hpq. induction l as [|x l IH]; cbn; [done|].
  destruct (q x) eqn:Hq; cbn.
  - destruct (p x); [done|apply IH].
  - destruct (p x) eqn:Hp; [|apply IH]. apply Hpq in Hp. congruence.
Qed.

Lemma find_bfilter_none {A} (p q : A → bool) (l : list A) :
  (∀ x, p x = true → q x = false) → find p (List.filter q l) = None.
Proof.
  intros Hpq. apply find_None. intros x [Hx Hq]%elem_of_bfilter.
  destruct (p x) eqn:Hp; [|done]. apply Hpq in Hp. congruence.
Qed.

Lemma array_find_next_user st :
  array_fresh st →
  find (ArrayServer.user_is (pretty (ArrayServer.nextId st))) (ArrayServer.users st) = None.
Proof.
  intros [_ Hiss]. apply find_None. intros u Hu.
  apply bool_decide_eq_false. intros Hid.
  eapply issued_not_next; [apply Hiss|exact Hid].
  apply elem_of_app. left. by apply list_elem_of_fmap_2.
Qed.

Lemma array_find_next_todo st :
  array_fresh st →
  find (ArrayServer.todo_is (pretty (ArrayServer.nextId st))) (ArrayServer.todos st) = None.
Proof.
  intros [_ Hiss]. apply find_None. intros u Hu.
  apply bool_decide_eq_false. intros Hid.
  eapply issued_not_next; [apply Hiss|exact Hid].
  apply elem_of_app. right. by apply list_elem_of_fmap_2.
Qed.

Lemma bfilter_nil {A} (p : A → bool) (l : list A) :
  (∀ x, x ∈ l → p x = false) → List.filter p l = [].
Proof.
  induction l as [|x l IH]; cbn; intros H; [done|].
  rewrite (H x) by (by left). apply IH. intros y Hy. apply H. by right.
Qed.

Lemma get_app {A} k (m m' : list (string * A)) :
  JSMap.get k (m ++ m') = match JSMap.get k m with Some v => Some v | None => JSMap.get k m' end.
Proof.
  induction m as [|[k' v'] m IH]; cbn; [done|]. by case_bool_decide.
Qed.

Lemma get_delete k (m : list (string * Todo.t)) : JSMap.get k (JSMap.delete k m) = None.
Proof.
  apply get_None. intros ([k' x] & -> & [_ Hk]%elem_of_delete)%list_elem_of_fmap. done.
Qed.

Lemma get_delete_gen {A} k k' (m : list (string * A)) :
  JSMap.get k' (JSMap.delete k m) = if bool_decide (k' = k) then None else JSMap.get k' m.
Proof.
  unfold JSMap.delete. induction m as [|[k0 v0] m IH]; cbn.
  - by case_bool_decide.
  - destruct (bool_decide (k0 = k)) eqn:Hk0; cbn.
    + apply bool_decide_eq_true in Hk0 as ->. rewrite IH.
      case_bool_decide as Hk'; [done|]. by rewrite bool_decide_eq_false_2.
    + rewrite IH. apply bool_decide_eq_false in Hk0.
      case_bool_decide as Hk'; [|done]. subst k'. by rewrite bool_decide_eq_false_2.
Qed.

Lemma map_get_next_user st :
  map_fresh st → JSMap.get (pretty (MapServer.nextId st)) (MapServer.users st) = None.
Proof.
  intros [_ Hiss]. apply get_None. intros Hin.
  eapply issued_not_next; [apply Hiss|done]. apply elem_of_app. by left.
Qed.

Lemma map_get_next_todo st :
  map_fresh st → JSMap.get (pretty (MapServer.nextId st)) (MapServer.todos st) = None.
Proof.
  intros [_ Hiss]. apply get_None. intros Hin.
  eapply issued_not_next; [apply Hiss|done]. apply elem_of_app. by right.
Qed.

Lemma get_bfilter_snd {A} (q : A → bool) k (m : list (string * A)) v :
  NoDup m.*1 → JSMap.get k m = Some v →
  JSMap.get k (List.filter (λ e, q e.2) m) = if q v then Some v else None.
Proof.
  intros Hnd Hg. apply get_Some in Hg as Hin. destruct (q v) eqn:Hq.
  - apply get_elem; [by apply NoDup_bfilter_keys|]. by apply elem_of_bfilter.
  - apply get_None. intros ([k' v'] & -> & [Hin' Hq']%elem_of_bfilter)%list_elem_of_fmap.
    cbn in *. assert ((k', v') = (k', v)) as [= ->] by (by eapply keys_unique). congruence.
Qed.

Lemma get_bfilter_none {A} (q : string * A → bool) k (m : list (string * A)) :
  JSMap.get k m = None → JSMap.get k (List.filter q m) = None.
Proof.
  intros Hg%get_None. apply get_None. intros Hin. apply Hg.
  eapply elem_of_sublist; [exact Hin|apply bfilter_keys_sublist].
Qed.

End RoundTripFacts.

(** ** Properties of the entity store beyond the specification *)

(** X1. [makeId] never issues an id twice: after any sequence of store
    operations on the seed data the ids of the users and todos of the
    store are pairwise distinct, and each is the decimal of a number below
    the counter, in both servers. *)
Theorem ids_distinct_and_issued :
  (∀ ops, array_fresh (ArrayServer.run ops)) ∧ (∀ ops, map_fresh (MapServer.run ops)).
Proof. split; [apply array_run_fresh|apply map_run_fresh]. Qed.

(** X2. [createUser] either rejects the payload and leaves the store, or
    answers 201 with a user under an id no user had, puts it last, and
    [getUser] on that id then returns the same user; every other id reads
    as before. *)
Theorem createUser_then_getUser :
  (∀ ops b,
     let st := ArrayServer.run ops in
     let r := ArrayServer.createUser b st in
     r = (st, fail 400 "name and email are required") ∨
     ∃ u, u = User.mk (pretty (ArrayServer.nextId st)) (b_name b) (b_email b) ∧
          r.2 = Response 201 (BUser u) ∧
          ArrayServer.users r.1 = ArrayServer.users st ++ [u] ∧
          ArrayServer.getUser (User.id u) st = fail 404 "user not found" ∧
          ArrayServer.getUser (User.id u) r.1 = Response 200 (BUser u) ∧
          ∀ id, id ≠ User.id u → ArrayServer.getUser id r.1 = ArrayServer.getUser id st) ∧
  (∀ ops b,
     let st := MapServer.run ops in
     let r := MapServer.createUser b st in
     r = (st, fail 400 "name and email are required") ∨
     ∃ u, u = User.mk (pretty (MapServer.nextId st)) (b_name b) (b_email b) ∧
          r.2 = Response 201 (BUser u) ∧
          JSMap.values (MapServer.users r.1) = JSMap.values (MapServer.users st) ++ [u] ∧
          MapServer.getUser (User.id u) st = fail 404 "user not found" ∧
          MapServer.getUser (User.id u) r.1 = Response 200 (BUser u) ∧
          ∀ id, id ≠ User.id u → MapServer.getUser id r.1 = MapServer.getUser id st).
Proof.
  split.
  - intros ops b st r. subst r. unfold ArrayServer.createUser.
    destruct (_ || _); [by left|right]. cbn.
    pose proof (array_find_next_user st (array_run_fresh ops)) as Hnone.
    eexists. split; [reflexivity|]. split; [done|]. split; [done|].
    unfold ArrayServer.getUser, JSArray.push. cbn. rewrite Hnone.
    split; [done|]. rewrite find_app, Hnone. cbn. unfold ArrayServer.user_is at 1. cbn.
    rewrite bool_decide_eq_true_2 by reflexivity. split; [done|].
    intros id Hid. rewrite find_app.
    destruct (JSArray.find (ArrayServer.user_is id) (ArrayServer.users st)); [done|]. cbn.
    unfold ArrayServer.user_is. cbn. by rewrite bool_decide_eq_false_2 by congruence.
  - intros ops b st r. subst r. unfold MapServer.createUser.
    destruct (_ || _); [by left|right]. cbn.
    pose proof (map_get_next_user st (map_run_fresh ops)) as Hnone.
    eexists. split; [reflexivity|]. split; [done|].
    rewrite set_fresh by done. unfold JSMap.values. rewrite fmap_app.
    split; [done|]. unfold MapServer.getUser. cbn. rewrite Hnone.
    split; [done|]. rewrite get_app, Hnone. cbn.
    rewrite bool_decide_eq_true_2 by reflexivity. split; [done|].
    intros id Hid. rewrite get_app.
    destruct (JSMap.get id (MapServer.users st)); [done|]. cbn.
    by rewrite bool_decide_eq_false_2 by congruence.
Qed.

(** X3. [createTodo] either rejects the payload and leaves the store, or
    answers 201 with a todo under an id no todo had, puts it last, and
    [getTodo] on that id then returns the same todo; every other id reads
    as before. *)
Theorem createTodo_then_getTodo :
  (∀ ops b,
     let st := ArrayServer.run ops in
     let r := ArrayServer.createTodo b st in
     r = (st, fail 400 "userId and title are required") ∨
     r = (st, fail 400 "invalid userId") ∨
     ∃ x, x = Todo.mk (pretty (ArrayServer.nextId st)) (b_userId b) (b_title b)
                      (VBool (truthy (b_completed b))) ∧
          r.2 = Response 201 (BTodo x) ∧
          ArrayServer.todos r.1 = ArrayServer.todos st ++ [x] ∧
          ArrayServer.getTodo (Todo.id x) st = fail 404 "todo not found" ∧
          ArrayServer.getTodo (Todo.id x) r.1 = Response 200 (BTodo x) ∧
          ∀ id, id ≠ Todo.id x → ArrayServer.getTodo id r.1 = ArrayServer.getTodo id st) ∧
  (∀ ops b,
     let st := MapServer.run ops in
     let r := MapServer.createTodo b st in
     r = (st, fail 400 "userId and title are required") ∨
     r = (st, fail 400 "invalid userId") ∨
     ∃ x, x = Todo.mk (pretty (MapServer.nextId st)) (b_userId b) (b_title b)
                      (VBool (truthy (b_completed b))) ∧
          r.2 = Response 201 (BTodo x) ∧
          JSMap.values (MapServer.todos r.1) = JSMap.values (MapServer.todos st) ++ [x] ∧
          MapServer.getTodo (Todo.id x) st = fail 404 "todo not found" ∧
          MapServer.getTodo (Todo.id x) r.1 = Response 200 (BTodo x) ∧
          ∀ id, id ≠ Todo.id x → MapServer.getTodo id r.1 = MapServer.getTodo id st).
Proof.
  split.
  - intros ops b st r. subst r. unfold ArrayServer.createTodo.
    destruct (_ || _); [by left|right].
    destruct (JSArray.find _ (ArrayServer.users st)); [right|by left]. cbn.
    rewrite truthy_default.
    pose proof (array_find_next_todo st (array_run_fresh ops)) as Hnone.
    eexists. split; [reflexivity|]. split; [done|]. split; [done|].
    unfold ArrayServer.getTodo, JSArray.push. cbn. rewrite Hnone.
    split; [done|]. rewrite find_app, Hnone. cbn. unfold ArrayServer.todo_is at 1. cbn.
    rewrite bool_decide_eq_true_2 by reflexivity. split; [done|].
    intros id Hid. rewrite find_app.
    destruct (JSArray.find (ArrayServer.todo_is id) (ArrayServer.todos st)); [done|]. cbn.
    unfold ArrayServer.todo_is. cbn. by rewrite bool_decide_eq_false_2 by congruence.
  - intros ops b st r. subst r. unfold MapServer.createTodo.
    destruct (_ || _); [by left|right].
    destruct (JSMap.get_value _ (MapServer.users st)); [right|by left]. cbn.
    rewrite truthy_default.
    pose proof (map_get_next_todo st (map_run_fresh ops)) as Hnone.
    eexists. split; [reflexivity|]. split; [done|].
    rewrite set_fresh by done. unfold JSMap.values. rewrite fmap_app.
    split; [done|]. unfold MapServer.getTodo. cbn. rewrite Hnone.
    split; [done|]. rewrite get_app, Hnone. cbn.
    rewrite bool_decide_eq_true_2 by reflexivity. split; [done|].
    intros id Hid. rewrite get_app.
    destruct (JSMap.get id (MapServer.todos st)); [done|]. cbn.
    by rewrite bool_decide_eq_false_2 by congruence.
Qed.

(** X4. [deleteUser] either answers 404 and leaves the store, or answers
    200, after which [getUser] on the id answers 404, every other id reads
    as before, the remaining users keep their order, the counter is
    unchanged, the todos left are those of the other users in their
    order, and [listTodos] for the deleted user is empty. *)
Theorem deleteUser_then_getUser :
  (∀ ops id,
     let st := ArrayServer.run ops in
     let r := ArrayServer.deleteUser id st in
     r = (st, fail 404 "user not found") ∨
     r.2 = Response 200 BOk ∧
     ArrayServer.users r.1
     = List.filter (λ u, negb (ArrayServer.user_is id u)) (ArrayServer.users st) ∧
     ArrayServer.todos r.1 = List.filter (not_of id) (ArrayServer.todos st) ∧
     ArrayServer.getUser id r.1 = fail 404 "user not found" ∧
     (∀ id', id' ≠ id → ArrayServer.getUser id' r.1 = ArrayServer.getUser id' st) ∧
     ArrayServer.listTodos (VStr id) VUndefined r.1 = Response 200 (BTodos []) ∧
     ArrayServer.nextId r.1 = ArrayServer.nextId st) ∧
  (∀ ops id,
     let st := MapServer.run ops in
     let r := MapServer.deleteUser id st in
     r = (st, fail 404 "user not found") ∨
     r.2 = Response 200 BOk ∧
     MapServer.users r.1
     = List.filter (λ e, negb (bool_decide (e.1 = id))) (MapServer.users st) ∧
     MapServer.todos r.1 = List.filter (λ e, not_of id e.2) (MapServer.todos st) ∧
     MapServer.getUser id r.1 = fail 404 "user not found" ∧
     (∀ id', id' ≠ id → MapServer.getUser id' r.1 = MapServer.getUser id' st) ∧
     MapServer.listTodos (VStr id) VUndefined r.1 = Response 200 (BTodos []) ∧
     MapServer.nextId r.1 = MapServer.nextId st).
Proof.
  split.
  - intros ops id st r. subst r.
    destruct (array_run_fresh ops) as [Hnd Hiss]. fold st in Hnd, Hiss.
    unfold array_ids in *. apply NoDup_app in Hnd as (Hndu & _ & _).
    unfold ArrayServer.deleteUser.
    destruct (JSArray.findIndex (ArrayServer.user_is id) (ArrayServer.users st))
      as [idx|] eqn:Hidx; [|by left].
    destruct (findIndex_Some _ _ _ Hidx) as (u & Hu & Hid%bool_decide_eq_true & _).
    rewrite Hu. right. rewrite cascade_all. cbn.
    rewrite (splice1_found User.id id _ idx Hndu Hidx), Hid.
    apply list_elem_of_lookup_2 in Hu as Hin.
    split; [done|]. split; [done|]. split; [done|]. unfold ArrayServer.getUser.
    cbn [ArrayServer.users ArrayServer.todos ArrayServer.nextId].
    split.
    { rewrite find_bfilter_none; [done|].
      intros x Hx. by rewrite negb_false_iff. }
    split.
    { intros id' Hne. rewrite find_bfilter_other; [done|].
      intros x Hx%bool_decide_eq_true. apply negb_true_iff, bool_decide_eq_false. congruence. }
    split; [|done].
    unfold ArrayServer.listTodos. cbn.
    assert (Hne : id ≠ "").
    { eapply issued_nonempty, Hiss. apply elem_of_app. left.
      rewrite <- Hid. by apply list_elem_of_fmap_2. }
    rewrite bool_decide_eq_false_2 by done. cbn.
    rewrite bfilter_nil; [done|].
    intros x [_ Hx]%elem_of_bfilter. unfold not_of in Hx. by apply negb_true_iff in Hx.
  - intros ops id st r. subst r.
    destruct (map_run_fresh ops) as [Hnd Hiss]. fold st in Hnd, Hiss.
    destruct (map_run_wf ops) as (Hu & Ht & Huid & _). fold st in Hu, Ht, Huid.
    unfold MapServer.deleteUser.
    destruct (JSMap.get id (MapServer.users st)) as [u|] eqn:Hg; [right|by left]. cbn.
    split; [done|]. split; [done|]. split; [by apply map_cascade_filter|].
    unfold MapServer.getUser.
    cbn [MapServer.users MapServer.todos MapServer.nextId].
    rewrite get_delete_gen, bool_decide_eq_true_2 by done.
    split; [done|]. split.
    { intros id' Hne. by rewrite get_delete_gen, bool_decide_eq_false_2. }
    split; [|done].
    unfold MapServer.listTodos. cbn.
    assert (Hne : id ≠ "").
    { eapply issued_nonempty, Hiss. apply elem_of_app. left.
      apply get_Some in Hg. by apply (list_elem_of_fmap_2 fst) in Hg. }
    rewrite bool_decide_eq_false_2 by done. cbn.
    rewrite bfilter_nil; [done|].
    intros x [k [_ Hx]%elem_of_cascade]%elem_of_values.
    unfold not_of in Hx. by apply negb_true_iff in Hx.
Qed.

(** X5. [deleteTodo] either answers 404 and leaves the store, or answers
    200 and removes that todo and nothing else: [getTodo] on the id then
    answers 404, every other id reads as before, the remaining todos keep
    their order, and the users and the counter are untouched. *)
Theorem deleteTodo_then_getTodo :
  (∀ ops id,
     let st := ArrayServer.run ops in
     let r := ArrayServer.deleteTodo id st in
     r = (st, fail 404 "todo not found") ∨
     r.2 = Response 200 BOk ∧
     ArrayServer.todos r.1
     = List.filter (λ x, negb (ArrayServer.todo_is id x)) (ArrayServer.todos st) ∧
     ArrayServer.getTodo id st ≠ fail 404 "todo not found" ∧
     ArrayServer.getTodo id r.1 = fail 404 "todo not found" ∧
     (∀ id', id' ≠ id → ArrayServer.getTodo id' r.1 = ArrayServer.getTodo id' st) ∧
     ArrayServer.users r.1 = ArrayServer.users st ∧
     ArrayServer.nextId r.1 = ArrayServer.nextId st) ∧
  (∀ ops id,
     let st := MapServer.run ops in
     let r := MapServer.deleteTodo id st in
     r = (st, fail 404 "todo not found") ∨
     r.2 = Response 200 BOk ∧
     MapServer.todos r.1
     = List.filter (λ e, negb (bool_decide (e.1 = id))) (MapServer.todos st) ∧
     MapServer.getTodo id st ≠ fail 404 "todo not found" ∧
     MapServer.getTodo id r.1 = fail 404 "todo not found" ∧
     (∀ id', id' ≠ id → MapServer.getTodo id' r.1 = MapServer.getTodo id' st) ∧
     MapServer.users r.1 = MapServer.users st ∧
     MapServer.nextId r.1 = MapServer.nextId st).
Proof.
  split.
  - intros ops id st r. subst r.
    destruct (array_run_fresh ops) as [Hnd _]. fold st in Hnd.
    unfold array_ids in *. apply NoDup_app in Hnd as (_ & _ & Hndt).
    unfold ArrayServer.deleteTodo.
    destruct (JSArray.findIndex (ArrayServer.todo_is id) (ArrayServer.todos st))
      as [idx|] eqn:Hidx; [right|by left].
    destruct (findIndex_Some _ _ _ Hidx) as (x & Hx & Hid & _).
    cbn [fst snd ArrayServer.users ArrayServer.todos ArrayServer.nextId].
    rewrite (splice1_found Todo.id id _ idx Hndt Hidx).
    split; [done|]. split; [done|]. unfold ArrayServer.getTodo.
    cbn [ArrayServer.users ArrayServer.todos ArrayServer.nextId].
    split.
    { destruct (JSArray.find (ArrayServer.todo_is id) (ArrayServer.todos st)) eqn:Hf; [done|].
      apply list_elem_of_lookup_2 in Hx.
      pose proof (proj1 (find_None _ _) Hf x Hx). congruence. }
    split.
    { rewrite find_bfilter_none; [done|].
      intros y Hy. by rewrite negb_false_iff. }
    split; [|done].
    intros id' Hne. rewrite find_bfilter_other; [done|].
    intros y Hy%bool_decide_eq_true. apply negb_true_iff, bool_decide_eq_false. congruence.
  - intros ops id st r. subst r.
    unfold MapServer.deleteTodo.
    destruct (JSMap.get id (MapServer.todos st)) as [x|] eqn:Hg; [right|by left].
    cbn [fst snd MapServer.users MapServer.todos MapServer.nextId].
    split; [done|]. split; [done|]. unfold MapServer.getTodo.
    cbn [MapServer.users MapServer.todos MapServer.nextId].
    rewrite Hg, get_delete_gen, bool_decide_eq_true_2 by done.
    split; [done|]. split; [done|]. split; [|done].
    intros id' Hne. by rewrite get_delete_gen, bool_decide_eq_false_2.
Qed.

(** X6. Whatever the store, a store operation answers 200, 201, 400 or
    404; it carries an error body exactly when it answers 400 or 404; the
    counter advances by one exactly when it answers 201; a 404 leaves the
    store as it was, and so does a 400 of every operation but
    [updateTodo]. *)
Theorem step_status_and_counter :
  (∀ st o,
     let r := ArrayServer.step st o in
     status r.2 ∈ [200; 201; 400; 404] ∧
     ((∃ msg, json r.2 = BError msg) ↔ status r.2 = 400 ∨ status r.2 = 404) ∧
     ArrayServer.nextId r.1
     = (if bool_decide (status r.2 = 201) then S (ArrayServer.nextId st)
        else ArrayServer.nextId st) ∧
     (status r.2 = 404 → r.1 = st) ∧
     (status r.2 = 400 → (∀ id b, o ≠ UpdateTodo id b) → r.1 = st)) ∧
  (∀ st o,
     let r := MapServer.step st o in
     status r.2 ∈ [200; 201; 400; 404] ∧
     ((∃ msg, json r.2 = BError msg) ↔ status r.2 = 400 ∨ status r.2 = 404) ∧
     MapServer.nextId r.1
     = (if bool_decide (status r.2 = 201) then S (MapServer.nextId st)
        else MapServer.nextId st) ∧
     (status r.2 = 404 → r.1 = st) ∧
     (status r.2 = 400 → (∀ id b, o ≠ UpdateTodo id b) → r.1 = st)).
Proof.
  assert (Hin : ∀ n, n = 200 ∨ n = 201 ∨ n = 400 ∨ n = 404 → n ∈ [200; 201; 400; 404]).
  { intros n [-> | [-> | [-> | ->]]]; repeat constructor. }
  split; intros st o r; subst r; destruct o as [b|id b|id|b|id b|id]; cbn [ArrayServer.step MapServer.step].
  all: unfold ArrayServer.createUser, ArrayServer.updateUser, ArrayServer.deleteUser,
         ArrayServer.createTodo, ArrayServer.updateTodo, ArrayServer.deleteTodo,
         MapServer.createUser, MapServer.updateUser, MapServer.deleteUser,
         MapServer.createTodo, MapServer.updateTodo, MapServer.deleteTodo, makeId, fail.
  all: repeat match goal with
       | |- context [match ?x with _ => _ end] => destruct x eqn:?
       end; cbn [fst snd status json ArrayServer.nextId MapServer.nextId].
  all: (split; [apply Hin; tauto|]);
       (split; [split; [intros [msg Hmsg]; first [discriminate Hmsg | tauto]
                       |intros [H|H]; first [discriminate H | by eexists]]|]);
       (split; [done|]);
       split; intros H; first [discriminate H | done | idtac].
  all: intros Hne; by destruct (Hne id b).
Qed.

(** X7. [updateTodo] either answers 404 and leaves the store, or finds the
    todo [getTodo] returns for the id.  It then never touches the users,
    the counter, the ids and order of the todos, or what any other id
    reads as; and it answers either 400 for a [userId] that names no user,
    or 200 with the todo carrying the fields of the payload, which is what
    [getTodo] returns for the id afterwards. *)
Theorem updateTodo_then_getTodo :
  (∀ st id b,
     let r := ArrayServer.updateTodo id b st in
     r = (st, fail 404 "todo not found") ∨
     ∃ x, ArrayServer.getTodo id st = Response 200 (BTodo x) ∧
       ArrayServer.users r.1 = ArrayServer.users st ∧
       ArrayServer.nextId r.1 = ArrayServer.nextId st ∧
       Todo.id <$> ArrayServer.todos r.1 = Todo.id <$> ArrayServer.todos st ∧
       (∀ id', id' ≠ id → ArrayServer.getTodo id' r.1 = ArrayServer.getTodo id' st) ∧
       (r.2 = fail 400 "invalid userId" ∨
        r.2 = Response 200 (BTodo (updated_todo b x)) ∧
        ArrayServer.getTodo id r.1 = Response 200 (BTodo (updated_todo b x)))) ∧
  (∀ st id b,
     let r := MapServer.updateTodo id b st in
     r = (st, fail 404 "todo not found") ∨
     ∃ x, MapServer.getTodo id st = Response 200 (BTodo x) ∧
       MapServer.users r.1 = MapServer.users st ∧
       MapServer.nextId r.1 = MapServer.nextId st ∧
       (MapServer.todos r.1).*1 = (MapServer.todos st).*1 ∧
       (∀ id', id' ≠ id → MapServer.getTodo id' r.1 = MapServer.getTodo id' st) ∧
       (r.2 = fail 400 "invalid userId" ∨
        r.2 = Response 200 (BTodo (updated_todo b x)) ∧
        MapServer.getTodo id r.1 = Response 200 (BTodo (updated_todo b x)))).
Proof.
  split.
  - intros st id b r.
    subst r. unfold ArrayServer.updateTodo, ArrayServer.getTodo.
    destruct (JSArray.find (ArrayServer.todo_is id) (ArrayServer.todos st)) as [x|] eqn:Hx;
      [right; exists x|by left].
    split; [done|].
    apply find_Some in Hx as Hid. destruct Hid as [_ Hid%bool_decide_eq_true].
    set (changed := if defined (b_completed b) then _ else _).
    assert (Hshape : ∃ y resp,
      (if defined (b_userId b) then
         match JSArray.find (ArrayServer.user_has (b_userId b)) (ArrayServer.users st) with
         | Some _ =>
           (ArrayServer.Store (ArrayServer.nextId st) (ArrayServer.users st)
              (JSArray.mutate_found (ArrayServer.todo_is id)
                 (λ _, Todo.set_userId (b_userId b) changed) (ArrayServer.todos st)),
            Response 200 (BTodo (Todo.set_userId (b_userId b) changed)))
         | None =>
           (ArrayServer.Store (ArrayServer.nextId st) (ArrayServer.users st)
              (JSArray.mutate_found (ArrayServer.todo_is id) (λ _, changed)
                 (ArrayServer.todos st)),
            fail 400 "invalid userId")
         end
       else
         (ArrayServer.Store (ArrayServer.nextId st) (ArrayServer.users st)
            (JSArray.mutate_found (ArrayServer.todo_is id) (λ _, changed)
               (ArrayServer.todos st)),
          Response 200 (BTodo changed)))
      = (ArrayServer.Store (ArrayServer.nextId st) (ArrayServer.users st)
           (JSArray.mutate_found (ArrayServer.todo_is id) (λ _, y) (ArrayServer.todos st)),
         resp) ∧
      Todo.id y = id ∧
      (resp = fail 400 "invalid userId" ∨
       resp = Response 200 (BTodo (updated_todo b x)) ∧ y = updated_todo b x)).
    { subst changed. unfold updated_todo.
      destruct (defined (b_userId b)), (defined (b_title b)), (defined (b_completed b));
        try destruct (JSArray.find (ArrayServer.user_has _) _);
        eexists _, _; (split; [reflexivity|]); (split; [exact Hid|]);
        first [by left | right; by destruct x]. }
    destruct Hshape as (y & resp & -> & Hy & Hresp).
    cbn [fst snd ArrayServer.users ArrayServer.todos ArrayServer.nextId].
    split; [done|]. split; [done|]. split.
    { apply mutate_found_fmap. intros x' Hx'. rewrite Hx in Hx'. injection Hx' as <-.
      congruence. }
    split.
    { intros id' Hne. rewrite find_mutate_found_other; [done|].
      intros x' Hx'. rewrite Hx in Hx'. injection Hx' as <-.
      unfold ArrayServer.todo_is. split; apply bool_decide_eq_false; congruence. }
    destruct Hresp as [->|[-> ->]]; [by left|right]. split; [done|].
    rewrite (find_mutate_found _ (λ _, updated_todo b x) _ x Hx); [done|].
    by apply bool_decide_eq_true.
  - intros st id b r. subst r. unfold MapServer.updateTodo, MapServer.getTodo.
    destruct (JSMap.get id (MapServer.todos st)) as [x|] eqn:Hx;
      [right; exists x|by left].
    split; [done|].
    set (changed := if defined (b_completed b) then _ else _).
    assert (Hshape : ∃ y resp,
      (if defined (b_userId b) then
         match JSMap.get_value (b_userId b) (MapServer.users st) with
         | Some _ =>
           (MapServer.Store (MapServer.nextId st) (MapServer.users st)
              (JSMap.mutate_found id
                 (λ _, Todo.set_userId (b_userId b) changed) (MapServer.todos st)),
            Response 200 (BTodo (Todo.set_userId (b_userId b) changed)))
         | None =>
           (MapServer.Store (MapServer.nextId st) (MapServer.users st)
              (JSMap.mutate_found id (λ _, changed) (MapServer.todos st)),
            fail 400 "invalid userId")
         end
       else
         (MapServer.Store (MapServer.nextId st) (MapServer.users st)
            (JSMap.mutate_found id (λ _, changed) (MapServer.todos st)),
          Response 200 (BTodo changed)))
      = (MapServer.Store (MapServer.nextId st) (MapServer.users st)
           (JSMap.mutate_found id (λ _, y) (MapServer.todos st)),
         resp) ∧
      (resp = fail 400 "invalid userId" ∨
       resp = Response 200 (BTodo (updated_todo b x)) ∧ y = updated_todo b x)).
    { subst changed. unfold updated_todo.
      destruct (defined (b_userId b)), (defined (b_title b)), (defined (b_completed b));
        try destruct (JSMap.get_value _ _);
        eexists _, _; (split; [reflexivity|]);
        first [by left | right; by destruct x]. }
    destruct Hshape as (y & resp & -> & Hresp).
    cbn [fst snd MapServer.users MapServer.todos MapServer.nextId].
    split; [done|]. split; [done|]. split; [apply mutate_found_keys|].
    split.
    { intros id' Hne. by rewrite get_mutate_found_other. }
    destruct Hresp as [->|[-> ->]]; [by left|right]. split; [done|].
    by rewrite get_mutate_found, Hx.
Qed.

(** ** The two servers side by side *)
Section AgreeFacts.

Lemma keyed_keys {A} (f : A → string) l : (keyed f l).*1 = f <$> l.
Proof. unfold keyed. rewrite <- list_fmap_compose. done. Qed.

Lemma keyed_values {A} (f : A → string) l : JSMap.values (keyed f l) = l.
Proof.
  unfold JSMap.values, keyed. rewrite <- list_fmap_compose. apply list_fmap_id.
Qed.

Lemma get_keyed {A} (f : A → string) k l :
  JSMap.get k (keyed f l) = JSArray.find (λ x, bool_decide (f x = k)) l.
Proof.
  induction l as [|x l IH]; [done|].
  change (keyed f (x :: l)) with ((f x, x) :: keyed f l).
  cbn [JSMap.get JSArray.find]. by rewrite IH.
Qed.

Lemma set_keyed {A} (f : A → string) x l :
  f x ∉ f <$> l → JSMap.set (f x) x (keyed f l) = keyed f (JSArray.push x l).
Proof.
  intros Hx. rewrite set_fresh.
  - unfold JSArray.push, keyed. by rewrite fmap_app.
  - apply get_None. by rewrite keyed_keys.
Qed.

Lemma delete_keyed {A} (f : A → string) k l :
  JSMap.delete k (keyed f l)
  = keyed f (List.filter (λ x, negb (bool_decide (f x = k))) l).
Proof.
  unfold JSMap.delete. induction l as [|x l IH]; [done|].
  change (keyed f (x :: l)) with ((f x, x) :: keyed f l).
  cbn [List.filter fst]. rewrite IH. by destruct (bool_decide (f x = k)).
Qed.

Lemma bfilter_keyed {A} (f : A → string) (p : A → bool) l :
  List.filter (λ e, p e.2) (keyed f l) = keyed f (List.filter p l).
Proof.
  induction l as [|x l IH]; [done|].
  change (keyed f (x :: l)) with ((f x, x) :: keyed f l).
  cbn [List.filter snd]. rewrite IH. by destruct (p x).
Qed.

Lemma mutate_found_keyed {A} (f : A → string) k y l :
  f y = k →
  JSMap.mutate_found k (λ _, y) (keyed f l)
  = keyed f (JSArray.mutate_found (λ x, bool_decide (f x = k)) (λ _, y) l).
Proof.
  intros Hy. induction l as [|x l IH]; [done|].
  change (keyed f (x :: l)) with ((f x, x) :: keyed f l).
  cbn [JSMap.mutate_found JSArray.mutate_found].
  case_bool_decide as Hx; [|by rewrite IH].
  unfold keyed. cbn. by rewrite Hy, Hx.
Qed.

Lemma find_ext {A} (p q : A → bool) l :
  (∀ x, p x = q x) → JSArray.find p l = JSArray.find q l.
Proof.
  intros Hpq. induction l as [|x l IH]; [done|]. cbn. by rewrite Hpq, IH.
Qed.

Lemma get_value_keyed v l :
  JSMap.get_value v (keyed User.id l) = JSArray.find (ArrayServer.user_has v) l.
Proof.
  destruct v; cbn;
    try (symmetry; apply find_None; intros x _; unfold ArrayServer.user_has; done).
  rewrite get_keyed. apply find_ext. done.
Qed.

Lemma same_store_step a m o :
  array_fresh a → same_store a m →
  same_store (ArrayServer.step a o).1 (MapServer.step m o).1 ∧
  (ArrayServer.step a o).2 = (MapServer.step m o).2.
Proof.
  intros [Hnd Hiss] (Hn & Hu & Ht). unfold array_ids in *.
  destruct m as [n mu mt]. cbn in Hn, Hu, Ht. subst n mu mt.
  assert (Hnext : pretty (ArrayServer.nextId a) ∉
     (User.id <$> ArrayServer.users a) ++ (Todo.id <$> ArrayServer.todos a)).
  { intros Hin. by apply Hiss, issued_not_next in Hin. }
  apply not_elem_of_app in Hnext as [Hnu Hnt].
  apply NoDup_app in Hnd as (Hndu & _ & Hndt).
  unfold same_store.
  destruct o as [b|id b|id|b|id b|id]; cbn [ArrayServer.step MapServer.step].
  - unfold ArrayServer.createUser, MapServer.createUser. store_fields.
    destruct (_ || _); [done|]. store_fields.
    split; [|done]. split; [done|]. split; [|done].
    by apply (set_keyed User.id (User.mk _ _ _)).
  - unfold ArrayServer.updateUser, MapServer.updateUser. store_fields.
    rewrite get_keyed. fold (ArrayServer.user_is id).
    destruct (JSArray.find (ArrayServer.user_is id) (ArrayServer.users a)) as [u|] eqn:Hfu;
      [|done].
    cbn. split; [|done]. split; [done|]. split; [|done].
    apply (mutate_found_keyed User.id).
    apply find_Some in Hfu as [_ Hid%bool_decide_eq_true].
    by destruct (defined (b_name b)), (defined (b_email b)).
  - unfold ArrayServer.deleteUser, MapServer.deleteUser. store_fields.
    rewrite get_keyed. fold (ArrayServer.user_is id).
    destruct (JSArray.findIndex (ArrayServer.user_is id) (ArrayServer.users a))
      as [idx|] eqn:Hidx.
    + destruct (findIndex_Some _ _ _ Hidx) as (u & Hlook & Hid%bool_decide_eq_true & Hfu).
      rewrite Hfu, Hlook, cascade_all, Hid. store_fields.
      split; [|done]. split; [done|]. split.
      * rewrite delete_keyed. f_equal. symmetry.
        by apply (splice1_found User.id).
      * rewrite map_cascade_filter by (by rewrite keyed_keys).
        apply (bfilter_keyed Todo.id (not_of id)).
    + apply findIndex_None in Hidx. by rewrite Hidx.
  - unfold ArrayServer.createTodo, MapServer.createTodo. store_fields.
    destruct (_ || _); [done|]. rewrite get_value_keyed.
    destruct (JSArray.find _ _); [|done]. store_fields.
    split; [|done]. split; [done|]. split; [done|].
    by apply (set_keyed Todo.id (Todo.mk _ _ _ _)).
  - unfold ArrayServer.updateTodo, MapServer.updateTodo. store_fields.
    rewrite get_keyed, get_value_keyed. fold (ArrayServer.todo_is id).
    destruct (JSArray.find (ArrayServer.todo_is id) (ArrayServer.todos a)) as [x|] eqn:Hfx;
      [|done].
    apply find_Some in Hfx as [_ Hid%bool_decide_eq_true].
    assert (Hmut : ∀ y, Todo.id y = id →
      JSMap.mutate_found id (λ _, y) (keyed Todo.id (ArrayServer.todos a))
      = keyed Todo.id
          (JSArray.mutate_found (ArrayServer.todo_is id) (λ _, y) (ArrayServer.todos a))).
    { intros y Hy. by apply (mutate_found_keyed Todo.id). }
    destruct (defined (b_userId b));
      [destruct (JSArray.find (ArrayServer.user_has _) _)|]; store_fields;
      (split; [|done]); (split; [done|]); (split; [done|]); apply Hmut;
      by destruct (defined (b_title b)), (defined (b_completed b)).
  - unfold ArrayServer.deleteTodo, MapServer.deleteTodo. store_fields.
    rewrite get_keyed. fold (ArrayServer.todo_is id).
    destruct (JSArray.findIndex (ArrayServer.todo_is id) (ArrayServer.todos a))
      as [idx|] eqn:Hidx.
    + destruct (findIndex_Some _ _ _ Hidx) as (x & Hlook & Hid & Hfx).
      rewrite Hfx. store_fields. split; [|done]. split; [done|]. split; [done|].
      rewrite delete_keyed. f_equal. symmetry.
      by apply (splice1_found Todo.id).
    + apply findIndex_None in Hidx. by rewrite Hidx.
Qed.

Lemma same_store_seed : same_store ArrayServer.seed MapServer.seed.
Proof. by vm_compute. Qed.

Lemma same_store_run ops : same_store (ArrayServer.run ops) (MapServer.run ops).
Proof.
  induction ops as [|o ops IH] using rev_ind; [apply same_store_seed|].
  rewrite array_run_snoc_op, map_run_snoc_op.
  by apply same_store_step; [apply array_run_fresh|].
Qed.

End AgreeFacts.

(** X8. The two servers cannot be told apart by their store operations:
    after the same operations their stores hold the same counter and the
    same users and todos in the same order, every further operation gets
    the same response from both, and so does every read of a user, of a
    todo and of the list of todos. *)
Theorem servers_agree (ops : list op) :
  same_store (ArrayServer.run ops) (MapServer.run ops) ∧
  (∀ o, (ArrayServer.step (ArrayServer.run ops) o).2
        = (MapServer.step (MapServer.run ops) o).2) ∧
  (∀ id, ArrayServer.getUser id (ArrayServer.run ops)
         = MapServer.getUser id (MapServer.run ops)) ∧
  (∀ id, ArrayServer.getTodo id (ArrayServer.run ops)
         = MapServer.getTodo id (MapServer.run ops)) ∧
  (∀ userId completed,
     ArrayServer.listTodos userId completed (ArrayServer.run ops)
     = MapServer.listTodos userId completed (MapServer.run ops)).
Proof.
  pose proof (same_store_run ops) as Hsame.
  split; [done|]. split.
  { intros o. by apply same_store_step; [apply array_run_fresh|]. }
  destruct Hsame as (_ & Hu & Ht).
  unfold ArrayServer.getUser, MapServer.getUser, ArrayServer.getTodo, MapServer.getTodo,
    ArrayServer.listTodos, MapServer.listTodos.
  rewrite Hu, Ht, keyed_values.
  split; [|split]; [intros id; by rewrite get_keyed..|done].
Qed.

(** ** The route statistics *)
Section RouteFacts.
Import Metrics.

Lemma lookup_route_None key byRoute : lookup_route key byRoute = None ↔ key ∉ byRoute.*1.
Proof.
  induction byRoute as [|[k v] l IH]; cbn.
  - split; [intros _ H; inversion H|done].
  - case_bool_decide as Hk.
    + split; [done|]. intros H. exfalso. apply H. subst. by left.
    + rewrite IH, not_elem_of_cons. cbn. split; [by intros ?; split; [congruence|]|by intros [_ ?]].
Qed.

Lemma lookup_assign_route_ne key k v byRoute :
  k ≠ key → lookup_route k (assign_route key v byRoute) = lookup_route k byRoute.
Proof.
  intros Hne. induction byRoute as [|[k' v'] l IH]; cbn.
  - by rewrite bool_decide_eq_false_2 by congruence.
  - case_bool_decide as Hk'; cbn.
    + subst k'. by rewrite !bool_decide_eq_false_2 by congruence.
    + by rewrite IH.
Qed.

Lemma assign_route_keys key v byRoute :
  (assign_route key v byRoute).*1
  = match lookup_route key byRoute with
    | Some _ => byRoute.*1
    | None => byRoute.*1 ++ [key]
    end.
Proof.
  induction byRoute as [|[k' v'] l IH]; cbn; [done|].
  case_bool_decide as Hk'; cbn; [done|].
  rewrite IH. by destruct (lookup_route key l).
Qed.

Lemma sum_counts_assign_route key v byRoute :
  sum_counts (assign_route key v byRoute)
  + default 0 (count <$> lookup_route key byRoute)
  = sum_counts byRoute + count v.
Proof.
  induction byRoute as [|[k' v'] l IH]; cbn; [lia|].
  case_bool_decide as Hk'; cbn; [lia|].
  unfold sum_counts in IH. lia.
Qed.

(** [record_route] in one assignment: the statistic of the key, or a new
    one, observed once. *)
Lemma record_route_assign key code ms byRoute :
  record_route key code ms byRoute
  = assign_route key
      (observe code ms (default (RouteStat 0 (S754_zero false) ∅) (lookup_route key byRoute))) byRoute.
Proof.
  unfold record_route. destruct (lookup_route key byRoute) as [v|] eqn:Hv.
  - by rewrite Hv.
  - by rewrite lookup_assign_route, assign_route_twice.
Qed.

Lemma hits_snoc key reqs r :
  hits key (reqs ++ [r])
  = hits key reqs ++ (if bool_decide (routeKey r = key) then [r] else []).
Proof. unfold hits. by rewrite List.filter_app. Qed.

Lemma total_elapsed_snoc reqs r :
  total_elapsed (reqs ++ [r]) = Double.add (total_elapsed reqs) (Double.of_Q (elapsed r)).
Proof. unfold total_elapsed. by rewrite foldl_snoc. Qed.

Lemma with_status_snoc code reqs r :
  length (with_status code (reqs ++ [r]))
  = length (with_status code reqs) + (if bool_decide (statusCode r = code) then 1 else 0).
Proof.
  unfold with_status. rewrite List.filter_app, length_app. cbn.
  by case_bool_decide.
Qed.

Lemma observe_spec key reqs r found :
  routeKey r = key →
  route_stat_spec key reqs found →
  route_stat_spec key (reqs ++ [r])
    (Some (observe (statusCode r) (elapsed r) (default (RouteStat 0 (S754_zero false) ∅) found))).
Proof.
  intros Hkey Hfound. unfold route_stat_spec.
  rewrite hits_snoc, bool_decide_eq_true_2 by done.
  split; [by destruct (hits key reqs)|].
  rewrite length_app, total_elapsed_snoc. cbn [length observe count totalMs statuses].
  assert (Hstat : ∀ (m : gmap nat nat) n code,
    default 0 (m !! code) = n →
    default 0 (<[statusCode r := default 0 (m !! statusCode r) + 1]> m !! code)
    = n + (if bool_decide (statusCode r = code) then 1 else 0)).
  { intros m n code <-. case_bool_decide as Hc.
    - subst code. by rewrite lookup_insert_eq.
    - rewrite lookup_insert_ne by done. lia. }
  destruct found as [v|]; cbn [from_option id route_stat_spec] in *.
  - destruct Hfound as (_ & Hcount & Htotal & Hstatuses).
    split; [lia|]. split; [by rewrite Htotal|].
    intros code. rewrite with_status_snoc. by apply Hstat.
  - rewrite Hfound. cbn [length count totalMs statuses total_elapsed foldl].
    split; [done|]. split; [done|].
    intros code. rewrite (Hstat ∅ 0 code) by done.
    unfold with_status. cbn. by case_bool_decide.
Qed.

Lemma array_byRoute_snoc s reqs r :
  ArrayMetrics.byRoute (ArrayMetrics.run s (reqs ++ [r]))
  = record_route (routeKey r) (statusCode r) (elapsed r)
      (ArrayMetrics.byRoute (ArrayMetrics.run s reqs)).
Proof. by rewrite array_run_snoc. Qed.

Lemma run_route_stat s reqs key :
  route_stat_spec key reqs
    (lookup_route key (ArrayMetrics.byRoute (ArrayMetrics.run s reqs))).
Proof.
  induction reqs as [|r reqs IH] using rev_ind; [done|].
  rewrite array_byRoute_snoc, record_route_assign.
  destruct (decide (routeKey r = key)) as [Hk|Hk].
  - subst key. rewrite lookup_assign_route. by apply observe_spec.
  - rewrite lookup_assign_route_ne by done.
    unfold route_stat_spec in *. rewrite hits_snoc, bool_decide_eq_false_2 by done.
    by rewrite app_nil_r.
Qed.

Lemma run_route_keys s reqs :
  (ArrayMetrics.byRoute (ArrayMetrics.run s reqs)).*1 = route_keys reqs.
Proof.
  unfold route_keys.
  induction reqs as [|r reqs IH] using rev_ind; [done|].
  rewrite array_byRoute_snoc, record_route_assign, assign_route_keys, IH.
  rewrite fmap_app, reverse_app.
  change (reverse (routeKey <$> [r])) with [routeKey r]. cbn [app remove_dups].
  destruct (decide_rel elem_of (routeKey r) (reverse (routeKey <$> reqs))) as [Hin|Hin].
  - destruct (lookup_route _ _) eqn:Hl; [done|].
    apply lookup_route_None in Hl. rewrite IH in Hl. exfalso. apply Hl.
    by rewrite elem_of_reverse, elem_of_remove_dups.
  - destruct (lookup_route _ _) eqn:Hl; [|by rewrite reverse_cons].
    apply lookup_route_Some, (list_elem_of_fmap_2 fst) in Hl. rewrite IH in Hl.
    rewrite elem_of_reverse, elem_of_remove_dups in Hl. done.
Qed.

Lemma run_sum_counts s reqs :
  sum_counts (ArrayMetrics.byRoute (ArrayMetrics.run s reqs)) = length reqs.
Proof.
  induction reqs as [|r reqs IH] using rev_ind; [done|].
  rewrite array_byRoute_snoc, record_route_assign, length_app. cbn [length].
  pose proof (sum_counts_assign_route (routeKey r)
    (observe (statusCode r) (elapsed r)
       (default (RouteStat 0 (S754_zero false) ∅)
          (lookup_route (routeKey r) (ArrayMetrics.byRoute (ArrayMetrics.run s reqs)))))
    (ArrayMetrics.byRoute (ArrayMetrics.run s reqs))) as Hsum.
  rewrite <- IH.
  destruct (lookup_route _ _);
    cbn [observe count from_option id fmap option_fmap option_map] in Hsum |- *; lia.
Qed.

Lemma run_totalRequests s reqs :
  ArrayMetrics.totalRequests (ArrayMetrics.run s reqs) = length reqs.
Proof.
  induction reqs as [|r reqs IH] using rev_ind; [done|].
  rewrite array_run_snoc, length_app. cbn. lia.
Qed.

(** The sort keeps rows of equal count in the order they had. *)
Lemma insert_sorted_stable c x l :
  List.filter (λ r, bool_decide (r_count r = c)) (insert_sorted by_count_desc x l)
  = List.filter (λ r, bool_decide (r_count r = c)) (x :: l).
Proof.
  induction l as [|y l IH]; [done|]. cbn [insert_sorted].
  destruct (by_count_desc x y <=? 0)%Z eqn:Hle; [done|].
  apply Z.leb_gt in Hle. unfold by_count_desc in Hle.
  cbn [List.filter] in *. rewrite IH.
  repeat case_bool_decide; try done. lia.
Qed.

Lemma sort_stable c l :
  List.filter (λ r, bool_decide (r_count r = c)) (sort by_count_desc l)
  = List.filter (λ r, bool_decide (r_count r = c)) l.
Proof.
  induction l as [|x l IH]; [done|]. cbn [sort foldr].
  fold (sort by_count_desc l). rewrite insert_sorted_stable. cbn [List.filter].
  by rewrite IH.
Qed.

Lemma lookup_route_elem key v byRoute :
  NoDup byRoute.*1 → (key, v) ∈ byRoute → lookup_route key byRoute = Some v.
Proof.
  induction byRoute as [|[k' v'] l IH]; cbn; intros Hnd Hin; [by inversion Hin|].
  apply NoDup_cons in Hnd as [Hk' Hnd].
  apply elem_of_cons in Hin as [Heq|Hin].
  - injection Heq as -> ->. by rewrite bool_decide_eq_true_2.
  - rewrite bool_decide_eq_false_2; [by apply IH|].
    intros ->. apply Hk'. by apply (list_elem_of_fmap_2 fst) in Hin.
Qed.

Lemma route_keys_NoDup reqs : NoDup (route_keys reqs).
Proof. unfold route_keys. rewrite reverse_Permutation. apply NoDup_remove_dups. Qed.

Lemma run_route_elem s reqs e :
  e ∈ ArrayMetrics.byRoute (ArrayMetrics.run s reqs) →
  route_stat_spec e.1 reqs (Some e.2).
Proof.
  intros He.
  rewrite <- (lookup_route_elem e.1 e.2 (ArrayMetrics.byRoute (ArrayMetrics.run s reqs))).
  - apply run_route_stat.
  - rewrite run_route_keys. apply route_keys_NoDup.
  - by destruct e.
Qed.

Lemma bfilter_fst {A} (p : string * A → bool) (q : string → bool) (l : list (string * A)) :
  (∀ e, e ∈ l → p e = q e.1) → (List.filter p l).*1 = List.filter q l.*1.
Proof.
  induction l as [|e l IH]; intros Hpq; [done|]. cbn.
  rewrite <- (Hpq e) by (by left).
  rewrite <- IH by (intros e' He'; apply Hpq; by right).
  by destruct (p e).
Qed.

Lemma bfilter_fmap {A B} (f : A → B) (p : B → bool) (l : list A) :
  List.filter p (f <$> l) = f <$> List.filter (λ x, p (f x)) l.
Proof.
  induction l as [|x l IH]; [done|]. cbn. rewrite IH. by destruct (p (f x)).
Qed.

End RouteFacts.

(** X9. After any sequence of requests the metrics hold one statistic per
    route key, in the order the keys were first requested; the statistic
    of a key counts the requests made under that key, holds the sum of
    their durations, added as doubles in the order of the requests, and
    counts them per status code; a key never requested has none.
    [totalRequests] is the number of requests, and so is the sum of the
    counts.  The same holds in both servers.  The durations 0.15 and 0.35
    add up to the double 0.5. *)
Theorem route_statistics (startedAt : string) (reqs : list Metrics.finished) :
  let byRoute := ArrayMetrics.byRoute (ArrayMetrics.run startedAt reqs) in
  RingMetrics.byRoute (RingMetrics.run startedAt reqs) = byRoute ∧
  byRoute.*1 = route_keys reqs ∧
  NoDup byRoute.*1 ∧
  (∀ key, route_stat_spec key reqs (Metrics.lookup_route key byRoute)) ∧
  sum_counts byRoute = length reqs ∧
  ArrayMetrics.totalRequests (ArrayMetrics.run startedAt reqs) = length reqs ∧
  RingMetrics.totalRequests (RingMetrics.run startedAt reqs) = length reqs ∧
  (∀ r1 r2,
     Metrics.elapsed r1 = (15 # 100)%Q → Metrics.elapsed r2 = (35 # 100)%Q →
     total_elapsed [r1; r2] = Double.of_Q (1 # 2)).
Proof.
  intros byRoute. subst byRoute.
  destruct (run_same_routes startedAt reqs) as (_ & Htotal & Hsame).
  split; [done|]. split; [apply run_route_keys|].
  split; [rewrite run_route_keys; apply route_keys_NoDup|].
  split; [intros key; apply run_route_stat|].
  split; [apply run_sum_counts|].
  rewrite <- Htotal. split; [apply run_totalRequests|]. split; [apply run_totalRequests|].
  intros r1 r2 H1 H2. unfold total_elapsed. cbn [foldl]. rewrite H1, H2. by vm_compute.
Qed.

(** X10. The snapshot of [GET /api/_stats] reports the number of requests
    and one row per route key requested.  The row of a key gives the
    number of requests under the key, their number per status code, and
    their mean duration rounded to one decimal place, where the mean is
    the quotient, in doubles, of the sum of the durations, added as
    doubles in the order of the requests, and their number.  Rows with the
    same count come in the order their keys were first requested.  Two
    requests of 0.15 and 0.35 under one key give the mean 0.25 and the
    [avgMs] 0.3. *)
Theorem snapshot_counts_requests (startedAt : string) (reqs : list Metrics.finished)
    (uptime : Q) :
  let snap := ArrayMetrics.snapshot uptime (ArrayMetrics.run startedAt reqs) in
  RingMetrics.snapshot uptime (RingMetrics.run startedAt reqs) = snap ∧
  Metrics.s_totalRequests snap = length reqs ∧
  Metrics.r_route <$> Metrics.routes snap ≡ₚ route_keys reqs ∧
  (∀ row, row ∈ Metrics.routes snap →
     let served := hits (Metrics.r_route row) reqs in
     served ≠ [] ∧
     Metrics.r_count row = length served ∧
     (∀ code, default 0 (Metrics.r_statuses row !! code) = length (with_status code served)) ∧
     Metrics.avgMs row
     = Metrics.toFixed1_number
         (Double.div (total_elapsed served) (Double.of_nat (length served))) ∧
     rounded1_double (Double.div (total_elapsed served) (Double.of_nat (length served)))
                     (Metrics.avgMs row)) ∧
  (∀ c, Metrics.r_route <$>
          List.filter (λ r, bool_decide (Metrics.r_count r = c)) (Metrics.routes snap)
        = List.filter (λ key, bool_decide (length (hits key reqs) = c)) (route_keys reqs)) ∧
  (∀ r1 r2,
     Metrics.routeKey r1 = Metrics.routeKey r2 →
     Metrics.elapsed r1 = (15 # 100)%Q → Metrics.elapsed r2 = (35 # 100)%Q →
     Metrics.avgMs <$>
       Metrics.routes (ArrayMetrics.snapshot uptime (ArrayMetrics.run startedAt [r1; r2]))
     = [Double.of_Q (3 # 10)]).
Proof.
  intros snap. subst snap.
  destruct (run_same_routes startedAt reqs) as (Hstarted & Htotal & Hsame).
  split.
  { unfold RingMetrics.snapshot, ArrayMetrics.snapshot.
    rewrite <- Hstarted, <- Htotal, <- Hsame. f_equal.
    rewrite ring_read, array_recent, <- (length_fmap Metrics.entry_of reqs).
    symmetry. apply array_read. }
  cbn [ArrayMetrics.snapshot Metrics.s_totalRequests Metrics.routes].
  split; [apply run_totalRequests|].
  pose proof (routes_of_spec _ (array_run_counted startedAt reqs)) as (_ & Hperm & Hrows).
  split.
  { rewrite Hperm, <- list_fmap_compose, <- (run_route_keys startedAt reqs). done. }
  split.
  { intros row Hrow.
    destruct (Hrows row Hrow) as (v & Hv & Hcount & Hstatuses & _ & Havg & Hround).
    pose proof (run_route_elem startedAt reqs (_, v) Hv) as (Hne & Hc & Ht & Hs). cbn [fst snd] in *.
    split; [done|]. split; [congruence|]. split.
    { intros code. rewrite Hstatuses. apply Hs. }
    by rewrite <- Ht, <- Hc. }
  split.
  { intros c. unfold Metrics.routes_of. rewrite sort_stable, bfilter_fmap.
  rewrite <- list_fmap_compose, <- (run_route_keys startedAt reqs).
  apply (bfilter_fst (λ e, bool_decide (Metrics.count e.2 = c))).
  intros e He. pose proof (run_route_elem startedAt reqs e He) as (_ & Hc & _).
    cbn [Metrics.row_of Metrics.r_count]. apply bool_decide_ext. by rewrite Hc. }
  intros r1 r2 Hkey H1 H2.
  unfold ArrayMetrics.run. cbn [foldl ArrayMetrics.finish ArrayMetrics.byRoute
    ArrayMetrics.init].
  rewrite H1, H2, Hkey. unfold Metrics.record_route.
  repeat (cbn [Metrics.lookup_route Metrics.assign_route];
          rewrite ?bool_decide_eq_true_2 by done).
  by vm_compute.
Qed.

(** ** The route key *)
Section RouteKeyFacts.
Import Metrics.

Lemma has_char_app c a b : has_char c (a +:+ b) = has_char c a || has_char c b.
Proof.
  induction a as [|d a IH]; [done|].
  rewrite append_cons. cbn [has_char]. by rewrite IH, orb_assoc.
Qed.

Lemma before_query_no_mark s : has_char "?" (before_query s) = false.
Proof.
  induction s as [|c s IH]; [done|]. cbn [before_query].
  case_bool_decide as Hc; [done|]. cbn [has_char].
  rewrite IH, orb_false_r. apply bool_decide_eq_false. congruence.
Qed.

Lemma before_query_prefix s :
  ∃ rest, s = before_query s +:+ rest ∧ (rest = "" ∨ ∃ q, rest = String "?" q).
Proof.
  induction s as [|c s (rest & IH & Hrest)]; cbn [before_query].
  - exists "". by split; [|left].
  - case_bool_decide as Hc.
    + subst c. exists (String "?" s). split; [done|]. right. by exists s.
    + exists rest. rewrite append_cons. by rewrite <- IH.
Qed.

Lemma before_query_plain s rest :
  has_char "?" s = false → before_query (s +:+ String "?" rest) = s.
Proof.
  induction s as [|c s IH]; cbn [has_char].
  - intros _. rewrite append_nil_l. cbn. by rewrite bool_decide_eq_true_2.
  - intros [Hc Hs]%orb_false_elim. apply bool_decide_eq_false in Hc.
    rewrite append_cons. cbn [before_query].
    rewrite bool_decide_eq_false_2 by congruence. by rewrite IH.
Qed.

End RouteKeyFacts.

(** X11. The key a request is counted under always holds a space.  A
    request that matched a route is counted under its method, its
    [baseUrl] and the path template, whatever its URL, its status and its
    time; a [baseUrl] that is [undefined] is printed as such, so that a
    matched request without [baseUrl] is counted apart from the requests
    of the same route that have the empty [baseUrl].  A request that
    matched no route is counted under its method and its URL up to the
    first question mark, whatever the query string, the status and the
    time. *)
Theorem routeKey_groups_requests :
  (∀ req, has_char " " (Metrics.routeKey req) = true) ∧
  (∀ m base template url code now ms,
     Metrics.routeKey (Metrics.Finished m base (Some template) url code now ms)
     = m +:+ " " +:+ default "undefined" base +:+ template) ∧
  (∀ m template url url' code code' now now' ms ms',
     Metrics.routeKey (Metrics.Finished m None (Some template) url code now ms)
     ≠ Metrics.routeKey (Metrics.Finished m (Some "") (Some template) url' code' now' ms')) ∧
  (∀ m base base' url q code code' now now' ms ms',
     Metrics.routeKey
       (Metrics.Finished m base None (Metrics.before_query url +:+ String "?" q) code now ms)
     = Metrics.routeKey (Metrics.Finished m base' None url code' now' ms')) ∧
  (∀ m base url code now ms,
     Metrics.routeKey (Metrics.Finished m base None url code now ms)
     = m +:+ " " +:+ Metrics.before_query url) ∧
  (∀ url, has_char "?" (Metrics.before_query url) = false ∧
          ∃ rest, url = Metrics.before_query url +:+ rest ∧
                  (rest = "" ∨ ∃ q, rest = String "?" q)).
Proof.
  split.
  { intros req. unfold Metrics.routeKey.
    rewrite has_char_app, (has_char_app _ " "). cbn [has_char].
    rewrite bool_decide_eq_true_2 by done. by rewrite orb_true_r. }
  split; [done|]. split.
  { intros m template url url' code code' now now' ms ms' Heq.
    unfold Metrics.routeKey in Heq.
    cbn [Metrics.method Metrics.route Metrics.baseUrl default from_option id] in Heq.
    apply append_inj_length in Heq as [_ Heq]; [|done].
    rewrite !append_cons, !append_nil_l in Heq. injection Heq as Heq.
    apply (f_equal String.length) in Heq. cbn [String.length] in Heq. lia. }
  split.
  { intros. unfold Metrics.routeKey. cbn [Metrics.method Metrics.route Metrics.originalUrl].
    by rewrite before_query_plain by apply before_query_no_mark. }
  split; [done|].
  intros url. split; [apply before_query_no_mark|apply before_query_prefix].
Qed.

(** ** The guard in front of the handlers *)
Section GuardFacts.
Import Auth.

Lemma spaces_then_token sp key :
  is_spaces sp → header_safe key → spaces_then capture_to_end (sp +:+ key) = Some key.
Proof.
  intros Hsp [Hall Hfirst]. unfold is_spaces in Hsp.
  induction sp as [|a sp IH].
  - rewrite append_nil_l. destruct key as [|c k]; [done|].
    cbn [spaces_then]. rewrite Hfirst. unfold capture_to_end. by rewrite Hall.
  - cbn [all_chars] in Hsp. apply andb_true_iff in Hsp as [Ha Hsp].
    rewrite append_cons. cbn [spaces_then]. by rewrite Ha, IH.
Qed.

Lemma match_ApiKey_token scheme sp key :
  fold_case scheme = fold_case "ApiKey" → sp ≠ "" → is_spaces sp → header_safe key →
  match_ApiKey (scheme +:+ sp +:+ key) = Some key.
Proof.
  intros Hscheme Hne Hsp Hkey. unfold match_ApiKey.
  assert (Hlit : literal "ApiKey" (scheme +:+ sp +:+ key) = Some (sp +:+ key)).
  { apply literal_Some. by exists scheme. }
  rewrite Hlit. destruct sp as [|a sp]; [done|].
  unfold is_spaces in Hsp. cbn [all_chars] in Hsp.
  apply andb_true_iff in Hsp as [Ha Hsp].
  rewrite append_cons. cbn [space_plus_then]. rewrite Ha.
  by apply spaces_then_token.
Qed.

Lemma array_serve_snoc env reqs req :
  Routes.array_serve env (reqs ++ [req])
  = (Routes.array_request env (Routes.array_serve env reqs) req).1.
Proof. unfold Routes.array_serve. by rewrite foldl_snoc. Qed.

Lemma map_serve_snoc env reqs req :
  Routes.map_serve env (reqs ++ [req])
  = (Routes.map_request env (Routes.map_serve env reqs) req).1.
Proof. unfold Routes.map_serve. by rewrite foldl_snoc. Qed.

Lemma admitted_ops_snoc env reqs req :
  admitted_ops env (reqs ++ [req])
  = admitted_ops env reqs ++ (if admitted env req.1 then [req.2] else []).
Proof.
  unfold admitted_ops. rewrite List.filter_app, fmap_app. cbn.
  by destruct (admitted env req.1).
Qed.

Lemma array_serve_run env reqs :
  Routes.array_serve env reqs = ArrayServer.run (admitted_ops env reqs).
Proof.
  induction reqs as [|req reqs IH] using rev_ind; [done|].
  rewrite array_serve_snoc, admitted_ops_snoc, IH.
  unfold Routes.array_request, Routes.guarded, admitted.
  destruct (apiKeyRequired _ _ _).
  - by rewrite array_run_snoc_op.
  - by rewrite app_nil_r.
Qed.

Lemma map_serve_run env reqs :
  Routes.map_serve env reqs = MapServer.run (admitted_ops env reqs).
Proof.
  induction reqs as [|req reqs IH] using rev_ind; [done|].
  rewrite map_serve_snoc, admitted_ops_snoc, IH.
  unfold Routes.map_request, Routes.guarded, admitted.
  destruct (apiKeyRequired _ _ _).
  - by rewrite map_run_snoc_op.
  - by rewrite app_nil_r.
Qed.

End GuardFacts.

(** X12. A request to a mutating route that the guard rejects is answered
    401 and leaves the store as it was; one that it lets through gets the
    answer of the handler.  The store after any sequence of requests is
    therefore the store after the operations of the requests let through,
    and it keeps referential integrity and distinct ids whatever the
    credentials were. *)
Theorem guard_protects_store (env : option string) :
  (∀ st req,
     if admitted env req.1
     then Routes.array_request env st req = ArrayServer.step st req.2
     else ∃ msg, Routes.array_request env st req = (st, fail 401 msg)) ∧
  (∀ st req,
     if admitted env req.1
     then Routes.map_request env st req = MapServer.step st req.2
     else ∃ msg, Routes.map_request env st req = (st, fail 401 msg)) ∧
  (∀ reqs,
     Routes.array_serve env reqs = ArrayServer.run (admitted_ops env reqs) ∧
     array_integrity (Routes.array_serve env reqs) ∧
     array_fresh (Routes.array_serve env reqs)) ∧
  (∀ reqs,
     Routes.map_serve env reqs = MapServer.run (admitted_ops env reqs) ∧
     map_integrity (Routes.map_serve env reqs) ∧
     map_fresh (Routes.map_serve env reqs)).
Proof.
  split; [|split].
  - intros st req.
    unfold admitted, Routes.array_request, Routes.guarded, Auth.apiKeyRequired.
    repeat case_bool_decide; cbn [negb]; first [done | by eexists].
  - intros st req.
    unfold admitted, Routes.map_request, Routes.guarded, Auth.apiKeyRequired.
    repeat case_bool_decide; cbn [negb]; first [done | by eexists].
  - split; intros reqs.
    + rewrite array_serve_run.
      split; [done|]. split; [apply array_run_integrity|apply array_run_fresh].
    + rewrite map_serve_run.
      split; [done|]. split; [apply map_run_integrity|apply map_run_fresh].
Qed.

(** X13. The configured key is accepted in the [X-API-Key] header whatever
    the [Authorization] header holds, and a different key in [X-API-Key]
    is rejected even beside an [Authorization] header with the configured
    key.  Without [X-API-Key], an [Authorization] header made of [ApiKey]
    in any case, one or more spaces and the configured key is accepted,
    provided the key has no line break and does not start with a space. *)
Theorem configured_key_is_accepted (env : option string) :
  (∀ authorization,
     Auth.apiKeyRequired env (Some (Auth.API_KEY env)) authorization = Auth.Next) ∧
  (∀ key authorization,
     key ≠ "" → key ≠ Auth.API_KEY env →
     Auth.apiKeyRequired env (Some key) authorization
     = Auth.Reject (fail 401 "invalid API key")) ∧
  (∀ x_api_key scheme spaces,
     x_api_key = None ∨ x_api_key = Some "" →
     fold_case scheme = fold_case "ApiKey" → spaces ≠ "" → is_spaces spaces →
     header_safe (Auth.API_KEY env) →
     Auth.apiKeyRequired env x_api_key (Some (scheme +:+ spaces +:+ Auth.API_KEY env))
     = Auth.Next).
Proof.
  pose proof (API_KEY_nonempty env) as Hkey.
  split; [|split].
  - intros authorization. unfold Auth.apiKeyRequired, Auth.provided. cbn [default from_option id].
    rewrite (bool_decide_eq_false_2 (Auth.API_KEY env = "")) by done. cbn [negb].
    rewrite (bool_decide_eq_false_2 (Auth.API_KEY env = "")) by done.
    by rewrite bool_decide_eq_true_2.
  - intros key authorization Hne Hdiff.
    unfold Auth.apiKeyRequired, Auth.provided. cbn [default from_option id].
    rewrite (bool_decide_eq_false_2 (key = "")) by done. cbn [negb].
    rewrite (bool_decide_eq_false_2 (key = "")) by done.
    by rewrite bool_decide_eq_false_2.
  - intros x_api_key scheme spaces Hx Hscheme Hne Hsp Hsafe.
    unfold Auth.apiKeyRequired, Auth.provided.
    assert (Hhdr : default "" x_api_key = "") by (destruct Hx as [Hx | Hx]; by rewrite Hx).
    rewrite Hhdr. cbn [default from_option id].
    rewrite (match_ApiKey_token scheme spaces _ Hscheme Hne Hsp Hsafe).
    rewrite (bool_decide_eq_true_2 ("" = "")) by done. cbn [negb].
    rewrite (bool_decide_eq_false_2 (Auth.API_KEY env = "")) by done.
    by rewrite bool_decide_eq_true_2.
Qed.

(** With the default key: a lower-case scheme and three spaces are
    accepted, and a wrong [X-API-Key] is rejected beside a right
    [Authorization] header. *)
Lemma configured_key_is_accepted_witness :
  Auth.apiKeyRequired None None (Some "apikey   dev-api-key-change-me") = Auth.Next ∧
  Auth.apiKeyRequired None (Some "wrong") (Some "ApiKey dev-api-key-change-me")
  = Auth.Reject (fail 401 "invalid API key").
Proof.
  destruct (configured_key_is_accepted None) as (_ & Hwrong & Hright).
  split.
  - apply (Hright None "apikey" "   ");
      [by left|reflexivity|discriminate|reflexivity|split; reflexivity].
  - apply Hwrong; discriminate.
Defined.

(** ** The search of [GET /api/users] *)
Section SearchFacts.
Context (toLowerCase : string → string).

Lemma starts_with_spec q s : Search.starts_with q s = true ↔ ∃ post, s = q +:+ post.
Proof.
  revert s. induction q as [|a q IH]; intros s; cbn [Search.starts_with].
  - split; [intros _; exists s; by rewrite append_nil_l|done].
  - destruct s as [|b s].
    + split; [done|]. intros (post & H). by rewrite append_cons in H.
    + rewrite andb_true_iff, bool_decide_eq_true, IH. split.
      * intros (-> & post & ->). exists post. by rewrite append_cons.
      * intros (post & H). rewrite append_cons in H. injection H as -> ->.
        split; [done|]. by exists post.
Qed.

Lemma includes_spec s q : Search.includes s q = true ↔ ∃ pre post, s = pre +:+ q +:+ post.
Proof.
  induction s as [|c s IH].
  - cbn [Search.includes]. rewrite orb_false_r, starts_with_spec. split.
    + intros (post & H). exists "", post. by rewrite append_nil_l.
    + intros (pre & post & H). destruct pre as [|a pre].
      * rewrite append_nil_l in H. by exists post.
      * by rewrite append_cons in H.
  - cbn [Search.includes]. rewrite orb_true_iff, starts_with_spec, IH. split.
    + intros [(post & H)|(pre & post & ->)].
      * exists "", post. by rewrite append_nil_l.
      * exists (String c pre), post. by rewrite append_cons.
    + intros (pre & post & H). destruct pre as [|a pre].
      * left. rewrite append_nil_l in H. by exists post.
      * right. rewrite append_cons in H. injection H as -> ->. by exists pre, post.
Qed.

Lemma filter_or_throw_users q l :
  Search.filter_or_throw (Search.user_matches toLowerCase q) l
  = if existsb (unreadable toLowerCase q) l then None
    else Some (List.filter (found_by toLowerCase q) l).
Proof.
  induction l as [|u l IH]; [done|].
  cbn [Search.filter_or_throw existsb List.filter]. rewrite IH.
  unfold Search.user_matches, unreadable, found_by, holds, is_string, Search.lower.
  destruct (User.name u), (User.email u); cbn [negb orb andb];
    repeat match goal with
    | |- context [Search.includes ?a ?b] => destruct (Search.includes a b)
    end; cbn [negb orb andb]; by destruct (existsb _ l).
Qed.

Lemma query_q_string q :
  toLowerCase "" = "" → Search.query_q toLowerCase (VStr q) = Some (toLowerCase q).
Proof.
  intros Hempty. unfold Search.query_q, Search.lower. cbn [truthy].
  case_bool_decide as Hq; cbn [negb]; [by rewrite Hq, Hempty|done].
Qed.

Lemma listUsers_same ops q :
  Search.array_listUsers toLowerCase q (ArrayServer.run ops)
  = Search.map_listUsers toLowerCase q (MapServer.run ops).
Proof.
  destruct (same_store_run ops) as (_ & Hu & _).
  unfold Search.array_listUsers, Search.map_listUsers.
  rewrite Hu, keyed_values.
  destruct (Search.query_q toLowerCase q) as [ql|]; [|done]. by destruct (negb _).
Qed.

End SearchFacts.

(** X14. [GET /api/users] without a query, or with one that is empty in
    lower case, returns all users.  With a query it returns, in their
    order, the users whose name or email holds the query as a substring,
    both read in lower case, unless some user has a name that is no
    string, or a name without the query and an email that is no string:
    then the handler throws.  A query that is no string throws as well.
    [createUser] accepts a name that is no string, after which every
    search throws.  Both servers answer alike. *)
Theorem listUsers_search (toLowerCase : string → string) (Hempty : toLowerCase "" = "") :
  (∀ st, Search.array_listUsers toLowerCase VUndefined st
         = Some (Response 200 (BUsers (ArrayServer.users st)))) ∧
  (∀ st q,
     Search.array_listUsers toLowerCase (VStr q) st
     = if bool_decide (toLowerCase q = "")
       then Some (Response 200 (BUsers (ArrayServer.users st)))
       else if existsb (unreadable toLowerCase (toLowerCase q)) (ArrayServer.users st)
       then None
       else Some (Response 200
                    (BUsers (List.filter (found_by toLowerCase (toLowerCase q))
                                         (ArrayServer.users st))))) ∧
  (∀ s q, Search.includes s q = true ↔ ∃ pre post, s = pre +:+ q +:+ post) ∧
  (∀ st q, truthy q = true → is_string q = false →
           Search.array_listUsers toLowerCase q st = None) ∧
  (∀ st b q,
     truthy (b_name b) = true → truthy (b_email b) = true → is_string (b_name b) = false →
     toLowerCase q ≠ "" →
     status (ArrayServer.createUser b st).2 = 201 ∧
     Search.array_listUsers toLowerCase (VStr q) (ArrayServer.createUser b st).1 = None) ∧
  (∀ ops q, Search.array_listUsers toLowerCase q (ArrayServer.run ops)
            = Search.map_listUsers toLowerCase q (MapServer.run ops)).
Proof.
  assert (Hstr : ∀ st q,
     Search.array_listUsers toLowerCase (VStr q) st
     = if bool_decide (toLowerCase q = "")
       then Some (Response 200 (BUsers (ArrayServer.users st)))
       else if existsb (unreadable toLowerCase (toLowerCase q)) (ArrayServer.users st)
       then None
       else Some (Response 200
                    (BUsers (List.filter (found_by toLowerCase (toLowerCase q))
                                         (ArrayServer.users st))))).
  { intros st q. unfold Search.array_listUsers.
    rewrite query_q_string by done.
    case_bool_decide; cbn [negb]; [done|].
    rewrite filter_or_throw_users. by destruct (existsb _ _). }
  split.
  { intros st. unfold Search.array_listUsers, Search.query_q. cbn [truthy Search.lower].
    rewrite Hempty. by rewrite bool_decide_eq_true_2. }
  split; [exact Hstr|]. split; [apply includes_spec|]. split.
  { intros st q Htruthy Hq. unfold Search.array_listUsers, Search.query_q.
    rewrite Htruthy. by destruct q. }
  split; [|intros ops q; apply listUsers_same].
  intros st b q Hname Hemail Hq Hlow.
  unfold ArrayServer.createUser. rewrite Hname, Hemail. cbn [negb orb makeId fst snd status].
  split; [done|].
  rewrite Hstr, bool_decide_eq_false_2 by done.
  cbn [ArrayServer.users]. unfold JSArray.push.
  rewrite existsb_app. cbn [existsb]. unfold unreadable at 2. cbn [User.name].
  rewrite Hq. cbn [negb orb]. by rewrite orb_true_r.
Qed.

(** For the lower-casing of the letters A to Z: a search for [ali] on the
    seed data, and a search after a user was created with the name 5. *)
Lemma listUsers_search_witness :
  lower_ascii "" = "" ∧
  Search.array_listUsers lower_ascii (VStr "ALI") ArrayServer.seed
  = Some (Response 200
            (BUsers [User.mk "1" (VStr "Alice") (VStr "alice@example.com")])) ∧
  Search.array_listUsers lower_ascii (VStr "ali")
    (ArrayServer.createUser (UserBody (VNum 5) (VStr "five@example.com")) ArrayServer.seed).1
  = None.
Proof.
  split; [reflexivity|].
  destruct (listUsers_search lower_ascii eq_refl) as (_ & Hstr & _ & _ & Hthrows & _).
  split.
  - rewrite Hstr. reflexivity.
  - apply (Hthrows ArrayServer.seed (UserBody (VNum 5) (VStr "five@example.com")) "ali");
      [reflexivity|reflexivity|reflexivity|discriminate].
Defined.

(** X15. The circular buffer of the second server never grows: after any
    sequence of requests it has [RECENT_SIZE] slots and the write index is
    the number of requests modulo [RECENT_SIZE].  The next request is
    written inside the buffer, over the entry made [RECENT_SIZE] requests
    ago, or into a hole when there were fewer; every other slot is kept. *)
Theorem ring_overwrites_oldest (startedAt : string) (reqs : list Metrics.finished) :
  let m := RingMetrics.run startedAt reqs in
  length (RingMetrics.recent m) = RingMetrics.RECENT_SIZE ∧
  RingMetrics.recentIndex m = length reqs `mod` RingMetrics.RECENT_SIZE ∧
  RingMetrics.recentIndex m < RingMetrics.RECENT_SIZE ∧
  RingMetrics.recent m !! RingMetrics.recentIndex m
  = Some (reverse (Metrics.entry_of <$> reqs) !! (RingMetrics.RECENT_SIZE - 1)) ∧
  ∀ r, let m' := RingMetrics.finish m r in
       length (RingMetrics.recent m') = RingMetrics.RECENT_SIZE ∧
       RingMetrics.recent m' !! RingMetrics.recentIndex m = Some (Some (Metrics.entry_of r)) ∧
       ∀ i, i ≠ RingMetrics.recentIndex m →
            RingMetrics.recent m' !! i = RingMetrics.recent m !! i.
Proof.
  intros m. subst m.
  destruct (ring_run_inv startedAt reqs) as (Hlen & Hidx & _ & Hslots).
  set (m := RingMetrics.run startedAt reqs) in *.
  assert (Hlt : RingMetrics.recentIndex m < 100).
  { rewrite Hidx. apply Nat.mod_upper_bound. lia. }
  unfold RingMetrics.RECENT_SIZE.
  split; [done|]. split; [by rewrite Hidx, length_fmap|]. split; [done|]. split.
  { specialize (Hslots 99 ltac:(lia)). rewrite slot_eq in Hslots by lia.
    replace (RingMetrics.recentIndex m + 99 - 99) with (RingMetrics.recentIndex m) in Hslots
      by lia.
    by rewrite Nat.mod_small in Hslots. }
  intros r. cbn [RingMetrics.finish RingMetrics.recent]. unfold RingMetrics.assign.
  rewrite bool_decide_eq_true_2 by lia.
  split; [by rewrite length_insert|]. split.
  - apply list_lookup_insert_eq. lia.
  - intros i Hi. by apply list_lookup_insert_ne.
Qed.

(** ** Rounding *)
Section RoundFacts.
Import Metrics.

Lemma Math_round_bounds x :
  (x - (1 # 2) < inject_Z (Math_round x))%Q ∧ (inject_Z (Math_round x) <= x + (1 # 2))%Q.
Proof.
  unfold Math_round.
  pose proof (Qfloor_le (x + (1 # 2))%Q) as Hle.
  pose proof (Qlt_floor (x + (1 # 2))%Q) as Hlt.
  rewrite inject_Z_plus in Hlt. change (inject_Z 1) with 1%Q in Hlt.
  split; [lra|done].
Qed.

Lemma Math_round_Z n : Math_round (inject_Z n) = n.
Proof.
  unfold Math_round.
  pose proof (Qfloor_le (inject_Z n + (1 # 2))%Q) as Hle.
  pose proof (Qlt_floor (inject_Z n + (1 # 2))%Q) as Hlt.
  set (k := Qfloor (inject_Z n + (1 # 2))%Q) in *.
  rewrite inject_Z_plus in Hlt. change (inject_Z 1) with 1%Q in Hlt.
  assert (Hlo : (inject_Z k < inject_Z (n + 1))%Q).
  { rewrite inject_Z_plus. change (inject_Z 1) with 1%Q. lra. }
  assert (Hhi : (inject_Z n < inject_Z (k + 1))%Q).
  { rewrite inject_Z_plus. change (inject_Z 1) with 1%Q. lra. }
  rewrite <- Zlt_Qlt in Hlo, Hhi. lia.
Qed.

End RoundFacts.

(** X16. The duration of a recent entry and the [uptimeSec] of a snapshot
    are the nearest integers to the measured values, the upper one of two
    (so at most one half away), and the value itself when it is an
    integer. *)
Theorem rounded_to_nearest :
  (∀ req,
     (Metrics.elapsed req - (1 # 2) < inject_Z (Metrics.ms (Metrics.entry_of req)))%Q ∧
     (inject_Z (Metrics.ms (Metrics.entry_of req)) <= Metrics.elapsed req + (1 # 2))%Q) ∧
  (∀ uptime m,
     (uptime - (1 # 2) < inject_Z (Metrics.uptimeSec (ArrayMetrics.snapshot uptime m)))%Q ∧
     (inject_Z (Metrics.uptimeSec (ArrayMetrics.snapshot uptime m)) <= uptime + (1 # 2))%Q) ∧
  (∀ uptime m,
     (uptime - (1 # 2) < inject_Z (Metrics.uptimeSec (RingMetrics.snapshot uptime m)))%Q ∧
     (inject_Z (Metrics.uptimeSec (RingMetrics.snapshot uptime m)) <= uptime + (1 # 2))%Q) ∧
  (∀ n m, Metrics.uptimeSec (ArrayMetrics.snapshot (inject_Z n) m) = n) ∧
  (∀ n m, Metrics.uptimeSec (RingMetrics.snapshot (inject_Z n) m) = n) ∧
  (∀ n req, Metrics.elapsed req = inject_Z n → Metrics.ms (Metrics.entry_of req) = n).
Proof.
  split; [intros req; apply Math_round_bounds|].
  split; [intros uptime m; apply Math_round_bounds|].
  split; [intros uptime m; apply Math_round_bounds|].
  split; [intros n m; apply Math_round_Z|].
  split; [intros n m; apply Math_round_Z|].
  intros n req Hn. cbn [Metrics.entry_of Metrics.ms]. rewrite Hn. apply Math_round_Z.
Qed.

(** ** Every entity can be read *)
Section ReadFacts.

Lemma find_NoDup {A} (f : A → string) (l : list A) x :
  NoDup (f <$> l) → x ∈ l → JSArray.find (λ y, bool_decide (f y = f x)) l = Some x.
Proof.
  induction l as [|y l IH]; intros Hnd Hx; [by inversion Hx|].
  cbn [fmap list_fmap] in Hnd. apply NoDup_cons in Hnd as [Hy Hnd].
  cbn [JSArray.find]. apply elem_of_cons in Hx as [->|Hx].
  - by rewrite bool_decide_eq_true_2.
  - rewrite bool_decide_eq_false_2; [by apply IH|].
    intros Heq. apply Hy. rewrite Heq. by apply list_elem_of_fmap_2.
Qed.

End ReadFacts.

(** X17. After any sequence of store operations every user and every todo
    of the store is what a read of its id returns: no entity is hidden
    behind another with the same id.  In the second server every entry of
    the maps is kept under the id of its object. *)
Theorem every_entity_is_read_by_id (ops : list op) :
  (∀ u, u ∈ ArrayServer.users (ArrayServer.run ops) →
        ArrayServer.getUser (User.id u) (ArrayServer.run ops) = Response 200 (BUser u)) ∧
  (∀ x, x ∈ ArrayServer.todos (ArrayServer.run ops) →
        ArrayServer.getTodo (Todo.id x) (ArrayServer.run ops) = Response 200 (BTodo x)) ∧
  (∀ k u, (k, u) ∈ MapServer.users (MapServer.run ops) →
          k = User.id u ∧
          MapServer.getUser (User.id u) (MapServer.run ops) = Response 200 (BUser u)) ∧
  (∀ k x, (k, x) ∈ MapServer.todos (MapServer.run ops) →
          k = Todo.id x ∧
          MapServer.getTodo (Todo.id x) (MapServer.run ops) = Response 200 (BTodo x)).
Proof.
  destruct (array_run_fresh ops) as [Hnd _]. unfold array_ids in Hnd.
  apply NoDup_app in Hnd as (Hndu & _ & Hndt).
  destruct (map_run_wf ops) as (Hmu & Hmt & Huid & Htid & _).
  split; [|split; [|split]].
  - intros u Hu. unfold ArrayServer.getUser, ArrayServer.user_is.
    by rewrite (find_NoDup User.id _ u Hndu Hu).
  - intros x Hx. unfold ArrayServer.getTodo, ArrayServer.todo_is.
    by rewrite (find_NoDup Todo.id _ x Hndt Hx).
  - intros k u Hu. pose proof (Huid _ Hu) as Hk. cbn [fst snd] in Hk. subst k.
    split; [done|]. unfold MapServer.getUser. by rewrite (get_elem _ _ _ Hmu Hu).
  - intros k x Hx. pose proof (Htid _ Hx) as Hk. cbn [fst snd] in Hk. subst k.
    split; [done|]. unfold MapServer.getTodo. by rewrite (get_elem _ _ _ Hmt Hx).
Qed.
